(** * AUDIN/UFAM site scripts: data loader, gauge, route dispatcher and widgets

  A shallow embedding of the client-side scripts of the AUDIN/UFAM
  reporting site, and the properties of them that the specification
  states.

  - [JSString], [JSNumber]: the ECMAScript string and number operations the
    scripts call ([includes], [endsWith], [indexOf], [toLowerCase], [trim],
    [Number::toString], [toLocaleString('pt-BR', ...)]).
  - [DataLoader]: the data loader script (stats cache, formatters, gauge
    arc, page binders, route dispatcher).
  - [AudinCore]: the widgets of [audin-core.js] (accordion, report filter,
    tabs) over a store of DOM nodes.

  Modelling conventions.  A JavaScript string is a [string]; the character
  classes of [toLowerCase] and [trim] are the ASCII ones.  A number of the
  stats document is the rational [Q] its JSON literal denotes.  The gauge
  geometry is computed over the real numbers [R] ([Math.cos], [Math.sin],
  [Math.PI] are the real functions).  An [async] function is run to
  completion: a call is one atomic step on the page state, and a [throw]
  inside it (a rejected promise) is the completion [Throw]. *)

From Stdlib Require Import Ascii String ZArith QArith Reals Lra Lia.
From stdpp Require Import base strings list gmap pretty.

Local Open Scope string_scope.

(* ================================================================== *)
(** ** ECMAScript strings *)
(* ================================================================== *)

Module JSString.

(** [s.indexOf(t)]: the first position at which [t] occurs in [s], or
    [-1].  [indexOf_from s t i] scans [s], whose first character has
    position [i]. *)
Fixpoint indexOf_from (s t : string) (i : Z) : Z :=
  if String.prefix t s then i
  else match s with
       | EmptyString => (-1)%Z
       | String _ s' => indexOf_from s' t (i + 1)
       end.

Definition indexOf (s t : string) : Z := indexOf_from s t 0.

(** [s.includes(t)] *)
Definition includes (s t : string) : bool :=
  negb (indexOf s t =? -1)%Z.

(** [s.endsWith(t)]: some suffix of [s] is [t]. *)
Fixpoint endsWith (s t : string) : bool :=
  if String.eqb s t then true
  else match s with
       | EmptyString => false
       | String _ s' => endsWith s' t
       end.

(** [s.toLowerCase()] on the ASCII letters. *)
Definition lower_ascii (c : ascii) : ascii :=
  let n := nat_of_ascii c in
  if ((65 <=? n) && (n <=? 90))%nat then ascii_of_nat (n + 32) else c.

Fixpoint toLowerCase (s : string) : string :=
  match s with
  | EmptyString => EmptyString
  | String c s' => String (lower_ascii c) (toLowerCase s')
  end.

(** White space and line terminators of [trim], ASCII part:
    TAB, LF, VT, FF, CR and SPACE. *)
Definition is_space (c : ascii) : bool :=
  let n := nat_of_ascii c in
  ((9 <=? n) && (n <=? 13) || (n =? 32))%nat.

Fixpoint trimStart (s : string) : string :=
  match s with
  | String c s' => if is_space c then trimStart s' else s
  | EmptyString => EmptyString
  end.

Fixpoint trimEnd (s : string) : string :=
  match s with
  | EmptyString => EmptyString
  | String c s' =>
      match trimEnd s' with
      | EmptyString => if is_space c then EmptyString else String c EmptyString
      | r => String c r
      end
  end.

(** [s.trim()] *)
Definition trim (s : string) : string := trimEnd (trimStart s).

(** [!s] for a string: only the empty string is falsy. *)
Definition is_empty (s : string) : bool :=
  match s with EmptyString => true | _ => false end.

End JSString.

(* ================================================================== *)
(** ** ECMAScript numbers: decimal text *)
(* ================================================================== *)

Module JSNumber.

Definition digit (d : Z) : ascii := ascii_of_nat (48 + Z.to_nat d).

Definition decimal (n : Z) : string := pretty (Z.to_N n).

(** The digits of [r / d] after the decimal point ([0 <= r < d]), until
    the remainder vanishes; at most [fuel] of them. *)
Fixpoint frac_digits (fuel : nat) (r d : Z) : string :=
  match fuel with
  | O => EmptyString
  | S fuel' =>
      if (r =? 0)%Z then EmptyString
      else String (digit (r * 10 / d)) (frac_digits fuel' (r * 10 mod d) d)
  end.

(** [Number::toString] in the plain decimal range: sign, integer part
    and, for a non-integer, the fraction digits. *)
Definition toString (q : Q) : string :=
  let d := Zpos (Qden q) in
  let a := Z.abs (Qnum q) in
  let f := frac_digits 17 (a mod d) d in
  (if (Qnum q <? 0)%Z then "-" else "")
    +:+ decimal (a / d)
    +:+ (if JSString.is_empty f then "" else "." +:+ f).

(** The [m] digits of [v], most significant first ([0 <= v < 10^m]). *)
Fixpoint fixed_digits (m : nat) (v : Z) : string :=
  match m with
  | O => EmptyString
  | S k =>
      String (digit (v / 10 ^ Z.of_nat k))
             (fixed_digits k (v mod 10 ^ Z.of_nat k))
  end.

Fixpoint drop_trailing_zeros (s : string) : string :=
  match s with
  | EmptyString => EmptyString
  | String c s' =>
      match drop_trailing_zeros s' with
      | EmptyString => if Ascii.eqb c "0" then EmptyString else String c EmptyString
      | r => String c r
      end
  end.

(** The pt-BR grouping: a full stop before every group of three digits. *)
Fixpoint group3 (s : string) : string :=
  match s with
  | EmptyString => EmptyString
  | String c s' =>
      let n := String.length s' in
      String c (if ((0 <? n) && (n mod 3 =? 0))%nat
                then "." +:+ group3 s' else group3 s')
  end.

(** [q.toLocaleString('pt-BR', { minimumFractionDigits: minFD,
    maximumFractionDigits: maxFD })]: round half away from zero to [maxFD]
    fraction digits, keep at least [minFD] of them, group the integer part
    by thousands with [.], and separate the fraction with [,]. *)
Definition toLocaleString_ptBR (minFD maxFD : nat) (q : Q) : string :=
  let d := Zpos (Qden q) in
  let a := Z.abs (Qnum q) in
  let p := (10 ^ Z.of_nat maxFD)%Z in
  let scaled := ((2 * a * p + d) / (2 * d))%Z in
  let frac := fixed_digits maxFD (scaled mod p) in
  let frac := String.substring 0 minFD frac
              +:+ drop_trailing_zeros
                    (String.substring minFD (maxFD - minFD) frac) in
  (if (Qnum q <? 0)%Z then "-" else "")
    +:+ group3 (decimal (scaled / p))
    +:+ (if JSString.is_empty frac then "" else "," +:+ frac).

End JSNumber.

(* ================================================================== *)
(** ** The data loader script *)
(* ================================================================== *)

Module DataLoader.

(** *** The stats document

    [stats.json] is an object of numeric and string fields and two top-N
    arrays of [{unidade, total, percentual}] records.  A field that the
    document lacks reads as [undefined]: it is [None] here. *)

Record top_item := {
  unidade : option string;
  total : option Q;
  percentual : option Q
}.

Record stats := {
  total_relatorios : option Q;
  total_recomendacoes : option Q;
  beneficios : option Q;
  total_unidades : option Q;
  efetividade : option Q;
  anos_atuacao : option Q;
  data_atualizacao : option string;
  atendidas : option Q;
  perc_atendidas : option Q;
  baixadas : option Q;
  perc_baixadas : option Q;
  em_implementacao : option Q;
  perc_em_implementacao : option Q;
  pendentes : option Q;
  perc_pendentes : option Q;
  unidades_com_beneficios : option Q;
  media_beneficios_unidade : option Q;
  top_unidades_beneficios : option (list top_item);
  ano_inicio : option Q;
  ano_fim : option Q;
  media_rec_ano : option Q;
  ano_pico : option Q;
  rec_ano_pico : option Q;
  top_unidades_recomendacoes : option (list top_item)
}.

(** The values the binders hand to the DOM. *)
Inductive jsval :=
| JUndefined
| JNum (q : Q)
| JStr (s : string).

Definition num (f : option Q) : jsval :=
  match f with Some q => JNum q | None => JUndefined end.

Definition str (f : option string) : jsval :=
  match f with Some s => JStr s | None => JUndefined end.

(** ECMAScript [ToString], as applied by [+ '...'] and by [`${...}`]. *)
Definition ToString (v : jsval) : string :=
  match v with
  | JUndefined => "undefined"
  | JNum q => JSNumber.toString q
  | JStr s => s
  end.

(** The conversion of the [textContent] setter, whose Web IDL type is the
    nullable [DOMString?]: [undefined] and [null] become the null value,
    which the setter treats as the empty string. *)
Definition DOMString_or_null (v : jsval) : string :=
  match v with
  | JUndefined => ""
  | _ => ToString v
  end.

(** *** The gauge arc *)

(** The SVG path [M startX startY A rx ry rotation largeArc sweep endX endY]. *)
Record gauge_path := {
  startX : R;
  startY : R;
  rx : R;
  ry : R;
  xAxisRotation : Z;
  largeArcFlag : Z;
  sweepFlag : Z;
  endX : R;
  endY : R
}.

Definition calculateGaugeArc (percentage : R) : gauge_path :=
  let startAngle := PI in
  let endAngle := (startAngle - (percentage / 100) * PI)%R in
  let cx := 100%R in
  let cy := 100%R in
  let r := 80%R in
  let startX := (cx + r * cos startAngle)%R in
  let startY := (cy - r * sin startAngle)%R in
  let endX := (cx + r * cos endAngle)%R in
  let endY := (cy - r * sin endAngle)%R in
  let largeArcFlag := if Rlt_dec 50 percentage then 1%Z else 0%Z in
  {| startX := startX; startY := startY; rx := r; ry := r;
     xAxisRotation := 0; largeArcFlag := largeArcFlag; sweepFlag := 1;
     endX := endX; endY := endY |}.

(** *** The page *)

(** What the binders read and write of an element: its text, its
    [style.width] (the text last assigned to it) and, for the gauge, its
    [d] attribute. *)
Record element := {
  textContent : string;
  style_width : string;
  attr_d : option gauge_path
}.

Definition set_textContent (v : jsval) (e : element) : element :=
  {| textContent := DOMString_or_null v;
     style_width := style_width e; attr_d := attr_d e |}.

Definition set_style_width (s : string) (e : element) : element :=
  {| textContent := textContent e; style_width := s; attr_d := attr_d e |}.

Definition setAttribute_d (g : gauge_path) (e : element) : element :=
  {| textContent := textContent e; style_width := style_width e;
     attr_d := Some g |}.

(** How a request for [stats.json] ends: [fetch] rejects, or
    [response.json()] rejects, or the body parses to a stats document. *)
Inductive fetch_outcome :=
| FetchRejects (error : string)
| JsonRejects (error : string)
| Parsed (doc : stats).

(** The page state: the global [statsData] ([None] is [null]), the elements
    of the document by id, the lines of [console.error], the requests issued
    so far, and the network, which answers the [n]-th request. *)
Record world := {
  statsData : option stats;
  document : gmap string element;
  console : list (string * string);
  requests : list string;
  network : nat -> fetch_outcome
}.

Definition with_statsData (d : option stats) (w : world) : world :=
  {| statsData := d; document := document w; console := console w;
     requests := requests w; network := network w |}.

Definition with_document (d : gmap string element) (w : world) : world :=
  {| statsData := statsData w; document := d; console := console w;
     requests := requests w; network := network w |}.

Definition with_console (c : list (string * string)) (w : world) : world :=
  {| statsData := statsData w; document := document w; console := c;
     requests := requests w; network := network w |}.

Definition with_requests (r : list string) (w : world) : world :=
  {| statsData := statsData w; document := document w; console := console w;
     requests := r; network := network w |}.

(** *** Computations on the page *)

Inductive exn := TypeError (message : string).

Inductive completion (A : Type) :=
| Normal (a : A)
| Throw (e : exn).
Arguments Normal {A} a.
Arguments Throw {A} e.

Definition M (A : Type) : Type := world -> completion A * world.

Definition ret {A} (a : A) : M A := fun w => (Normal a, w).

Definition bind {A B} (c : M A) (k : A -> M B) : M B :=
  fun w =>
    match c w with
    | (Normal a, w') => k a w'
    | (Throw e, w') => (Throw e, w')
    end.

Definition lift {A} (c : completion A) : M A := fun w => (c, w).

Declare Scope js_scope.
Delimit Scope js_scope with js.
Notation "x <- c1 ;; c2" := (bind c1 (fun x => c2))
  (at level 100, c1 at next level, right associativity) : js_scope.
Notation "c1 ;; c2" := (bind c1 (fun _ => c2))
  (at level 100, right associativity) : js_scope.
Local Open Scope js_scope.

(** [l.forEach((item, index) => f(item, index))], from index [i]. *)
Fixpoint forEach {A} (f : A -> nat -> M unit) (l : list A) (i : nat) : M unit :=
  match l with
  | [] => ret tt
  | x :: l' => f x i ;; forEach f l' (S i)
  end.

(** *** loadStats *)

Definition stats_url : string := "/data/stats.json".

(** [statsData] is [null] or a stats document; a document is an object and
    so truthy, and [if (statsData)] is the test for [Some].  A request is
    recorded when [fetch] is called, whatever becomes of it. *)

Definition loadStats : M (option stats) := fun w =>
  match statsData w with
  | Some d => (Normal (Some d), w)
  | None =>
      let w1 := with_requests (requests w ++ [stats_url]) w in
      match network w (length (requests w)) with
      | Parsed d => (Normal (Some d), with_statsData (Some d) w1)
      | FetchRejects error | JsonRejects error =>
          (Normal None,
           with_console (console w1 ++ [("Erro ao carregar stats.json:", error)]) w1)
      end
  end.

(** *** Formatters *)

Definition formatNumber (n : option Q) : completion string :=
  match n with
  | Some q => Normal (JSNumber.toLocaleString_ptBR 0 3 q)
  | None =>
      Throw (TypeError "Cannot read properties of undefined (reading 'toLocaleString')")
  end.

Definition formatPercent (n : option Q) : completion string :=
  match n with
  | Some q => Normal (JSNumber.toLocaleString_ptBR 1 1 q)
  | None =>
      Throw (TypeError "Cannot read properties of undefined (reading 'toLocaleString')")
  end.

(** *** DOM updates *)

Definition getElementById (id : string) : M (option element) :=
  fun w => (Normal (document w !! id), w).

(** Write back the element found under [id]. *)
Definition store (id : string) (e : element) : M unit :=
  fun w => (Normal tt, with_document (<[id := e]> (document w)) w).

Definition updateElement (id : string) (value : jsval) : M unit :=
  element <- getElementById id ;;
  match element with
  | Some e => store id (set_textContent value e)
  | None => ret tt
  end.

(** One bar of the status bar or segment of the progress bar:
    [el.style.width = perc + '%'; el.textContent = value]. *)
Definition updateBar (id : string) (perc value : jsval) : M unit :=
  el <- getElementById id ;;
  match el with
  | Some e =>
      store id (set_textContent value
                  (set_style_width (ToString perc +:+ "%") e))
  | None => ret tt
  end.

Definition updateStatusBar (s : stats) : M unit :=
  updateBar "bar-atendidas" (num (perc_atendidas s)) (num (atendidas s)) ;;
  updateBar "bar-baixadas" (num (perc_baixadas s)) (num (baixadas s)) ;;
  updateBar "bar-implementacao" (num (perc_em_implementacao s))
            (num (em_implementacao s)) ;;
  updateBar "bar-pendentes" (num (perc_pendentes s)) (num (pendentes s)) ;;
  p <- lift (formatPercent (perc_atendidas s)) ;;
  updateElement "legend-atendidas" (JStr ("Atendidas (" +:+ p +:+ "%)")) ;;
  p <- lift (formatPercent (perc_baixadas s)) ;;
  updateElement "legend-baixadas" (JStr ("Baixadas (" +:+ p +:+ "%)")) ;;
  p <- lift (formatPercent (perc_em_implementacao s)) ;;
  updateElement "legend-implementacao"
                (JStr ("Em Implementação (" +:+ p +:+ "%)")) ;;
  p <- lift (formatPercent (perc_pendentes s)) ;;
  updateElement "legend-pendentes" (JStr ("Pendentes (" +:+ p +:+ "%)")).

Definition updateProgressBar (s : stats) : M unit :=
  let segments :=
    [ ("progress-atendidas", num (perc_atendidas s), num (atendidas s));
      ("progress-baixadas", num (perc_baixadas s), num (baixadas s));
      ("progress-implementacao", num (perc_em_implementacao s),
        num (em_implementacao s));
      ("progress-pendentes", num (perc_pendentes s), num (pendentes s)) ] in
  forEach (fun '(id, perc, value) _ => updateBar id perc value) segments 0.

(** *** Page binders *)

Definition updateDashboard : M unit :=
  stats <- loadStats ;;
  match stats with
  | None => ret tt
  | Some s =>
      updateElement "card-relatorios" (num (total_relatorios s)) ;;
      updateElement "card-recomendacoes" (num (total_recomendacoes s)) ;;
      updateElement "card-beneficios" (num (beneficios s)) ;;
      updateElement "card-unidades" (num (total_unidades s)) ;;
      updateStatusBar s ;;
      p <- lift (formatPercent (efetividade s)) ;;
      updateElement "efetividade-valor" (JStr (p +:+ "%")) ;;
      updateElement "efetividade-atendidas-baixadas" (num (beneficios s)) ;;
      updateElement "efetividade-total" (num (total_recomendacoes s)) ;;
      gaugeArc <- getElementById "gauge-arc" ;;
      match gaugeArc, efetividade s with
      | Some e, Some q =>
          store "gauge-arc" (setAttribute_d (calculateGaugeArc (Q2R q)) e)
      | _, _ =>
          (* no gauge element; [efetividade] cannot be missing here, as
             [formatPercent] above would have thrown *)
          ret tt
      end ;;
      updateElement "stat-anos" (num (anos_atuacao s)) ;;
      updateElement "stat-relatorios" (num (total_relatorios s)) ;;
      updateElement "stat-unidades" (num (total_unidades s)) ;;
      updateElement "data-atualizacao" (str (data_atualizacao s))
  end.

Definition updateMonitoramento : M unit :=
  stats <- loadStats ;;
  match stats with
  | None => ret tt
  | Some s =>
      updateElement "monitor-atendidas" (num (atendidas s)) ;;
      p <- lift (formatPercent (perc_atendidas s)) ;;
      updateElement "monitor-atendidas-perc" (JStr (p +:+ "%")) ;;
      updateElement "monitor-baixadas" (num (baixadas s)) ;;
      p <- lift (formatPercent (perc_baixadas s)) ;;
      updateElement "monitor-baixadas-perc" (JStr (p +:+ "%")) ;;
      updateElement "monitor-implementacao" (num (em_implementacao s)) ;;
      p <- lift (formatPercent (perc_em_implementacao s)) ;;
      updateElement "monitor-implementacao-perc" (JStr (p +:+ "%")) ;;
      updateElement "monitor-pendentes" (num (pendentes s)) ;;
      p <- lift (formatPercent (perc_pendentes s)) ;;
      updateElement "monitor-pendentes-perc" (JStr (p +:+ "%")) ;;
      p <- lift (formatPercent (efetividade s)) ;;
      updateElement "monitor-resolvidas-perc" (JStr (p +:+ "% Resolvidas")) ;;
      updateProgressBar s
  end.

Definition updateBeneficios : M unit :=
  stats <- loadStats ;;
  match stats with
  | None => ret tt
  | Some s =>
      updateElement "beneficios-total" (num (beneficios s)) ;;
      updateElement "beneficios-unidades" (num (unidades_com_beneficios s)) ;;
      p <- lift (formatPercent (media_beneficios_unidade s)) ;;
      updateElement "beneficios-media" (JStr p) ;;
      match top_unidades_beneficios s with
      | Some top =>
          forEach (fun item index =>
            updateElement ("top-beneficio-" +:+ pretty (index + 1)%nat +:+ "-nome")
                          (str (unidade item)) ;;
            updateElement ("top-beneficio-" +:+ pretty (index + 1)%nat +:+ "-total")
                          (num (total item)))
            top 0
      | None => ret tt
      end
  end.

Definition updateRaioX : M unit :=
  stats <- loadStats ;;
  match stats with
  | None => ret tt
  | Some s =>
      updateElement "raiox-unidades" (num (total_unidades s)) ;;
      updateElement "raiox-anos" (num (anos_atuacao s)) ;;
      updateElement "raiox-periodo"
        (JStr (ToString (num (ano_inicio s)) +:+ " - "
                 +:+ ToString (num (ano_fim s)))) ;;
      p <- lift (formatPercent (media_rec_ano s)) ;;
      updateElement "raiox-media" (JStr p) ;;
      updateElement "raiox-ano-pico" (num (ano_pico s)) ;;
      updateElement "raiox-rec-pico"
        (JStr (ToString (num (rec_ano_pico s)) +:+ " recomendações")) ;;
      match top_unidades_recomendacoes s with
      | Some top =>
          forEach (fun item index =>
            updateElement ("top-rec-" +:+ pretty (index + 1)%nat +:+ "-nome")
                          (str (unidade item)) ;;
            updateElement ("top-rec-" +:+ pretty (index + 1)%nat +:+ "-total")
                          (num (total item)) ;;
            p <- lift (formatPercent (percentual item)) ;;
            updateElement ("top-rec-" +:+ pretty (index + 1)%nat +:+ "-perc")
                          (JStr (p +:+ "% do total")))
            (take 3 top) 0
      | None => ret tt
      end
  end.

Definition updateRelatorios : M unit :=
  stats <- loadStats ;;
  match stats with
  | None => ret tt
  | Some s =>
      match top_unidades_recomendacoes s with
      | Some top =>
          forEach (fun item index =>
            updateElement ("report-top-" +:+ pretty (index + 1)%nat +:+ "-nome")
                          (str (unidade item)) ;;
            updateElement ("report-top-" +:+ pretty (index + 1)%nat +:+ "-total")
                          (num (total item)))
            (take 5 top) 0
      | None => ret tt
      end
  end.

(** *** Route dispatcher *)

Inductive binder :=
| UpdateDashboard
| UpdateMonitoramento
| UpdateBeneficios
| UpdateRaioX
| UpdateRelatorios.

Definition run (b : binder) : M unit :=
  match b with
  | UpdateDashboard => updateDashboard
  | UpdateMonitoramento => updateMonitoramento
  | UpdateBeneficios => updateBeneficios
  | UpdateRaioX => updateRaioX
  | UpdateRelatorios => updateRelatorios
  end.

(** The third disjunct of the first rule,
    [path.endsWith('/index.html') && !path.includes('/')]. *)
Definition root_sub_rule (path : string) : bool :=
  JSString.endsWith path "/index.html" && negb (JSString.includes path "/").

(** The binder calls that [initDataLoader] makes when
    [window.location.pathname] is [path], in the order it makes them. *)
Definition initDataLoader (path : string) : list binder :=
  if String.eqb path "/" || String.eqb path "/index.html" || root_sub_rule path
  then [UpdateDashboard]
  else if JSString.includes path "/monitor/" then [UpdateMonitoramento]
  else if JSString.includes path "/beneficios/" then [UpdateBeneficios]
  else if JSString.includes path "/raio-x/" then [UpdateRaioX]
  else if JSString.includes path "/report/" then [UpdateRelatorios]
  else [].

(** The dispatcher as the specification words it: a fixed, ordered set of
    rules, each a test on the path with the binder it selects; the first
    rule whose test holds selects the binder, and a path that no rule
    matches selects none. *)
Definition dispatch_rules : list ((string -> bool) * binder) :=
  [ (fun path => String.eqb path "/" || String.eqb path "/index.html"
                 || root_sub_rule path, UpdateDashboard);
    (fun path => JSString.includes path "/monitor/", UpdateMonitoramento);
    (fun path => JSString.includes path "/beneficios/", UpdateBeneficios);
    (fun path => JSString.includes path "/raio-x/", UpdateRaioX);
    (fun path => JSString.includes path "/report/", UpdateRelatorios) ].

Definition first_matching_rule (path : string) : option binder :=
  snd <$> List.find (fun rule => fst rule path) dispatch_rules.

(** The effect of the dispatcher on the page: the calls are not awaited, so
    a binder that throws leaves a rejected promise behind and the
    dispatcher itself returns normally. *)
Definition run_initDataLoader (path : string) : M unit := fun w =>
  (Normal tt, foldl (fun w b => snd (run b w)) w (initDataLoader path)).

(** *** Frame and failure of a computation *)

(** [keeps id c]: the computation [c] leaves the element [id] as it is,
    however it completes. *)
Definition keeps {A} (id : string) (c : M A) : Prop :=
  forall w, document (snd (c w)) !! id = document w !! id.

(** [throws c]: the computation [c] ends in a [throw]. *)
Definition throws {A} (c : M A) : Prop :=
  forall w, exists e, fst (c w) = Throw e.

(** *** A sample page *)

(** A stats document with every field, but for the two given as
    arguments, which may be left out. *)
Definition stats_2024 (inicio efet : option Q) : stats :=
  {| total_relatorios := Some 214%Q;
     total_recomendacoes := Some 1250%Q;
     beneficios := Some 919%Q;
     total_unidades := Some 48%Q;
     efetividade := efet;
     anos_atuacao := Some 15%Q;
     data_atualizacao := Some "02/01/2025";
     atendidas := Some 700%Q;
     perc_atendidas := Some 56%Q;
     baixadas := Some 219%Q;
     perc_baixadas := Some 17.52%Q;
     em_implementacao := Some 200%Q;
     perc_em_implementacao := Some 16%Q;
     pendentes := Some 131%Q;
     perc_pendentes := Some 10.48%Q;
     unidades_com_beneficios := Some 30%Q;
     media_beneficios_unidade := Some 30.63%Q;
     top_unidades_beneficios :=
       Some [ {| unidade := Some "PROADM"; total := Some 120%Q;
                 percentual := Some 13.1%Q |};
              {| unidade := Some "PROGESP"; total := Some 98%Q;
                 percentual := Some 10.7%Q |} ];
     ano_inicio := inicio;
     ano_fim := Some 2024%Q;
     media_rec_ano := Some 83.33%Q;
     ano_pico := Some 2019%Q;
     rec_ano_pico := Some 160%Q;
     top_unidades_recomendacoes :=
       Some [ {| unidade := Some "PROADM"; total := Some 180%Q;
                 percentual := Some 14.4%Q |};
              {| unidade := Some "PROGESP"; total := Some 150%Q;
                 percentual := Some 12%Q |} ] |}.

Definition sample_stats : stats := stats_2024 (Some 2010%Q) (Some 73.5%Q).

Definition text (t : string) : element :=
  {| textContent := t; style_width := ""; attr_d := None |}.

(** A page that has just loaded: the cache as given, no request made and
    nothing logged yet. *)
Definition page (cache : option stats) (elements : list (string * element))
           (net : nat -> fetch_outcome) : world :=
  {| statsData := cache; document := list_to_map elements;
     console := []; requests := []; network := net |}.

Definition online (doc : stats) : nat -> fetch_outcome :=
  fun _ => Parsed doc.

Definition offline : nat -> fetch_outcome :=
  fun _ => FetchRejects "TypeError: Failed to fetch".

(** The first request fails, the later ones succeed. *)
Definition flaky (doc : stats) : nat -> fetch_outcome :=
  fun n => match n with
           | O => JsonRejects "SyntaxError: Unexpected token '<'"
           | S _ => Parsed doc
           end.

(** A first visit with the network up, one with the network down, and one
    whose first request fails. *)
Definition first_visit : world := page None [] (online sample_stats).

Definition offline_visit : world :=
  page None [("card-relatorios", text "214"); ("gauge-arc", text "")] offline.

Definition flaky_visit : world := page None [] (flaky sample_stats).


End DataLoader.

(* ================================================================== *)
(** ** The widgets of audin-core.js and audin-dashboard.js *)
(* ================================================================== *)

Module AudinCore.

(** *** The document

    The elements of the page in tree order.  An element is referred to by
    its position; [parent] is the position of its parent element.  Two
    references are the same element exactly when they are the same
    position, and every write goes to the one store [dom]. *)

Record node := {
  parent : option nat;
  attributes : gmap string string;
  classList : gset string;
  value : string
}.

Abbreviation dom := (list node).

Definition set_attr (name v : string) (n : node) : node :=
  {| parent := parent n; attributes := <[name := v]> (attributes n);
     classList := classList n; value := value n |}.

Definition remove_attr (name : string) (n : node) : node :=
  {| parent := parent n; attributes := delete name (attributes n);
     classList := classList n; value := value n |}.

Definition add_class (c : string) (n : node) : node :=
  {| parent := parent n; attributes := attributes n;
     classList := {[c]} ∪ classList n; value := value n |}.

Definition remove_class (c : string) (n : node) : node :=
  {| parent := parent n; attributes := attributes n;
     classList := classList n ∖ {[c]}; value := value n |}.

(** [el.getAttribute(name)]; [None] is [null]. *)
Definition getAttribute (d : dom) (el : nat) (name : string) : option string :=
  n ← d !! el; attributes n !! name.

Definition setAttribute (el : nat) (name v : string) (d : dom) : dom :=
  alter (set_attr name v) el d.

Definition removeAttribute (el : nat) (name : string) (d : dom) : dom :=
  alter (remove_attr name) el d.

Definition hasAttribute (d : dom) (el : nat) (name : string) : bool :=
  match getAttribute d el name with Some _ => true | None => false end.

(** [el.hidden = b]: the property reflects the [hidden] attribute. *)
Definition set_hidden (el : nat) (b : bool) (d : dom) : dom :=
  if b then setAttribute el "hidden" "" d else removeAttribute el "hidden" d.

Definition classList_contains (d : dom) (el : nat) (c : string) : bool :=
  match d !! el with
  | Some n => bool_decide (c ∈ classList n)
  | None => false
  end.

Definition classList_add (el : nat) (c : string) (d : dom) : dom :=
  alter (add_class c) el d.

Definition classList_remove (el : nat) (c : string) (d : dom) : dom :=
  alter (remove_class c) el d.

(** [el.classList.toggle(c, force)] *)
Definition classList_toggle (el : nat) (c : string) (force : bool) (d : dom) : dom :=
  if force then classList_add el c d else classList_remove el c d.

(** The first element, in tree order, that satisfies [P]. *)
Fixpoint first_index (P : node -> bool) (d : dom) : option nat :=
  match d with
  | [] => None
  | n :: d' => if P n then Some 0 else S <$> first_index P d'
  end.

(** All the elements that satisfy [P], in tree order. *)
Definition all_indices (P : nat -> node -> bool) (d : dom) : list nat :=
  List.filter
    (fun i => match d !! i with Some n => P i n | None => false end)
    (seq 0 (length d)).

Definition has_id (id : string) (n : node) : bool :=
  bool_decide (attributes n !! "id" = Some id).

(** [document.getElementById(id)]: an element has an id only when its [id]
    attribute is not empty. *)
Definition getElementById (d : dom) (id : string) : option nat :=
  if JSString.is_empty id then None else first_index (has_id id) d.

(** The argument of [getElementById] converted to a string: [null]
    becomes ["null"]. *)
Definition string_of_nullable (o : option string) : string :=
  match o with Some s => s | None => "null" end.

Definition has_class (c : string) (n : node) : bool :=
  bool_decide (c ∈ classList n).

Definition has_attr_value (name v : string) (n : node) : bool :=
  bool_decide (attributes n !! name = Some v).

(** [el] is a proper descendant of [anc]; the walk up the tree takes at
    most [fuel] steps. *)
Fixpoint descends (fuel : nat) (d : dom) (anc el : nat) : bool :=
  match fuel with
  | O => false
  | S fuel' =>
      match d !! el ≫= parent with
      | Some p => (p =? anc)%nat || descends fuel' d anc p
      | None => false
      end
  end.

Definition is_descendant (d : dom) (anc el : nat) : bool :=
  descends (length d) d anc el.

(** *** Accordion *)

(** [String(b)] *)
Definition String_of_bool (b : bool) : string :=
  if b then "true" else "false".

Definition toggleAccordionPanel (trigger : nat) (d : dom) : dom :=
  match getAttribute d trigger "aria-controls" with
  | None => d
  | Some panelId =>
      if JSString.is_empty panelId then d
      else
        match getElementById d panelId with
        | None => d
        | Some panel =>
            let isExpanded :=
              bool_decide (getAttribute d trigger "aria-expanded" = Some "true") in
            let d := setAttribute trigger "aria-expanded"
                                  (String_of_bool (negb isExpanded)) d in
            if isExpanded then setAttribute panel "hidden" "" d
            else removeAttribute panel "hidden" d
        end
  end.

(** [AUDIN.initAccordions(document)]: the triggers that receive the click
    and keydown listeners.  Nothing is written to the document. *)
Definition initAccordions (d : dom) : list nat :=
  all_indices (fun _ n => has_class "audin-accordion__trigger" n) d.

(** What the user does to a trigger.  A keydown of Enter or Space calls
    [toggleAccordionPanel] as a click does; the arrow, Home and End keys
    only move the focus, and any other key is ignored. *)
Inductive accordion_event :=
| Click (trigger : nat)
| Keydown (key : string) (trigger : nat).

(** The listeners attached to [triggers] handle one event. *)
Definition accordion_handle (triggers : list nat) (ev : accordion_event)
           (d : dom) : dom :=
  match ev with
  | Click t =>
      if bool_decide (t ∈ triggers) then toggleAccordionPanel t d else d
  | Keydown key t =>
      if bool_decide (t ∈ triggers)
         && (String.eqb key "Enter" || String.eqb key " ")
      then toggleAccordionPanel t d else d
  end.

(** The two states the accordion keeps: the trigger says it is expanded,
    and the panel is hidden. *)
Definition expanded (d : dom) (trigger : nat) : bool :=
  bool_decide (getAttribute d trigger "aria-expanded" = Some "true").

Definition is_hidden (d : dom) (el : nat) : bool :=
  hasAttribute d el "hidden".

(** The panel that the [aria-controls] of [trigger] references, when it
    exists. *)
Definition panel_of (d : dom) (trigger : nat) : option nat :=
  getAttribute d trigger "aria-controls" ≫= getElementById d.

(** The trigger and its panel are in step: [aria-expanded] is ["true"]
    exactly when the panel is not hidden. *)
Definition in_step (d : dom) (trigger : nat) : Prop :=
  match panel_of d trigger with
  | Some p => expanded d trigger = negb (is_hidden d p)
  | None => True
  end.

(** No two of the [triggers] control the same panel. *)
Definition own_panels (triggers : list nat) (d : dom) : Prop :=
  forall t1 t2 p, t1 ∈ triggers -> t2 ∈ triggers ->
                  panel_of d t1 = Some p -> panel_of d t2 = Some p -> t1 = t2.

(** The document after the listeners have handled [events], first to
    last. *)
Definition accordion_run (triggers : list nat) (events : list accordion_event)
           (d : dom) : dom :=
  foldl (fun d ev => accordion_handle triggers ev d) d events.

(** *** Report filter *)

(** What [AUDIN.initFiltros] keeps in the closure of [filtrar]. *)
Record filtros := {
  periodoSelect : option nat;
  tipoSelect : option nat;
  buscaInput : option nat;
  vazioMsg : option nat;
  items : list nat
}.


(** [control ? control.value : ''] *)
Definition value_of (d : dom) (control : option nat) : string :=
  match control ≫= (d !!.) with
  | Some n => value n
  | None => ""
  end.

(** [!x || item.dataset.name === x] *)
Definition match_select (d : dom) (item : nat) (name x : string) : bool :=
  JSString.is_empty x || bool_decide (getAttribute d item name = Some x).

(** [!busca || (item.dataset.busca || '').toLowerCase().indexOf(busca) !== -1] *)
Definition match_busca (d : dom) (item : nat) (busca : string) : bool :=
  JSString.is_empty busca
  || negb (JSString.indexOf
             (JSString.toLowerCase (default "" (getAttribute d item "data-busca")))
             busca =? -1)%Z.

(** The test that [filtrar] makes on an item,
    [matchPeriodo && matchTipo && matchBusca]. *)
Definition item_matches (d : dom) (periodo tipo busca : string) (item : nat) : bool :=
  match_select d item "data-periodo" periodo
  && match_select d item "data-tipo" tipo
  && match_busca d item busca.

(** The loop of [filtrar] over the items, with the running count
    [visiveis]. *)
Fixpoint filtrar_items (periodo tipo busca : string) (l : list nat)
         (visiveis : nat) (d : dom) : nat * dom :=
  match l with
  | [] => (visiveis, d)
  | item :: l' =>
      let matchPeriodo := match_select d item "data-periodo" periodo in
      let matchTipo := match_select d item "data-tipo" tipo in
      let matchBusca := match_busca d item busca in
      if matchPeriodo && matchTipo && matchBusca
      then filtrar_items periodo tipo busca l' (S visiveis)
                         (classList_remove item "audin-hidden" d)
      else filtrar_items periodo tipo busca l' visiveis
                         (classList_add item "audin-hidden" d)
  end.

Definition filtrar (f : filtros) (d : dom) : dom :=
  let periodo := value_of d (periodoSelect f) in
  let tipo := value_of d (tipoSelect f) in
  let busca := JSString.trim (JSString.toLowerCase (value_of d (buscaInput f))) in
  let '(visiveis, d) := filtrar_items periodo tipo busca (items f) 0 d in
  match vazioMsg f with
  | Some msg =>
      if (visiveis =? 0)%nat then classList_remove msg "audin-hidden" d
      else classList_add msg "audin-hidden" d
  | None => d
  end.

(** An element is shown when it lacks the class [audin-hidden]. *)
Definition visible (d : dom) (el : nat) : bool :=
  negb (classList_contains d el "audin-hidden").



(** *** Tabs *)

(** What [AUDIN.initTabs] keeps in the closure of its handlers: the tabs of
    the tab list and, for each tab, the panel found for its
    [aria-controls] ([None] is [null]). *)
Record tab_group := {
  tabs : list nat;
  panels : list (option nat)
}.

(** [AUDIN.initTabs(document)]; [None] when there is no tab list. *)
Definition initTabs (d : dom) : option tab_group :=
  match first_index (has_attr_value "role" "tablist") d with
  | None => None
  | Some tablist =>
      let tabs := all_indices
                    (fun i n => has_attr_value "role" "tab" n
                                && is_descendant d tablist i) d in
      Some {| tabs := tabs;
              panels := map (fun tab =>
                               getElementById d
                                 (string_of_nullable
                                    (getAttribute d tab "aria-controls")))
                            tabs |}
  end.

(** [tabs.forEach(function (t, i) {...})] of [activateTab], from
    position [i]. *)
Fixpoint activate_tabs (index : nat) (l : list nat) (i : nat) (d : dom) : dom :=
  match l with
  | [] => d
  | t :: l' =>
      let sel := (i =? index)%nat in
      let d := setAttribute t "aria-selected" (String_of_bool sel) d in
      let d := classList_toggle t "audin-dash__tab--active" sel d in
      let d := setAttribute t "tabindex" (if sel then "0" else "-1") d in
      activate_tabs index l' (S i) d
  end.

(** [panels.forEach(function (p, i) {...})] of [activateTab], from
    position [i]. *)
Fixpoint activate_panels (index : nat) (l : list (option nat)) (i : nat)
         (d : dom) : dom :=
  match l with
  | [] => d
  | p :: l' =>
      let d := match p with
               | Some p => set_hidden p (negb (i =? index)%nat) d
               | None => d
               end in
      activate_panels index l' (S i) d
  end.

(** [activateTab(index)].  The resize event it schedules with [setTimeout]
    does not touch the document. *)
Definition activateTab (g : tab_group) (index : nat) (d : dom) : dom :=
  activate_panels index (panels g) 0 (activate_tabs index (tabs g) 0 d).

(** The keydown listener of the tab at position [index]: the document
    afterwards and the element that received the focus, if any. *)
Definition tab_keydown (g : tab_group) (index : nat) (key : string)
           (d : dom) : dom * option nat :=
  let n := Z.of_nat (length (tabs g)) in
  let index := Z.of_nat index in
  let target :=
    if String.eqb key "ArrowRight" then Some ((index + 1) mod n)%Z
    else if String.eqb key "ArrowLeft" then Some ((index - 1 + n) mod n)%Z
    else if String.eqb key "Home" then Some 0%Z
    else if String.eqb key "End" then Some (n - 1)%Z
    else None in
  match target with
  | Some targetIndex =>
      (activateTab g (Z.to_nat targetIndex) d, tabs g !! Z.to_nat targetIndex)
  | None => (d, None)
  end.

(** The click listener of the tab at position [index]. *)
Definition tab_click (g : tab_group) (index : nat) (d : dom) : dom :=
  activateTab g index d.

(** *** Sample documents *)

Definition element (parent : option nat) (attrs : list (string * string))
           (classes : list string) (value : string) : node :=
  {| parent := parent; attributes := list_to_map attrs;
     classList := list_to_set classes; value := value |}.

(** One accordion item, written with the trigger saying ["true"] and the
    panel hidden. *)
Definition accordion_page : dom :=
  [ element None
      [("aria-controls", "painel-1"); ("aria-expanded", "true")]
      ["audin-accordion__trigger"] "";
    element None [("id", "painel-1"); ("hidden", "")]
      ["audin-accordion__panel"] "" ].

(** One accordion item, collapsed. *)
Definition accordion_closed : dom :=
  [ element None
      [("aria-controls", "painel-1"); ("aria-expanded", "false")]
      ["audin-accordion__trigger"] "";
    element None [("id", "painel-1"); ("hidden", "")]
      ["audin-accordion__panel"] "" ].

(** A tab list of two tabs, each with its own panel. *)
Definition tabs_page : dom :=
  [ element None [("role", "tablist")] [] "";
    element (Some 0) [("role", "tab"); ("aria-controls", "painel-a")] [] "";
    element (Some 0) [("role", "tab"); ("aria-controls", "painel-b")] [] "";
    element None [("id", "painel-a")] [] "";
    element None [("id", "painel-b"); ("hidden", "")] [] "" ].

(** A tab list of two tabs that name the same panel. *)
Definition tabs_shared_panel : dom :=
  [ element None [("role", "tablist")] [] "";
    element (Some 0) [("role", "tab"); ("aria-controls", "painel")] [] "";
    element (Some 0) [("role", "tab"); ("aria-controls", "painel")] [] "";
    element None [("id", "painel")] [] "" ].

(** A report list of two items, the empty-list message and the search
    box, in which the user has typed [search]. *)
Definition filter_page (search : string) : dom :=
  [ element None [] ["audin-relatorios-lista"] "";
    element (Some 0)
      [("data-periodo", "2024"); ("data-tipo", "gestao");
       ("data-busca", "Relatorio de Gestao")]
      ["audin-relatorio-item"] "";
    element (Some 0)
      [("data-periodo", "2023"); ("data-tipo", "auditoria");
       ("data-busca", "Auditoria de Contratos")]
      ["audin-relatorio-item"] "";
    element (Some 0) [] ["audin-relatorios-lista__vazio"; "audin-hidden"] "";
    element None [("id", "busca-relatorio")] [] search ].

(** What [initTabs] and [initFiltros] keep for these documents. *)
Definition tabs_page_group : tab_group :=
  {| tabs := [1; 2]; panels := [Some 3; Some 4] |}.

Definition tabs_shared_group : tab_group :=
  {| tabs := [1; 2]; panels := [Some 3; Some 3] |}.

Definition filter_page_closure : filtros :=
  {| periodoSelect := None; tipoSelect := None; buscaInput := Some 4;
     vazioMsg := Some 3; items := [1; 2] |}.

End AudinCore.

(* ================================================================== *)
(** ** What a computation on the page keeps and how it ends *)
(* ================================================================== *)

Module PageLogic.
Import DataLoader.

(** [preserves proj c]: the computation [c] leaves the part [proj] of the
    page as it is, however it completes. *)
Definition preserves {A X} (proj : world -> X) (c : M A) : Prop :=
  forall w, proj (snd (c w)) = proj w.

(** [returns c]: the computation [c] never throws. *)
Definition returns {A} (c : M A) : Prop :=
  forall w, exists a, fst (c w) = Normal a.


(** What of the page is not its elements: the cache, the console and the
    requests made. *)
Definition session (w : world) : option stats * list (string * string) * list string :=
  (statsData w, console w, requests w).

(** The identifiers of the rows of a top-N list. *)
Definition row_id (prefix : string) (row : nat) (suffix : string) : string :=
  prefix +:+ pretty row +:+ suffix.

(** The dashboard on a first visit: the gauge, its number and one bar of
    the status bar with its legend. *)
Definition dashboard_page : world :=
  page None
       [("gauge-arc", text ""); ("efetividade-valor", text "--");
        ("bar-pendentes", text ""); ("legend-pendentes", text "--")]
       (online sample_stats).

(** The report page on a first visit: the first row, and a sixth one. *)
Definition report_rows_page : world :=
  page None
       [("report-top-1-nome", text ""); ("report-top-1-total", text "");
        ("report-top-6-nome", text "--")]
       (online sample_stats).


End PageLogic.

(* ================================================================== *)
(** ** Accordion: keyboard handling *)
(* ================================================================== *)

Module AccordionKeys.
Import AudinCore.

(** [el.closest(selector)]: the nearest of [el] and its ancestors that
    satisfies [P]; the walk up the tree takes at most [fuel] steps. *)
Fixpoint closest_from (fuel : nat) (P : node -> bool) (d : dom) (el : nat)
  : option nat :=
  match fuel with
  | O => None
  | S fuel' =>
      match d !! el with
      | None => None
      | Some n =>
          if P n then Some el
          else match parent n with
               | Some p => closest_from fuel' P d p
               | None => None
               end
      end
  end.

Definition closest (P : node -> bool) (d : dom) (el : nat) : option nat :=
  closest_from (S (length d)) P d el.

Definition has_attr (name : string) (n : node) : bool :=
  bool_decide (is_Some (attributes n !! name)).

(** [trigger.closest('[data-audin-accordion-group]') || 'default']; [None]
    is the key ['default']. *)
Definition group_key (d : dom) (trigger : nat) : option nat :=
  closest (has_attr "data-audin-accordion-group") d trigger.

(** The [Map] of groups, in insertion order. *)
Abbreviation groups := (list (option nat * list nat)).

(** [if (!groups.has(key)) groups.set(key, []); groups.get(key).push(trigger)] *)
Fixpoint group_push (key : option nat) (trigger : nat) (g : groups) : groups :=
  match g with
  | [] => [(key, [trigger])]
  | (k, l) :: g' =>
      if decide (k = key) then (k, (l ++ [trigger])%list) :: g'
      else (k, l) :: group_push key trigger g'
  end.

(** The groups that [AUDIN.initAccordions] has collected once its loop over
    the triggers is over. *)
Definition accordionGroups (d : dom) : groups :=
  foldl (fun g trigger => group_push (group_key d trigger) trigger g)
        [] (initAccordions d).

(** [l.indexOf(x)]: the first position of [x] in [l], from position [i],
    or [-1]. *)
Fixpoint indexOf_from {A} `{EqDecision A} (l : list A) (x : A) (i : Z) : Z :=
  match l with
  | [] => (-1)%Z
  | y :: l' => if decide (y = x) then i else indexOf_from l' x (i + 1)
  end.

Definition indexOf {A} `{EqDecision A} (l : list A) (x : A) : Z :=
  indexOf_from l x 0.

(** [for (const [, group] of groups) if (group.indexOf(trigger) !== -1) ...]:
    the first group that has the trigger. *)
Fixpoint find_siblings (g : groups) (trigger : nat) : option (list nat) :=
  match g with
  | [] => None
  | (_, group) :: g' =>
      if negb (indexOf group trigger =? -1)%Z then Some group
      else find_siblings g' trigger
  end.

(** What a keydown leaves behind: the document, the element that received
    the focus, if any, and whether [event.preventDefault()] was called. *)
Record keydown_result := {
  document : dom;
  focused : option nat;
  defaultPrevented : bool
}.

Definition is_navigation_key (key : string) : bool :=
  negb (indexOf ["ArrowDown"; "ArrowUp"; "Home"; "End"] key =? -1)%Z.

Definition handleAccordionKeydown (key : string) (trigger : nat) (g : groups)
           (d : dom) : keydown_result :=
  if String.eqb key "Enter" || String.eqb key " " then
    {| document := toggleAccordionPanel trigger d; focused := None;
       defaultPrevented := true |}
  else if negb (is_navigation_key key) then
    {| document := d; focused := None; defaultPrevented := false |}
  else
    match find_siblings g trigger with
    | None => {| document := d; focused := None; defaultPrevented := true |}
    | Some siblings =>
        if (length siblings <=? 1)%nat then
          {| document := d; focused := None; defaultPrevented := true |}
        else
          let currentIndex := indexOf siblings trigger in
          let n := Z.of_nat (length siblings) in
          let targetIndex :=
            if String.eqb key "ArrowDown" then Z.rem (currentIndex + 1) n
            else if String.eqb key "ArrowUp" then Z.rem (currentIndex - 1 + n) n
            else if String.eqb key "Home" then 0%Z
            else (n - 1)%Z in
          {| document := d; focused := siblings !! Z.to_nat targetIndex;
             defaultPrevented := true |}
    end.

(** The keydown listener that [AUDIN.initAccordions] attaches to each
    trigger of the document [d0] it was called on. *)
Definition accordion_keydown (d0 : dom) (key : string) (trigger : nat) (d : dom)
  : keydown_result :=
  handleAccordionKeydown key trigger (accordionGroups d0) d.

(** The triggers that share their group container with [trigger], in
    document order. *)
Definition group_of (d : dom) (trigger : nat) : list nat :=
  filter (fun t => group_key d t = group_key d trigger) (initAccordions d).

(** An accordion of three items inside a group container, and one more
    trigger outside of it. *)
Definition accordion_group_page : dom :=
  [ element None [("data-audin-accordion-group", "")] [] "";
    element (Some 0) [("aria-controls", "p1"); ("aria-expanded", "false")]
      ["audin-accordion__trigger"] "";
    element (Some 0) [("id", "p1"); ("hidden", "")] [] "";
    element (Some 0) [("aria-controls", "p2"); ("aria-expanded", "false")]
      ["audin-accordion__trigger"] "";
    element (Some 0) [("id", "p2"); ("hidden", "")] [] "";
    element (Some 0) [("aria-controls", "p3"); ("aria-expanded", "false")]
      ["audin-accordion__trigger"] "";
    element (Some 0) [("id", "p3"); ("hidden", "")] [] "";
    element None [("aria-controls", "p4"); ("aria-expanded", "false")]
      ["audin-accordion__trigger"] "";
    element None [("id", "p4"); ("hidden", "")] [] "" ].

End AccordionKeys.

(* ================================================================== *)
(** ** [String.prototype.replace] with a string pattern *)
(* ================================================================== *)

Module JSReplace.

Fixpoint drop (n : nat) (s : string) : string :=
  match n, s with
  | S n', String _ s' => drop n' s'
  | _, _ => s
  end.

(** [s.replace(pat, rep)]: the first occurrence of [pat] in [s] is replaced
    by [rep] (which has no [$] in the scripts). *)
Fixpoint replace (s pat rep : string) : string :=
  if String.prefix pat s then rep +:+ drop (String.length pat) s
  else match s with
       | EmptyString => EmptyString
       | String c s' => String c (replace s' pat rep)
       end.

End JSReplace.

(* ================================================================== *)
(** ** Scroll spy of the report index *)
(* ================================================================== *)

Module ScrollSpy.
Import AudinCore.

Definition activeClass : string := "audin-relatorio__nav-link--active".

(** An entry of [sections]: the section element and its link. *)
Record section := { el : nat; link : nat }.

(** The body of [navLinks.forEach] in [AUDIN.initScrollSpy]: the entry
    that a link adds to [sections], if any. *)
Definition section_of (d : dom) (link : nat) : option section :=
  match getAttribute d link "href" with
  | None => None
  | Some href =>
      if JSString.is_empty href || (JSString.indexOf href "#" =? -1)%Z then None
      else match getElementById d (JSReplace.replace href "#" "") with
           | Some section => Some {| el := section; link := link |}
           | None => None
           end
  end.

(** [sections] once the loop over [navLinks] is over; [navLinks] is the
    node list of [.audin-relatorio__nav-list a]. *)
Definition collect_sections (d : dom) (navLinks : list nat) : list section :=
  omap (section_of d) navLinks.

(** The [for] loop of [onScroll]; [offsetTop] is the layout. *)
Fixpoint current_section (offsetTop : nat -> Z) (scrollPos : Q)
         (l : list section) (current : section) : section :=
  match l with
  | [] => current
  | s :: l' =>
      current_section offsetTop scrollPos l'
        (if Qle_bool (inject_Z (offsetTop (el s))) scrollPos then s else current)
  end.

(** [onScroll()], with [window.scrollY] and the layout of the moment.  The
    listener exists only when [sections] is not empty. *)
Definition onScroll (navLinks : list nat) (sections : list section)
           (offsetTop : nat -> Z) (scrollY : Q) (d : dom) : dom :=
  match sections with
  | [] => d
  | first :: _ =>
      let scrollPos := (scrollY + 100)%Q in
      let current := current_section offsetTop scrollPos sections first in
      let d := foldl (fun d link => classList_remove link activeClass d) d navLinks in
      classList_add (link current) activeClass d
  end.

(** [AUDIN.initScrollSpy]: the sections kept in the closure of the scroll
    listener ([None] when the function returns early) and the document
    after the first [onScroll()]. *)
Definition initScrollSpy (navLinks : list nat) (offsetTop : nat -> Z)
           (scrollY : Q) (d : dom) : option (list section) * dom :=
  match collect_sections d navLinks with
  | [] => (None, d)
  | sections => (Some sections, onScroll navLinks sections offsetTop scrollY d)
  end.

(** A report with three sections and their links; the third link names a
    section that does not exist. *)
Definition report_page : dom :=
  [ element None [] ["audin-relatorio__nav-list"] "";
    element (Some 0) [("href", "#resumo")] [] "";
    element (Some 0) [("href", "#achados")] [] "";
    element (Some 0) [("href", "#anexos")] [] "";
    element None [("id", "resumo")] [] "";
    element None [("id", "achados")] [] "" ].

Definition report_layout (el : nat) : Z :=
  match el with
  | 4%nat => 0
  | 5%nat => 900
  | _ => 0
  end.

End ScrollSpy.

(* ================================================================== *)
(** ** Site menu: active item and persistent toggle *)
(* ================================================================== *)

Module Menu.

(** [isActive] for a menu link: [href] is [link.getAttribute("href")]
    ([None] is [null]). *)
Definition isActive (href : option string) (currentPath : string) : bool :=
  match href with
  | None => false
  | Some href =>
      if String.eqb href "/" || String.eqb href "/index.html" then
        String.eqb currentPath "/" || String.eqb currentPath "/index.html"
        || String.eqb currentPath ""
      else if negb (JSString.is_empty href) && negb (String.prefix "http" href) then
        String.prefix
          (JSReplace.replace (JSReplace.replace href "/index.html" "") "index.html" "")
          currentPath
      else false
  end.

(** The page shell: the classes of [.navigation] and of [.main], and the
    [menuClosed] item of [localStorage] ([None] when absent). *)
Record shell := {
  navigation : gset string;
  main : gset string;
  menuClosed : option string
}.

Definition isMobile (innerWidth : Z) : bool := (innerWidth <=? 480)%Z.

(** [classList.toggle(c)] *)
Definition toggle_class (c : string) (l : gset string) : gset string :=
  if bool_decide (c ∈ l) then l ∖ {[c]} else {[c]} ∪ l.

(** The state restored when the script is loaded. *)
Definition restore (innerWidth : Z) (s : shell) : shell :=
  if isMobile innerWidth then
    {| navigation := navigation s ∖ {["active"]};
       main := main s ∖ {["active"]};
       menuClosed := menuClosed s |}
  else if bool_decide (menuClosed s = Some "true") then
    {| navigation := {["active"]} ∪ navigation s;
       main := {["active"]} ∪ main s;
       menuClosed := menuClosed s |}
  else s.

(** [toggle.onclick] *)
Definition onclick (innerWidth : Z) (s : shell) : shell :=
  let navigation' := toggle_class "active" (navigation s) in
  let main' := toggle_class "active" (main s) in
  {| navigation := navigation';
     main := main';
     menuClosed :=
       if negb (isMobile innerWidth)
       then Some (AudinCore.String_of_bool (bool_decide ("active" ∈ navigation')))
       else menuClosed s |}.

End Menu.

(* ================================================================== *)
(** ** Sunburst chart: totals and the unit filter *)
(* ================================================================== *)

Module Sunburst.

Local Set Warnings "-register-all".

(** A node of [status_all.json]: [value] and [children] may be absent. *)
Inductive item :=
  Item (name : string) (value : option Q) (children : option (list item)).

Definition name (i : item) : string := match i with Item n _ _ => n end.
Definition value (i : item) : option Q := match i with Item _ v _ => v end.
Definition children (i : item) : option (list item) :=
  match i with Item _ _ c => c end.



(** [originalData.map(year => ({...year, children: year.children.filter(...)}))];
    [None] is the [TypeError] of a year without [children]. *)
Definition filter_year (unit : string) (year : item) : option item :=
  match children year with
  | None => None
  | Some cs =>
      Some (Item (name year) (value year)
                 (Some (filter (fun unitNode => name unitNode = unit) cs)))
  end.

Definition has_children (year : item) : bool :=
  match children year with
  | Some cs => (0 <? length cs)%nat
  | None => false
  end.

(** [filterDataByUnit(unit)] *)
Definition filterDataByUnit (originalData : list item) (unit : string)
  : option (list item) :=
  if String.eqb unit "all" then Some originalData
  else years ← mapM (filter_year unit) originalData;
       Some (List.filter has_children years).

(** [units.add(name)] on a [Set], in insertion order. *)
Definition set_add (x : string) (s : list string) : list string :=
  if bool_decide (x ∈ s) then s else (s ++ [x])%list.

(** The units offered by the filter; [None] is the [TypeError] of a year
    without [children]. *)
Definition units (data : list item) : option (list string) :=
  foldl (fun acc year =>
           s ← acc;
           cs ← children year;
           Some (foldl (fun s unit => set_add (name unit) s) s cs))
        (Some []) data.

Definition status_sample : list item :=
  [ Item "2023" None
      (Some [ Item "PROPESP" None
                (Some [Item "Atendida" (Some 3%Q) None;
                       Item "Pendente" (Some 1%Q) None]);
              Item "PROGESP" None (Some [Item "Atendida" (Some 2%Q) None]) ]);
    Item "2024" None
      (Some [ Item "PROPESP" None (Some [Item "Pendente" (Some 4%Q) None]) ]) ].

End Sunburst.

(* ================================================================== *)
(** ** [AUDIN.debounce] *)
(* ================================================================== *)

Module Debounce.

(** The closure of a debounced function: [wait], and the timeout that is
    pending, with the time at which it is due and the arguments it will
    pass to [fn].  Times are in milliseconds. *)
Record debounced (A : Type) := {
  wait : Z;
  timer : option (Z * A)
}.
Arguments wait {A} _.
Arguments timer {A} _.

(** [AUDIN.debounce(fn, delay)]: [delay || 300]; [None] is [undefined]. *)
Definition debounce {A} (delay : option Z) : debounced A :=
  {| wait := match delay with
             | Some d => if (d =? 0)%Z then 300%Z else d
             | None => 300%Z
             end;
     timer := None |}.

(** A call of the debounced function at the time [now]: the pending
    timeout is cleared and a new one is set, due [wait] milliseconds later
    (a negative timeout counts as 0). *)
Definition call {A} (now : Z) (args : A) (st : debounced A) : debounced A :=
  {| wait := wait st; timer := Some ((now + Z.max 0 (wait st))%Z, args) |}.

(** The event loop reaches the time [now]: a pending timeout that is due
    runs [fn] with its arguments, which are returned. *)
Definition elapse {A} (now : Z) (st : debounced A) : list A * debounced A :=
  match timer st with
  | Some (due, args) =>
      if (due <=? now)%Z then ([args], {| wait := wait st; timer := None |})
      else ([], st)
  | None => ([], st)
  end.

(** The calls of [fn] during a session: the debounced function is called
    at the given times, with the given arguments, and the session is
    observed until [horizon].  A timeout due at the very time of a call
    runs before it. *)
Fixpoint session {A} (calls : list (Z * A)) (horizon : Z) (st : debounced A)
  : list A :=
  match calls with
  | [] => fst (elapse horizon st)
  | (now, args) :: rest =>
      (fst (elapse now st)
       ++ session rest horizon (call now args (snd (elapse now st))))%list
  end.

End Debounce.

(* ================================================================== *)
(** ** Animated counters *)
(* ================================================================== *)

From Stdlib Require Import Qround.
From Stdlib Require Lqa.

Module Counters.

Definition is_digit (c : ascii) : bool :=
  let n := nat_of_ascii c in ((48 <=? n) && (n <=? 57))%nat.

(** The value of the leading decimal digits of [s], after [acc]. *)
Fixpoint digits_value (s : string) (acc : Z) : Z :=
  match s with
  | String c s' =>
      if is_digit c
      then digits_value s' (10 * acc + Z.of_nat (nat_of_ascii c - 48))%Z
      else acc
  | EmptyString => acc
  end.

(** [parseInt(s, 10)]; [None] is [NaN]. *)
Definition parseInt (s : string) : option Z :=
  let s := JSString.trimStart s in
  let '(negative, s) :=
    match s with
    | String "-" s' => (true, s')
    | String "+" s' => (false, s')
    | _ => (false, s)
    end in
  match s with
  | String c _ =>
      if is_digit c
      then Some (if negative then (- digits_value s 0)%Z else digits_value s 0)
      else None
  | EmptyString => None
  end.

(** A whole number, or [NaN], as a string. *)
Definition number_text (n : option Z) : string :=
  match n with
  | Some n => (if (n <? 0)%Z then "-" else "") +:+ JSNumber.decimal (Z.abs n)
  | None => "NaN"
  end.

(** The state of one [animateCounter]: [startTime] ([None] is [null]), the
    text of the element, and whether a frame is requested.  Timestamps and
    the eased value are exact rationals (no floating-point rounding), and a
    whole number prints in plain decimal. *)
Record counter := {
  startTime : option Q;
  textContent : string;
  frame_requested : bool
}.

Definition duration : Q := 1500.

(** [startTime] after [if (!startTime) startTime = timestamp]. *)
Definition started (timestamp : Q) (startTime : option Q) : Q :=
  match startTime with
  | Some s => if Qeq_bool s 0 then timestamp else s
  | None => timestamp
  end.

(** [Math.min((timestamp - startTime) / duration, 1)] *)
Definition progress (start timestamp : Q) : Q :=
  let raw := ((timestamp - start) / duration)%Q in
  if Qle_bool raw 1 then raw else 1%Q.

(** [1 - Math.pow(1 - progress, 3)] *)
Definition eased (progress : Q) : Q :=
  (1 - (1 - progress) * (1 - progress) * (1 - progress))%Q.

(** [Math.floor(eased * target)] *)
Definition current (target : Z) (start timestamp : Q) : Z :=
  Qfloor (eased (progress start timestamp) * inject_Z target).

(** [step(timestamp)] *)
Definition step (target : option Z) (suffix : string) (timestamp : Q)
           (st : counter) : counter :=
  let start := started timestamp (startTime st) in
  if negb (Qle_bool 1 (progress start timestamp)) then
    {| startTime := Some start;
       textContent :=
         number_text (option_map (fun t => current t start timestamp) target)
         +:+ suffix;
       frame_requested := true |}
  else
    {| startTime := Some start;
       textContent := number_text target +:+ suffix;
       frame_requested := false |}.

(** The frames that the browser delivers, at the given timestamps, as long
    as one is requested. *)
Fixpoint run_frames (target : option Z) (suffix : string) (timestamps : list Q)
         (st : counter) : counter :=
  match timestamps with
  | [] => st
  | timestamp :: rest =>
      if frame_requested st
      then run_frames target suffix rest (step target suffix timestamp st)
      else st
  end.

(** [animateCounter(el)]: [countTo] and [countSuffix] are
    [el.dataset.countTo] and [el.dataset.countSuffix] ([None] is
    [undefined]), [text] is the text of the element. *)
Definition animateCounter (countTo countSuffix : option string) (text : string)
           (timestamps : list Q) : counter :=
  let target := parseInt (default "undefined" countTo) in
  let suffix := default "" countSuffix in
  run_frames target suffix timestamps
    {| startTime := None; textContent := text; frame_requested := true |}.

End Counters.

(* ================================================================== *)
(** ** Properties of the string operations *)
(* ================================================================== *)

Section StringFacts.
Import JSString.

(** Scanning from position [i] finds what scanning from [0] finds,
    [i] places further on. *)
Lemma indexOf_from_shift (s t : string) (i : Z) :
  (0 <= i)%Z ->
  (indexOf_from s t i = -1 /\ indexOf_from s t 0 = -1)%Z
  \/ (0 <= indexOf_from s t 0 /\
      indexOf_from s t i = i + indexOf_from s t 0)%Z.
Proof.
  revert i. induction s as [|c s IH]; intros i Hi; cbn [indexOf_from].
  - destruct (String.prefix t ""); [right|left]; lia.
  - destruct (String.prefix t (String c s)); [right; lia|].
    rewrite Z.add_0_l.
    destruct (IH (i + 1)%Z ltac:(lia)) as [[Ha Hb]|[Ha Hb]];
      destruct (IH 1%Z ltac:(lia)) as [[Hc Hd]|[Hc Hd]]; lia.
Qed.

Lemma prefix_refl (s : string) : String.prefix s s = true.
Proof.
  induction s as [|c s IH]; simpl; [reflexivity|].
  destruct (ascii_dec c c); [exact IH|congruence].
Qed.

Lemma includes_here (s t : string) :
  String.prefix t s = true -> includes s t = true.
Proof.
  unfold includes, indexOf. destruct s; cbn [indexOf_from]; intros ->; reflexivity.
Qed.

Lemma includes_later (c : ascii) (s t : string) :
  includes s t = true -> includes (String c s) t = true.
Proof.
  unfold includes, indexOf. cbn [indexOf_from].
  destruct (String.prefix t (String c s)); [reflexivity|].
  rewrite Z.add_0_l, !negb_true_iff, !Z.eqb_neq.
  destruct (indexOf_from_shift s t 1 ltac:(lia)) as [[Ha Hb]|[Ha Hb]]; lia.
Qed.

(** A string that ends with [t] includes [t]. *)
Lemma endsWith_includes (s t : string) :
  endsWith s t = true -> includes s t = true.
Proof.
  induction s as [|c s IH]; cbn [endsWith].
  - destruct (String.eqb_spec "" t) as [<-|]; [reflexivity|discriminate].
  - destruct (String.eqb_spec (String c s) t) as [<-|_].
    + intros _. apply includes_here, prefix_refl.
    + intros H. apply includes_later. auto.
Qed.
End StringFacts.

(* ================================================================== *)
(** ** Route dispatcher *)
(* ================================================================== *)

Section Dispatcher.
Import DataLoader.

Lemma endsWith_index_includes_slash (path : string) :
  JSString.endsWith path "/index.html" = true ->
  JSString.includes path "/" = true.
Proof.
  induction path as [|c path IH]; cbn [JSString.endsWith].
  - intros H; discriminate H.
  - destruct (String.eqb_spec (String c path) "/index.html") as [->|_].
    + reflexivity.
    + intros H. apply includes_later, IH, H.
Qed.

Lemma root_sub_rule_false (path : string) : root_sub_rule path = false.
Proof.
  unfold root_sub_rule.
  destruct (JSString.endsWith path "/index.html") eqn:He; [|reflexivity].
  rewrite (endsWith_index_includes_slash path He). reflexivity.
Qed.

(** C7.  The root-path sub-rule
    [path.endsWith('/index.html') && !path.includes('/')] is false for
    every path; for every path the dispatcher calls at most one binder, the
    one of the first rule that matches in the fixed order, and a path that
    no rule matches calls none. *)
Theorem initDataLoader_first_match (path : string) :
  root_sub_rule path = false
  /\ length (initDataLoader path) <= 1
  /\ initDataLoader path =
       match first_matching_rule path with
       | Some b => [b]
       | None => []
       end
  /\ (if existsb (fun rule => fst rule path) dispatch_rules
      then length (initDataLoader path) = 1
      else initDataLoader path = []).
Proof.
  split; [apply root_sub_rule_false|].
  assert (initDataLoader path =
          match first_matching_rule path with Some b => [b] | None => [] end)
    as Heq.
  { unfold initDataLoader, first_matching_rule, dispatch_rules.
    cbn [List.find fst snd].
    repeat match goal with
           | |- context [if ?b then _ else _] => destruct b; [reflexivity|]
           end.
    reflexivity. }
  split; [|split; [exact Heq|]].
  - rewrite Heq. destruct (first_matching_rule path); simpl; lia.
  - rewrite Heq. unfold first_matching_rule.
    destruct (existsb _ dispatch_rules) eqn:He.
    + apply existsb_exists in He as (rule & Hin & Hm).
      destruct (List.find _ dispatch_rules) as [r|] eqn:Hf; [reflexivity|].
      pose proof (List.find_none _ _ Hf rule Hin) as Hn.
      simpl in Hn. congruence.
    + destruct (List.find _ dispatch_rules) as [r|] eqn:Hf; [|reflexivity].
      apply List.find_some in Hf as [Hin Hm].
      assert (existsb (fun rule => fst rule path) dispatch_rules = true) as Ht
        by (apply existsb_exists; eauto).
      congruence.
Qed.

Example initDataLoader_root : initDataLoader "/" = [UpdateDashboard].
Proof. reflexivity. Qed.

Example initDataLoader_monitor :
  initDataLoader "/monitor/index.html" = [UpdateMonitoramento].
Proof. reflexivity. Qed.

Example initDataLoader_docs_index : initDataLoader "/docs/index.html" = [].
Proof. reflexivity. Qed.

Example initDataLoader_first_wins :
  initDataLoader "/report/monitor/" = [UpdateMonitoramento].
Proof. reflexivity. Qed.
End Dispatcher.

(* ================================================================== *)
(** ** The stats cache *)
(* ================================================================== *)

Section StatsCache.
Import DataLoader.

(** [loadStats] never throws and writes neither to the document nor to
    the network. *)
Lemma loadStats_frame (w : world) :
  exists r, fst (loadStats w) = Normal r
            /\ document (snd (loadStats w)) = document w
            /\ network (snd (loadStats w)) = network w.
Proof.
  unfold loadStats. destruct (statsData w); [eauto|].
  destruct (network w _); simpl; eauto.
Qed.

(** A call that finds the cache filled answers from it and leaves the
    page as it is. *)
Lemma loadStats_cached (w : world) (doc : stats) :
  statsData w = Some doc -> loadStats w = (Normal (Some doc), w).
Proof. unfold loadStats. intros ->. reflexivity. Qed.

(** A call that returns a document has it in the cache afterwards. *)
Lemma loadStats_Some_cached (w w1 : world) (doc : stats) :
  loadStats w = (Normal (Some doc), w1) -> statsData w1 = Some doc.
Proof.
  unfold loadStats. destruct (statsData w) eqn:Hs.
  - intros [= <- <-]. exact Hs.
  - destruct (network w _); intros [= <- <-]; reflexivity.
Qed.

(** C1.  If a first call of [loadStats] succeeds, leaving the page in
    state [w1] with the parsed document cached in [statsData], then a second
    call returns the same cached document and issues no network request:
    it leaves the page, and with it the list of requests, unchanged. *)
Theorem loadStats_twice (w w1 : world) (doc : stats) :
  loadStats w = (Normal (Some doc), w1) ->
  statsData w1 = Some doc
  /\ loadStats w1 = (Normal (Some doc), w1)
  /\ requests (snd (loadStats w1)) = requests w1.
Proof.
  intros H. apply loadStats_Some_cached in H.
  rewrite (loadStats_cached w1 doc H). auto.
Qed.

Lemma loadStats_twice_witness :
  loadStats first_visit
  = (Normal (Some sample_stats), snd (loadStats first_visit))
  /\ statsData (snd (loadStats first_visit)) = Some sample_stats
  /\ loadStats (snd (loadStats first_visit))
     = (Normal (Some sample_stats), snd (loadStats first_visit))
  /\ requests (snd (loadStats (snd (loadStats first_visit))))
     = requests (snd (loadStats first_visit)).
Proof.
  assert (loadStats first_visit
          = (Normal (Some sample_stats), snd (loadStats first_visit))) as H
    by reflexivity.
  split; [exact H|]. exact (loadStats_twice _ _ _ H).
Defined.

(** On a first visit the two calls make one request between them. *)
Example one_request_for_two_calls :
  requests (snd (loadStats (snd (loadStats first_visit)))) = [stats_url].
Proof. reflexivity. Qed.

(** C9.  A failed call does not fill the cache: when the request of a call
    made with an empty cache fails, the call returns [null] and
    [statsData] is still [null], so the next call issues a fresh request
    (and caches and returns the document if that one succeeds); and whenever
    a call fills an empty cache, its request was fetched and parsed with
    success. *)
Theorem loadStats_failure_not_cached (w : world) :
  statsData w = None ->
  (forall error,
      network w (length (requests w)) = FetchRejects error
      \/ network w (length (requests w)) = JsonRejects error ->
      fst (loadStats w) = Normal None
      /\ statsData (snd (loadStats w)) = None
      /\ requests (snd (loadStats w)) = (requests w ++ [stats_url])%list
      /\ requests (snd (loadStats (snd (loadStats w))))
         = (requests (snd (loadStats w)) ++ [stats_url])%list
      /\ (forall doc,
             network w (length (requests (snd (loadStats w)))) = Parsed doc ->
             fst (loadStats (snd (loadStats w))) = Normal (Some doc)
             /\ statsData (snd (loadStats (snd (loadStats w)))) = Some doc))
  /\ (forall doc,
         statsData (snd (loadStats w)) = Some doc ->
         network w (length (requests w)) = Parsed doc).
Proof.
  intros Hs. split.
  - intros error Hfail.
    assert (loadStats w =
            (Normal None,
             with_console (console w ++ [("Erro ao carregar stats.json:", error)])
               (with_requests (requests w ++ [stats_url]) w))) as Hl.
    { unfold loadStats. rewrite Hs. destruct Hfail as [-> | ->]; reflexivity. }
    rewrite Hl. cbn [fst snd].
    split; [reflexivity|]. split; [exact Hs|]. split; [reflexivity|]. split.
    + unfold loadStats. cbn. rewrite Hs.
      match goal with
      | |- context [match ?x with _ => _ end] => destruct x
      end; reflexivity.
    + intros doc Hd. unfold loadStats. cbn in Hd |- *.
      rewrite Hs, Hd. split; reflexivity.
  - intros doc. unfold loadStats. rewrite Hs.
    destruct (network w _); cbn; congruence.
Qed.

Lemma loadStats_failure_not_cached_witness :
  statsData flaky_visit = None
  /\ fst (loadStats flaky_visit) = Normal None
  /\ statsData (snd (loadStats flaky_visit)) = None
  /\ fst (loadStats (snd (loadStats flaky_visit))) = Normal (Some sample_stats).
Proof.
  destruct (loadStats_failure_not_cached flaky_visit eq_refl) as [H _].
  destruct (H "SyntaxError: Unexpected token '<'" (or_intror eq_refl))
    as (H1 & H2 & _ & _ & H5).
  split; [reflexivity|]. split; [exact H1|]. split; [exact H2|].
  exact (proj1 (H5 sample_stats eq_refl)).
Defined.

(** C4.  When the request for the stats document fails, in [fetch] or in
    the parse, [loadStats] reports the failure with [console.error] and
    returns [null]; and every binder, run in that situation, returns
    normally with the document exactly as it was. *)
Theorem load_failure_no_render (w : world) (error : string) :
  statsData w = None ->
  network w (length (requests w)) = FetchRejects error
  \/ network w (length (requests w)) = JsonRejects error ->
  (fst (loadStats w) = Normal None
   /\ console (snd (loadStats w))
      = (console w ++ [("Erro ao carregar stats.json:", error)])%list)
  /\ forall b : binder,
      fst (run b w) = Normal tt
      /\ document (snd (run b w)) = document w
      /\ console (snd (run b w))
         = (console w ++ [("Erro ao carregar stats.json:", error)])%list.
Proof.
  intros Hs Hfail.
  assert (loadStats w =
          (Normal None,
           with_console (console w ++ [("Erro ao carregar stats.json:", error)])
             (with_requests (requests w ++ [stats_url]) w))) as Hl.
  { unfold loadStats. rewrite Hs. destruct Hfail as [-> | ->]; reflexivity. }
  split.
  - rewrite Hl. split; reflexivity.
  - intros b.
    destruct b; cbn [run];
      unfold updateDashboard, updateMonitoramento, updateBeneficios,
             updateRaioX, updateRelatorios, bind;
      rewrite Hl; repeat split; reflexivity.
Qed.

Lemma load_failure_no_render_witness :
  statsData offline_visit = None
  /\ network offline_visit (length (requests offline_visit))
     = FetchRejects "TypeError: Failed to fetch"
  /\ fst (run UpdateDashboard offline_visit) = Normal tt
  /\ document (snd (run UpdateDashboard offline_visit)) = document offline_visit.
Proof.
  destruct (load_failure_no_render offline_visit "TypeError: Failed to fetch"
              eq_refl (or_introl eq_refl)) as [_ H].
  destruct (H UpdateDashboard) as (H1 & H2 & _).
  split; [reflexivity|]. split; [reflexivity|]. split; assumption.
Defined.
End StatsCache.

(* ================================================================== *)
(** ** The gauge arc and the percent formatter *)
(* ================================================================== *)

Section Gauge.
Import DataLoader.
Local Open Scope R_scope.

Lemma largeArcFlag_iff (p : R) :
  largeArcFlag (calculateGaugeArc p) = 1%Z <-> p > 50.
Proof.
  unfold calculateGaugeArc. cbn [largeArcFlag].
  destruct (Rlt_dec 50 p) as [H|H]; split; intros H'; try lra; try reflexivity.
  discriminate H'.
Qed.

Lemma gauge_start (p : R) :
  startX (calculateGaugeArc p) = 20 /\ startY (calculateGaugeArc p) = 100.
Proof.
  unfold calculateGaugeArc. cbn [startX startY].
  rewrite cos_PI, sin_PI. split; lra.
Qed.

Lemma gauge_end_100 :
  endX (calculateGaugeArc 100) = 180 /\ endY (calculateGaugeArc 100) = 100.
Proof.
  unfold calculateGaugeArc. cbn [endX endY].
  replace (PI - 100 / 100 * PI) with 0 by lra.
  rewrite cos_0, sin_0. split; lra.
Qed.

Lemma gauge_end_0 :
  endX (calculateGaugeArc 0) = 20 /\ endY (calculateGaugeArc 0) = 100.
Proof.
  unfold calculateGaugeArc. cbn [endX endY].
  replace (PI - 0 / 100 * PI) with PI by lra.
  rewrite cos_PI, sin_PI. split; lra.
Qed.

(** The end point of the arc is a continuous function of the percentage:
    it comes as close as wanted to its value at [p0] for percentages close
    enough to [p0]. *)
Lemma gauge_end_continuous (p0 eps : R) :
  eps > 0 ->
  exists delta, delta > 0 /\
    forall p, Rabs (p - p0) < delta ->
      Rabs (endX (calculateGaugeArc p) - endX (calculateGaugeArc p0)) < eps
      /\ Rabs (endY (calculateGaugeArc p) - endY (calculateGaugeArc p0)) < eps.
Proof.
  intros Heps.
  set (a := fun p : R => PI - p / 100 * PI).
  assert (Hlip : forall p, Rabs (a p - a p0) <= Rabs (p - p0) * (PI / 100)).
  { intros p. unfold a.
    replace (PI - p / 100 * PI - (PI - p0 / 100 * PI))
      with (- ((p - p0) * (PI / 100))) by lra.
    rewrite Rabs_Ropp, Rabs_mult.
    rewrite (Rabs_right (PI / 100)); [lra|].
    pose proof PI_RGT_0. lra. }
  destruct (continuity_cos (a p0) (eps / 80)) as (dc & Hdc & Hc);
    [lra|].
  destruct (continuity_sin (a p0) (eps / 80)) as (ds & Hds & Hs);
    [lra|].
  pose proof PI_RGT_0 as Hpi.
  exists (Rmin dc ds * (100 / PI)). split.
  { apply Rmult_lt_0_compat.
    - apply Rmin_pos; lra.
    - apply Rdiv_lt_0_compat; lra. }
  intros p Hp.
  assert (Rabs (a p - a p0) < Rmin dc ds) as Ha.
  { eapply Rle_lt_trans; [apply Hlip|].
    apply (Rmult_lt_compat_r (PI / 100)) in Hp; [|lra].
    replace (Rmin dc ds * (100 / PI) * (PI / 100)) with (Rmin dc ds) in Hp
      by (field; lra).
    exact Hp. }
  assert (Rabs (cos (a p) - cos (a p0)) < eps / 80) as Hcos.
  { destruct (Req_dec (a p) (a p0)) as [->|Hne].
    - rewrite Rminus_diag, Rabs_R0. lra.
    - apply Hc. split; [split; [exact I|auto]|].
      eapply Rlt_le_trans; [exact Ha|apply Rmin_l]. }
  assert (Rabs (sin (a p) - sin (a p0)) < eps / 80) as Hsin.
  { destruct (Req_dec (a p) (a p0)) as [->|Hne].
    - rewrite Rminus_diag, Rabs_R0. lra.
    - apply Hs. split; [split; [exact I|auto]|].
      eapply Rlt_le_trans; [exact Ha|apply Rmin_r]. }
  unfold calculateGaugeArc. cbn [endX endY]. fold (a p) (a p0).
  split.
  - replace (100 + 80 * cos (a p) - (100 + 80 * cos (a p0)))
      with (80 * (cos (a p) - cos (a p0))) by lra.
    rewrite Rabs_mult, (Rabs_right 80); lra.
  - replace (100 - 80 * sin (a p) - (100 - 80 * sin (a p0)))
      with (- (80 * (sin (a p) - sin (a p0)))) by lra.
    rewrite Rabs_Ropp, Rabs_mult, (Rabs_right 80); lra.
Qed.

(** C2.  For every percentage [p] in [[0,100]] the path of
    [calculateGaugeArc p] has large-arc flag 1 exactly when [p > 50]; its end
    point converges to the rightmost point (180, 100) as [p] tends to 100 and
    to the leftmost point (20, 100) as [p] tends to 0. *)
Theorem gauge_flag_and_limits :
  (forall p, 0 <= p <= 100 ->
     (largeArcFlag (calculateGaugeArc p) = 1%Z <-> p > 50))
  /\ (forall eps, eps > 0 ->
        exists delta, delta > 0 /\
          forall p, 0 <= p <= 100 -> Rabs (p - 100) < delta ->
            Rabs (endX (calculateGaugeArc p) - 180) < eps
            /\ Rabs (endY (calculateGaugeArc p) - 100) < eps)
  /\ (forall eps, eps > 0 ->
        exists delta, delta > 0 /\
          forall p, 0 <= p <= 100 -> Rabs (p - 0) < delta ->
            Rabs (endX (calculateGaugeArc p) - 20) < eps
            /\ Rabs (endY (calculateGaugeArc p) - 100) < eps).
Proof.
  split; [intros p _; apply largeArcFlag_iff|].
  split; intros eps Heps.
  - destruct (gauge_end_continuous 100 eps Heps) as (delta & Hd & H).
    exists delta. split; [exact Hd|]. intros p _ Hp.
    destruct gauge_end_100 as [Hx Hy].
    specialize (H p Hp). rewrite Hx, Hy in H. exact H.
  - destruct (gauge_end_continuous 0 eps Heps) as (delta & Hd & H).
    exists delta. split; [exact Hd|]. intros p _ Hp.
    destruct gauge_end_0 as [Hx Hy].
    specialize (H p Hp). rewrite Hx, Hy in H. exact H.
Qed.

Lemma gauge_flag_and_limits_witness :
  0 <= 75 <= 100 /\ largeArcFlag (calculateGaugeArc 75) = 1%Z.
Proof.
  split; [lra|]. apply (proj1 gauge_flag_and_limits 75); lra.
Defined.

(** C8.  [calculateGaugeArc(73.5)] produces a path whose large-arc flag is
    1, and [formatPercent(73.5)] returns ["73,5"]. *)
Theorem example_73_5 :
  largeArcFlag (calculateGaugeArc 73.5) = 1%Z
  /\ formatPercent (Some 73.5%Q) = Normal "73,5"%string.
Proof.
  split.
  - apply largeArcFlag_iff. lra.
  - reflexivity.
Qed.

Example formatPercent_rounds :
  formatPercent (Some 17.52%Q) = Normal "17,5"%string
  /\ formatPercent (Some 12%Q) = Normal "12,0"%string
  /\ formatPercent (Some 0.05%Q) = Normal "0,1"%string
  /\ formatPercent (Some 1234.56%Q) = Normal "1.234,6"%string.
Proof. repeat split; reflexivity. Qed.

Example formatPercent_undefined :
  exists e, formatPercent None = Throw e.
Proof. eexists. reflexivity. Qed.

Example largeArcFlag_half : largeArcFlag (calculateGaugeArc 50) = 0%Z.
Proof.
  unfold calculateGaugeArc. cbn [largeArcFlag].
  destruct (Rlt_dec 50 50) as [H|H]; [lra|reflexivity].
Qed.
End Gauge.

(* ================================================================== *)
(** ** Page binders: what they write *)
(* ================================================================== *)

Section Binders.
Import DataLoader.
Local Open Scope js_scope.

Lemma keeps_ret {A} id (a : A) : keeps id (ret a).
Proof. intros w. reflexivity. Qed.

Lemma keeps_lift {A} id (c : completion A) : keeps id (lift c).
Proof. intros w. reflexivity. Qed.

Lemma keeps_bind {A B} id (c : M A) (k : A -> M B) :
  keeps id c -> (forall a, keeps id (k a)) -> keeps id (bind c k).
Proof.
  intros Hc Hk w. unfold bind. specialize (Hc w).
  destruct (c w) as [[a|e] w1]; cbn [snd] in *.
  - rewrite Hk. exact Hc.
  - exact Hc.
Qed.

Lemma keeps_getElementById id id' : keeps id (getElementById id').
Proof. intros w. reflexivity. Qed.

Lemma keeps_store id id' e : id' <> id -> keeps id (store id' e).
Proof. intros Hne w. cbn. apply lookup_insert_ne, Hne. Qed.

Lemma keeps_updateElement id id' v : id' <> id -> keeps id (updateElement id' v).
Proof.
  intros Hne. unfold updateElement. apply keeps_bind.
  - apply keeps_getElementById.
  - intros [e|]; [apply keeps_store, Hne|apply keeps_ret].
Qed.

Lemma keeps_updateBar id id' perc v : id' <> id -> keeps id (updateBar id' perc v).
Proof.
  intros Hne. unfold updateBar. apply keeps_bind.
  - apply keeps_getElementById.
  - intros [e|]; [apply keeps_store, Hne|apply keeps_ret].
Qed.

Lemma keeps_forEach {A} id (f : A -> nat -> M unit) (l : list A) (i : nat) :
  (forall x j, keeps id (f x j)) -> keeps id (forEach f l i).
Proof.
  intros Hf. revert i. induction l as [|x l IH]; intros i; cbn [forEach].
  - apply keeps_ret.
  - apply keeps_bind; [apply Hf|intros _; apply IH].
Qed.

Lemma keeps_loadStats id : keeps id loadStats.
Proof.
  intros w. destruct (loadStats_frame w) as (r & _ & Hd & _). rewrite Hd.
  reflexivity.
Qed.

Lemma throws_bind_l {A B} (c : M A) (k : A -> M B) :
  throws c -> throws (bind c k).
Proof.
  intros Hc w. unfold bind. destruct (Hc w) as [e He].
  destruct (c w) as [[a|e'] w1]; cbn [fst] in *; [discriminate He|eauto].
Qed.

Lemma throws_bind_r {A B} (c : M A) (k : A -> M B) :
  (forall a, throws (k a)) -> throws (bind c k).
Proof.
  intros Hk w. unfold bind.
  destruct (c w) as [[a|e] w1]; [apply Hk|cbn; eauto].
Qed.

Lemma throws_formatPercent_undefined : throws (lift (formatPercent None)).
Proof. intros w. cbn. eauto. Qed.

(** The frame conditions of the binders are all of one shape: descend
    through the binds and compare the identifiers. *)
Ltac keeps_step :=
  first
    [ apply keeps_ret
    | apply keeps_lift
    | apply keeps_getElementById
    | apply keeps_loadStats
    | apply keeps_updateElement; discriminate
    | apply keeps_updateBar; discriminate
    | apply keeps_store; discriminate
    | apply keeps_forEach; intros
    | apply keeps_bind; [|intros] ].

Ltac keeps_tac := repeat keeps_step.


Lemma keeps_updateStatusBar id (s : stats) :
  id ∉ ["bar-atendidas"; "bar-baixadas"; "bar-implementacao"; "bar-pendentes";
        "legend-atendidas"; "legend-baixadas"; "legend-implementacao";
        "legend-pendentes"] ->
  keeps id (updateStatusBar s).
Proof.
  intros Hid. unfold updateStatusBar.
  repeat first
    [ apply keeps_lift
    | apply keeps_updateElement; intros <-; apply Hid; repeat constructor
    | apply keeps_updateBar; intros <-; apply Hid; repeat constructor
    | apply keeps_bind; [|intros] ].
Qed.

(** [updateElement] on an element that exists: the value goes to
    [textContent] whatever it is. *)
Lemma updateElement_existing id v w e :
  document w !! id = Some e ->
  updateElement id v w
  = (Normal tt, with_document (<[id := set_textContent v e]> (document w)) w).
Proof. intros H. unfold updateElement, bind, getElementById. rewrite H. reflexivity. Qed.

Lemma updateElement_text id v w e :
  document w !! id = Some e ->
  textContent <$> document (snd (updateElement id v w)) !! id
  = Some (DOMString_or_null v).
Proof.
  intros H. rewrite (updateElement_existing id v w e H). cbn.
  rewrite lookup_insert_eq. reflexivity.
Qed.

(** After a write to [id], what follows keeps the text if it keeps [id]. *)
Lemma write_then_keeps {B} id v (k : unit -> M B) w e :
  document w !! id = Some e ->
  keeps id (k tt) ->
  textContent <$> document (snd (bind (updateElement id v) k w)) !! id
  = Some (DOMString_or_null v).
Proof.
  intros H Hk. unfold bind.
  pose proof (updateElement_text id v w e H) as Ht.
  rewrite (updateElement_existing id v w e H) in Ht |- *.
  cbn [snd] in Ht. rewrite Hk. exact Ht.
Qed.

Lemma updateElement_normal id v w : fst (updateElement id v w) = Normal tt.
Proof.
  unfold updateElement, bind, getElementById. cbn.
  destruct (document w !! id); reflexivity.
Qed.

(** An earlier write to another element does not matter to what is then
    written to [id]. *)
Lemma after_updateElement {B} id id' v' (k : unit -> M B) w e t :
  id' <> id ->
  document w !! id = Some e ->
  (forall w', document w' !! id = Some e ->
              textContent <$> document (snd (k tt w')) !! id = Some t) ->
  textContent <$> document (snd (bind (updateElement id' v') k w)) !! id = Some t.
Proof.
  intros Hne He Hk. unfold bind.
  pose proof (updateElement_normal id' v' w) as Hn.
  pose proof (keeps_updateElement id id' v' Hne w) as Hd.
  destruct (updateElement id' v' w) as [[[]|x] w1]; cbn [fst snd] in *;
    [|discriminate Hn].
  apply Hk. rewrite Hd. exact He.
Qed.



(** The iterations of a loop from index [i] on can only be asked about
    indices from [i] on. *)
Lemma keeps_forEach_from {A} id (f : A -> nat -> M unit) (l : list A) (i : nat) :
  (forall x j, i <= j -> keeps id (f x j)) -> keeps id (forEach f l i).
Proof.
  revert i. induction l as [|x l IH]; intros i Hf; cbn [forEach].
  - apply keeps_ret.
  - apply keeps_bind; [apply Hf; lia|intros _; apply IH].
    intros y j Hj. apply Hf. lia.
Qed.






(** A call of [loadStats] that returns a document, from the cache or from
    the network, leaves the elements as they were. *)
Lemma loadStats_returns (w : world) (s : stats) :
  fst (loadStats w) = Normal (Some s) ->
  exists w1, loadStats w = (Normal (Some s), w1) /\ document w1 = document w.
Proof.
  intros H. exists (snd (loadStats w)). split.
  - rewrite <- H. destruct (loadStats w); reflexivity.
  - destruct (loadStats_frame w) as (r & _ & Hd & _). exact Hd.
Qed.


(** The raio-x page with the whole sample document. *)
Example updateRaioX_sample :
  textContent <$> document
    (snd (updateRaioX (page None [("raiox-periodo", text ""); ("raiox-media", text "")]
                            (online sample_stats))))
  = {[ "raiox-periodo" := "2010 - 2024"; "raiox-media" := "83,3" ]}.
Proof. vm_compute. reflexivity. Qed.


End Binders.

(* ================================================================== *)
(** ** The document store *)
(* ================================================================== *)

Section Store.
Import AudinCore.

Lemma getAttribute_alter_ne (f : node -> node) (d : dom) (i j : nat) name :
  i <> j -> getAttribute (alter f i d) j name = getAttribute d j name.
Proof.
  intros H. unfold getAttribute. rewrite list_lookup_alter_ne by exact H.
  reflexivity.
Qed.

(** A change to an element that leaves its attribute [name] alone is not
    seen by [getAttribute]. *)
Lemma getAttribute_alter_same (f : node -> node) (d : dom) (i j : nat) name :
  (forall n, attributes (f n) !! name = attributes n !! name) ->
  getAttribute (alter f i d) j name = getAttribute d j name.
Proof.
  intros Hf. unfold getAttribute.
  destruct (decide (i = j)) as [->|Hne].
  - rewrite list_lookup_alter_eq. destruct (d !! j); cbn; [apply Hf|reflexivity].
  - rewrite list_lookup_alter_ne by exact Hne. reflexivity.
Qed.

Lemma getAttribute_setAttribute_eq (d : dom) (el : nat) name v :
  is_Some (d !! el) ->
  getAttribute (setAttribute el name v d) el name = Some v.
Proof.
  intros [n Hn]. unfold getAttribute, setAttribute.
  rewrite list_lookup_alter_eq, Hn. cbn. apply lookup_insert_eq.
Qed.

Lemma getAttribute_removeAttribute_eq (d : dom) (el : nat) name :
  getAttribute (removeAttribute el name d) el name = None.
Proof.
  unfold getAttribute, removeAttribute. rewrite list_lookup_alter_eq.
  destruct (d !! el); cbn; [apply lookup_delete_eq|reflexivity].
Qed.

Lemma getAttribute_setAttribute_ne (d : dom) (el el' : nat) name name' v :
  el <> el' \/ name <> name' ->
  getAttribute (setAttribute el name v d) el' name' = getAttribute d el' name'.
Proof.
  intros [H|H]; unfold setAttribute.
  - apply getAttribute_alter_ne, H.
  - apply getAttribute_alter_same. intros n. cbn. apply lookup_insert_ne, H.
Qed.

Lemma getAttribute_removeAttribute_ne (d : dom) (el el' : nat) name name' :
  el <> el' \/ name <> name' ->
  getAttribute (removeAttribute el name d) el' name' = getAttribute d el' name'.
Proof.
  intros [H|H]; unfold removeAttribute.
  - apply getAttribute_alter_ne, H.
  - apply getAttribute_alter_same. intros n. cbn. apply lookup_delete_ne, H.
Qed.

Lemma getAttribute_is_Some (d : dom) (el : nat) name v :
  getAttribute d el name = Some v -> is_Some (d !! el).
Proof. unfold getAttribute. destruct (d !! el); [eauto|discriminate]. Qed.

Lemma first_index_alter (P : node -> bool) (f : node -> node) (d : dom) i :
  (forall n, P (f n) = P n) ->
  first_index P (alter f i d) = first_index P d.
Proof.
  intros Hf. revert i. induction d as [|n d IH]; intros i; [reflexivity|].
  destruct i as [|i]; cbn.
  - rewrite Hf. reflexivity.
  - rewrite IH. reflexivity.
Qed.

Lemma first_index_Some (P : node -> bool) (d : dom) i :
  first_index P d = Some i -> exists n, d !! i = Some n /\ P n = true.
Proof.
  revert i. induction d as [|n d IH]; intros i; cbn; [discriminate|].
  destruct (P n) eqn:Hp.
  - intros [= <-]. eauto.
  - destruct (first_index P d) as [j|]; cbn; [|discriminate].
    intros [= <-]. apply IH. reflexivity.
Qed.

(** Writing an attribute other than [id] does not change what
    [getElementById] finds. *)
Lemma getElementById_alter (f : node -> node) (d : dom) i id :
  (forall n, attributes (f n) !! "id" = attributes n !! "id") ->
  getElementById (alter f i d) id = getElementById d id.
Proof.
  intros Hf. unfold getElementById. destruct (JSString.is_empty id); [reflexivity|].
  apply first_index_alter. intros n. unfold has_id. rewrite Hf. reflexivity.
Qed.

Lemma getElementById_is_Some (d : dom) id el :
  getElementById d id = Some el -> is_Some (d !! el).
Proof.
  unfold getElementById. destruct (JSString.is_empty id); [discriminate|].
  intros H. apply first_index_Some in H as (n & Hn & _). eauto.
Qed.

Lemma set_attr_id name v n :
  name <> "id" -> attributes (set_attr name v n) !! "id" = attributes n !! "id".
Proof. intros H. cbn. apply lookup_insert_ne, H. Qed.

Lemma remove_attr_id name n :
  name <> "id" -> attributes (remove_attr name n) !! "id" = attributes n !! "id".
Proof. intros H. cbn. apply lookup_delete_ne, H. Qed.

(** The elements found by [all_indices] are in the document, each once. *)
Lemma all_indices_NoDup (P : nat -> node -> bool) (d : dom) :
  NoDup (all_indices P d).
Proof.
  unfold all_indices. apply NoDup_ListNoDup, List.NoDup_filter, List.seq_NoDup.
Qed.

Lemma all_indices_lookup (P : nat -> node -> bool) (d : dom) i :
  i ∈ all_indices P d -> exists n, d !! i = Some n /\ P i n = true.
Proof.
  unfold all_indices. rewrite list_elem_of_In, List.filter_In.
  intros [_ H]. destruct (d !! i) as [n|]; [eauto|discriminate].
Qed.
End Store.

(* ================================================================== *)
(** ** Accordion *)
(* ================================================================== *)

Section Accordion.
Import AudinCore.

(** [toggleAccordionPanel] does nothing to a trigger without a panel;
    otherwise it writes the negated [aria-expanded] and then sets or removes
    [hidden] on the panel. *)
Lemma toggleAccordionPanel_no_panel (d : dom) (t : nat) :
  panel_of d t = None -> toggleAccordionPanel t d = d.
Proof.
  unfold panel_of, toggleAccordionPanel.
  destruct (getAttribute d t "aria-controls") as [id|]; cbn; [|reflexivity].
  intros ->. destruct (JSString.is_empty id); reflexivity.
Qed.

Lemma toggleAccordionPanel_panel (d : dom) (t p : nat) :
  panel_of d t = Some p ->
  toggleAccordionPanel t d =
  let d1 := setAttribute t "aria-expanded"
              (String_of_bool (negb (expanded d t))) d in
  if expanded d t then setAttribute p "hidden" "" d1
  else removeAttribute p "hidden" d1.
Proof.
  unfold panel_of, toggleAccordionPanel.
  destruct (getAttribute d t "aria-controls") as [id|]; cbn; [|discriminate].
  intros H. rewrite H.
  unfold getElementById in H. destruct (JSString.is_empty id); [discriminate|].
  reflexivity.
Qed.

(** A click changes no attribute but the trigger's [aria-expanded] and the
    panel's [hidden]. *)
Lemma toggle_getAttribute_other (d : dom) (t p el : nat) name :
  panel_of d t = Some p ->
  (el, name) <> (t, "aria-expanded") ->
  (el, name) <> (p, "hidden") ->
  getAttribute (toggleAccordionPanel t d) el name = getAttribute d el name.
Proof.
  intros Hp H1 H2. rewrite (toggleAccordionPanel_panel d t p Hp). cbv zeta.
  assert (p <> el \/ "hidden" <> name) as Hh.
  { destruct (decide (p = el)) as [->|]; [|auto].
    right. intros <-. apply H2. reflexivity. }
  assert (t <> el \/ "aria-expanded" <> name) as He.
  { destruct (decide (t = el)) as [->|]; [|auto].
    right. intros <-. apply H1. reflexivity. }
  destruct (expanded d t).
  - rewrite getAttribute_setAttribute_ne by exact Hh.
    apply getAttribute_setAttribute_ne, He.
  - rewrite getAttribute_removeAttribute_ne by exact Hh.
    apply getAttribute_setAttribute_ne, He.
Qed.

Lemma toggle_getElementById (d : dom) (t : nat) id :
  getElementById (toggleAccordionPanel t d) id = getElementById d id.
Proof.
  destruct (panel_of d t) as [p|] eqn:Hp.
  - rewrite (toggleAccordionPanel_panel d t p Hp). cbv zeta.
    destruct (expanded d t); unfold setAttribute, removeAttribute;
      rewrite !getElementById_alter; try reflexivity;
      intros n; first [apply set_attr_id|apply remove_attr_id]; discriminate.
  - rewrite toggleAccordionPanel_no_panel by exact Hp. reflexivity.
Qed.

(** The panel of a trigger is the same after any click. *)
Lemma toggle_panel_of (d : dom) (t t' : nat) :
  panel_of (toggleAccordionPanel t d) t' = panel_of d t'.
Proof.
  unfold panel_of.
  destruct (panel_of d t) as [p|] eqn:Hp.
  - rewrite (toggle_getAttribute_other d t p t' "aria-controls" Hp)
      by (intros [= _ H]; discriminate H).
    destruct (getAttribute d t' "aria-controls"); cbn; [|reflexivity].
    apply toggle_getElementById.
  - rewrite toggleAccordionPanel_no_panel by exact Hp. reflexivity.
Qed.

(** What one click does to the two states. *)
Lemma toggle_states (d : dom) (t p : nat) :
  panel_of d t = Some p ->
  expanded (toggleAccordionPanel t d) t = negb (expanded d t)
  /\ is_hidden (toggleAccordionPanel t d) p = expanded d t.
Proof.
  intros Hp.
  assert (is_Some (d !! t)) as Ht.
  { unfold panel_of in Hp.
    destruct (getAttribute d t "aria-controls") as [id|] eqn:Ha; [|discriminate].
    eapply getAttribute_is_Some, Ha. }
  assert (is_Some (d !! p)) as Hpn.
  { unfold panel_of in Hp.
    destruct (getAttribute d t "aria-controls") as [id|]; [|discriminate].
    eapply getElementById_is_Some, Hp. }
  rewrite (toggleAccordionPanel_panel d t p Hp). cbv zeta.
  destruct (expanded d t) eqn:He; cbn [negb String_of_bool];
    unfold expanded, is_hidden, hasAttribute.
  - rewrite getAttribute_setAttribute_ne by (right; discriminate).
    rewrite getAttribute_setAttribute_eq by exact Ht.
    rewrite getAttribute_setAttribute_eq.
    + split; reflexivity.
    + unfold setAttribute. rewrite list_lookup_alter.
      destruct (decide (t = p)) as [->|]; [apply fmap_is_Some|]; exact Hpn.
  - rewrite getAttribute_removeAttribute_ne by (right; discriminate).
    rewrite getAttribute_setAttribute_eq by exact Ht.
    rewrite getAttribute_removeAttribute_eq.
    split; reflexivity.
Qed.
End Accordion.

Section AccordionInvariant.
Import AudinCore.

Lemma toggle_keeps_in_step (triggers : list nat) (d : dom) (t0 : nat) :
  t0 ∈ triggers ->
  own_panels triggers d ->
  (forall t, t ∈ triggers -> in_step d t) ->
  forall t, t ∈ triggers -> in_step (toggleAccordionPanel t0 d) t.
Proof.
  intros Ht0 Hown Hall t Ht. specialize (Hall t Ht). unfold in_step in *.
  rewrite toggle_panel_of.
  destruct (panel_of d t) as [p|] eqn:Hp; [|exact I].
  destruct (panel_of d t0) as [p0|] eqn:Hp0;
    [|rewrite toggleAccordionPanel_no_panel by exact Hp0; exact Hall].
  destruct (decide (t = t0)) as [->|Hne].
  - assert (p = p0) as -> by congruence.
    destruct (toggle_states d t0 p0 Hp0) as [-> ->].
    reflexivity.
  - assert (p <> p0) as Hpne.
    { intros ->. apply Hne. eapply Hown; eauto. }
    unfold expanded, is_hidden, hasAttribute in *.
    rewrite !(toggle_getAttribute_other d t0 p0) by (try exact Hp0; congruence).
    exact Hall.
Qed.

Lemma handle_keeps_in_step (triggers : list nat) (ev : accordion_event) (d : dom) :
  own_panels triggers d ->
  (forall t, t ∈ triggers -> in_step d t) ->
  own_panels triggers (accordion_handle triggers ev d)
  /\ (forall t, t ∈ triggers -> in_step (accordion_handle triggers ev d) t).
Proof.
  intros Hown Hall.
  assert (forall t0, t0 ∈ triggers ->
            own_panels triggers (toggleAccordionPanel t0 d)
            /\ (forall t, t ∈ triggers -> in_step (toggleAccordionPanel t0 d) t))
    as Htoggle.
  { intros t0 Ht0. split.
    - intros t1 t2 p H1 H2. rewrite !toggle_panel_of. apply Hown; assumption.
    - apply toggle_keeps_in_step; assumption. }
  destruct ev as [t0|key t0]; cbn [accordion_handle].
  - destruct (bool_decide_reflect (t0 ∈ triggers)); [apply Htoggle|]; auto.
  - destruct (bool_decide_reflect (t0 ∈ triggers)); cbn [andb]; [|auto].
    destruct (_ || _); [apply Htoggle|]; auto.
Qed.

Lemma run_keeps_in_step (triggers : list nat) (events : list accordion_event)
      (d : dom) :
  own_panels triggers d ->
  (forall t, t ∈ triggers -> in_step d t) ->
  forall t, t ∈ triggers -> in_step (accordion_run triggers events d) t.
Proof.
  unfold accordion_run. revert d.
  induction events as [|ev events IH]; intros d Hown Hall; [exact Hall|].
  cbn [foldl].
  destruct (handle_keeps_in_step triggers ev d Hown Hall) as [Hown' Hall'].
  apply IH; assumption.
Qed.

(** C5, as the code has it.  For a trigger whose [aria-controls]
    references an existing panel: a click negates [aria-expanded] and sets
    the panel's [hidden] to match, so that right after the click
    [aria-expanded] is ["true"] exactly when the panel is not hidden; when
    the two were in step before the click, the click toggles [hidden] as
    well.  Initialization writes nothing, so the two are in step before the
    first click only if the markup has them so; if it has, for every
    trigger, and no two triggers control one panel, then they are in step
    after any sequence of clicks and key presses. *)
Theorem accordion_click_in_step (triggers : list nat) (d : dom) (t p : nat) :
  t ∈ triggers ->
  panel_of d t = Some p ->
  expanded (accordion_handle triggers (Click t) d) t
  = negb (is_hidden (accordion_handle triggers (Click t) d) p)
  /\ expanded (accordion_handle triggers (Click t) d) t = negb (expanded d t)
  /\ (expanded d t = negb (is_hidden d p) ->
      is_hidden (accordion_handle triggers (Click t) d) p
      = negb (is_hidden d p))
  /\ (own_panels triggers d ->
      (forall t', t' ∈ triggers -> in_step d t') ->
      forall events t', t' ∈ triggers ->
                        in_step (accordion_run triggers events d) t').
Proof.
  intros Ht Hp. cbn [accordion_handle]. rewrite bool_decide_true by exact Ht.
  destruct (toggle_states d t p Hp) as [He Hh].
  rewrite He, Hh. split; [reflexivity|]. split; [reflexivity|]. split.
  - intros H. exact H.
  - intros Hown Hall events. apply run_keeps_in_step; assumption.
Qed.

(** A page whose markup has [aria-expanded="true"] on the trigger and
    [hidden] on its panel: after initialization the trigger says expanded
    while the panel is hidden, and the first click leaves the panel
    hidden. *)
Lemma accordion_out_of_step :
  initAccordions accordion_page = [0]
  /\ panel_of accordion_page 0 = Some 1
  /\ expanded accordion_page 0 = true
  /\ is_hidden accordion_page 1 = true
  /\ is_hidden (accordion_handle [0] (Click 0) accordion_page) 1
     = is_hidden accordion_page 1.
Proof. vm_compute. repeat split; reflexivity. Qed.

Lemma accordion_click_in_step_witness :
  0 ∈ [0]
  /\ panel_of accordion_closed 0 = Some 1
  /\ expanded (accordion_handle [0] (Click 0) accordion_closed) 0 = true
  /\ is_hidden (accordion_handle [0] (Click 0) accordion_closed) 1 = false.
Proof.
  assert (0 ∈ [0]) as Hin by (apply list_elem_of_here).
  assert (panel_of accordion_closed 0 = Some 1) as Hp by reflexivity.
  destruct (accordion_click_in_step [0] accordion_closed 0 1 Hin Hp)
    as (H1 & H2 & H3 & _).
  split; [exact Hin|]. split; [exact Hp|]. split.
  - rewrite H2. reflexivity.
  - apply H3. reflexivity.
Defined.
End AccordionInvariant.

(* ================================================================== *)
(** ** Tabs *)
(* ================================================================== *)

Section Tabs.
Import AudinCore.

Lemma is_Some_alter (f : node -> node) (d : dom) i j :
  is_Some (alter f i d !! j) <-> is_Some (d !! j).
Proof. rewrite !lookup_lt_is_Some, length_alter. reflexivity. Qed.

Lemma getAttribute_class (d : dom) (el el' : nat) c force name :
  getAttribute (classList_toggle el c force d) el' name = getAttribute d el' name.
Proof.
  unfold classList_toggle, classList_add, classList_remove.
  destruct force; apply getAttribute_alter_same; reflexivity.
Qed.

Lemma is_hidden_set_hidden_eq (d : dom) (p : nat) (b : bool) :
  is_Some (d !! p) -> is_hidden (set_hidden p b d) p = b.
Proof.
  intros Hp. unfold is_hidden, hasAttribute, set_hidden. destruct b.
  - rewrite getAttribute_setAttribute_eq by exact Hp. reflexivity.
  - rewrite getAttribute_removeAttribute_eq. reflexivity.
Qed.

Lemma getAttribute_set_hidden_ne (d : dom) (p el : nat) (b : bool) name :
  p <> el \/ "hidden" <> name ->
  getAttribute (set_hidden p b d) el name = getAttribute d el name.
Proof.
  intros H. unfold set_hidden. destruct b.
  - apply getAttribute_setAttribute_ne, H.
  - apply getAttribute_removeAttribute_ne, H.
Qed.

Lemma is_Some_set_hidden (d : dom) (p el : nat) (b : bool) :
  is_Some (set_hidden p b d !! el) <-> is_Some (d !! el).
Proof.
  unfold set_hidden, setAttribute, removeAttribute.
  destruct b; apply is_Some_alter.
Qed.

(** The loop over the tabs leaves alone every element that is not a tab
    of the list. *)
Lemma activate_tabs_other (index : nat) (l : list nat) (i : nat) (d : dom) el name :
  el ∉ l ->
  getAttribute (activate_tabs index l i d) el name = getAttribute d el name.
Proof.
  revert i d. induction l as [|t l IH]; intros i d Hel; [reflexivity|].
  cbn [activate_tabs]. cbv zeta.
  apply not_elem_of_cons in Hel as [Hne Hel].
  rewrite IH by exact Hel.
  rewrite getAttribute_setAttribute_ne by (left; congruence).
  rewrite getAttribute_class.
  apply getAttribute_setAttribute_ne. left; congruence.
Qed.

Lemma activate_tabs_hidden (index : nat) (l : list nat) (i : nat) (d : dom) el :
  getAttribute (activate_tabs index l i d) el "hidden" = getAttribute d el "hidden".
Proof.
  revert i d. induction l as [|t l IH]; intros i d; [reflexivity|].
  cbn [activate_tabs]. cbv zeta. rewrite IH.
  rewrite getAttribute_setAttribute_ne by (right; discriminate).
  rewrite getAttribute_class.
  apply getAttribute_setAttribute_ne. right; discriminate.
Qed.

Lemma is_Some_activate_tabs (index : nat) (l : list nat) (i : nat) (d : dom) el :
  is_Some (activate_tabs index l i d !! el) <-> is_Some (d !! el).
Proof.
  revert i d. induction l as [|t l IH]; intros i d; [reflexivity|].
  cbn [activate_tabs]. cbv zeta. rewrite IH.
  unfold setAttribute, classList_toggle, classList_add, classList_remove.
  destruct (i =? index)%nat; rewrite !is_Some_alter; reflexivity.
Qed.

(** After the loop over the tabs, the tab at position [j] of the list is
    selected exactly when its position is [index]. *)
Lemma activate_tabs_selected (index : nat) (l : list nat) (i : nat) (d : dom) j t :
  NoDup l ->
  (forall t', t' ∈ l -> is_Some (d !! t')) ->
  l !! j = Some t ->
  getAttribute (activate_tabs index l i d) t "aria-selected"
  = Some (String_of_bool (i + j =? index)%nat).
Proof.
  revert i d j. induction l as [|t0 l IH]; intros i d j Hnd Hex Hj;
    [discriminate Hj|].
  apply NoDup_cons in Hnd as [Hnotin Hnd].
  cbn [activate_tabs]. cbv zeta.
  destruct j as [|j]; cbn in Hj.
  - injection Hj as ->. rewrite activate_tabs_other by exact Hnotin.
    rewrite getAttribute_setAttribute_ne by (right; discriminate).
    rewrite getAttribute_class.
    rewrite getAttribute_setAttribute_eq by (apply Hex; left).
    rewrite Nat.add_0_r. reflexivity.
  - replace (i + S j) with (S i + j) by lia. apply IH; [exact Hnd| |exact Hj].
    intros t' Ht'.
    unfold setAttribute, classList_toggle, classList_add, classList_remove.
    destruct (i =? index)%nat; rewrite !is_Some_alter; apply Hex; right; exact Ht'.
Qed.

(** The loop over the panels writes nothing but [hidden]. *)
Lemma activate_panels_other_name (index : nat) (l : list (option nat)) (i : nat)
      (d : dom) el name :
  name <> "hidden" ->
  getAttribute (activate_panels index l i d) el name = getAttribute d el name.
Proof.
  intros Hn. revert i d. induction l as [|p l IH]; intros i d; [reflexivity|].
  cbn [activate_panels]. cbv zeta. rewrite IH.
  destruct p as [p|]; [|reflexivity].
  apply getAttribute_set_hidden_ne. right; congruence.
Qed.

Lemma activate_panels_other (index : nat) (l : list (option nat)) (i : nat)
      (d : dom) el name :
  Some el ∉ l ->
  getAttribute (activate_panels index l i d) el name = getAttribute d el name.
Proof.
  revert i d. induction l as [|p l IH]; intros i d Hel; [reflexivity|].
  cbn [activate_panels]. cbv zeta.
  apply not_elem_of_cons in Hel as [Hne Hel].
  rewrite IH by exact Hel.
  destruct p as [p|]; [|reflexivity].
  apply getAttribute_set_hidden_ne. left; congruence.
Qed.

(** After the loop over the panels, a panel is hidden or not as its last
    position in the list says. *)
Lemma activate_panels_last (index : nat) (l1 l2 : list (option nat)) (i : nat)
      (d : dom) p :
  is_Some (d !! p) ->
  Some p ∉ l2 ->
  is_hidden (activate_panels index (l1 ++ Some p :: l2) i d) p
  = negb (i + length l1 =? index)%nat.
Proof.
  revert i d. induction l1 as [|x l1 IH]; intros i d Hp Hl2.
  - cbn [app activate_panels length]. cbv zeta.
    unfold is_hidden, hasAttribute.
    rewrite activate_panels_other by exact Hl2.
    pose proof (is_hidden_set_hidden_eq d p (negb (i =? index)%nat) Hp) as H.
    unfold is_hidden, hasAttribute in H. rewrite H, Nat.add_0_r. reflexivity.
  - cbn [app activate_panels length]. cbv zeta.
    replace (i + S (length l1)) with (S i + length l1) by lia.
    apply IH; [|exact Hl2].
    destruct x as [x|]; [apply is_Some_set_hidden|]; exact Hp.
Qed.

(** What [initTabs] keeps refers to elements of the document, each tab
    once. *)
Lemma initTabs_refs (d : dom) (g : tab_group) :
  initTabs d = Some g ->
  NoDup (tabs g)
  /\ (forall t, t ∈ tabs g -> is_Some (d !! t))
  /\ (forall p, Some p ∈ panels g -> is_Some (d !! p)).
Proof.
  unfold initTabs. destruct (first_index _ d) as [tablist|]; [|discriminate].
  intros [= <-]. cbn [tabs panels]. split; [apply all_indices_NoDup|]. split.
  - intros t Ht. apply all_indices_lookup in Ht as (n & Hn & _). eauto.
  - intros p Hp. apply list_elem_of_fmap in Hp as (t & Hp & _).
    symmetry in Hp. eapply getElementById_is_Some, Hp.
Qed.

Lemma tab_keydown_End (g : tab_group) (index : nat) (d : dom) :
  0 < length (tabs g) ->
  tab_keydown g index "End" d
  = (activateTab g (length (tabs g) - 1) d,
     tabs g !! (length (tabs g) - 1)).
Proof.
  intros Hn. unfold tab_keydown. cbn [String.eqb Ascii.eqb Bool.eqb].
  cbv zeta. cbn match.
  replace (Z.to_nat (Z.of_nat (length (tabs g)) - 1)) with (length (tabs g) - 1)
    by lia.
  reflexivity.
Qed.

(** C6, as the code has it.  For a tab group that [AUDIN.initTabs] has
    set up: the End key, pressed on any tab of the group, activates the tab
    at index [tabs.length - 1], which alone is then selected; and activating
    the tab at index [i] hides the panel at every index [j <> i] and unhides
    the panel at index [i], for the panels that exist and that no other tab
    of the group names as its panel. *)
Theorem tabs_end_and_panels (d0 d : dom) (g : tab_group) :
  initTabs d0 = Some g ->
  length d = length d0 ->
  (forall index, index < length (tabs g) ->
     tab_keydown g index "End" d
     = (activateTab g (length (tabs g) - 1) d,
        tabs g !! (length (tabs g) - 1))
     /\ forall j t, tabs g !! j = Some t ->
          getAttribute (fst (tab_keydown g index "End" d)) t "aria-selected"
          = Some (String_of_bool (j =? length (tabs g) - 1)%nat))
  /\ (forall i j p,
        panels g !! j = Some (Some p) ->
        (forall k, k <> j -> panels g !! k <> Some (Some p)) ->
        is_hidden (activateTab g i d) p = negb (j =? i)%nat).
Proof.
  intros Hinit Hlen.
  destruct (initTabs_refs d0 g Hinit) as (Hnd & Htabs & Hpanels).
  assert (forall el, is_Some (d0 !! el) -> is_Some (d !! el)) as Hd.
  { intros el. rewrite !lookup_lt_is_Some, Hlen. auto. }
  split.
  - intros index Hindex.
    rewrite (tab_keydown_End g index d) by lia. split; [reflexivity|].
    intros j t Hj. cbn [fst]. unfold activateTab.
    rewrite activate_panels_other_name by discriminate.
    rewrite (activate_tabs_selected _ _ 0 d j t Hnd); [reflexivity| |exact Hj].
    intros t' Ht'. apply Hd, Htabs, Ht'.
  - intros i j p Hj Hother. unfold activateTab.
    destruct (list_elem_of_split_length (panels g) j (Some p) Hj)
      as (l1 & l2 & Hsplit & Hl1).
    rewrite Hsplit.
    replace (negb (j =? i)%nat) with (negb (0 + length l1 =? i)%nat)
      by (rewrite Hl1; reflexivity).
    apply activate_panels_last.
    + apply is_Some_activate_tabs, Hd, Hpanels.
      apply list_elem_of_lookup. eauto.
    + intros Hin. apply list_elem_of_lookup in Hin as [k Hk].
      apply (Hother (length l1 + S k)); [lia|].
      rewrite Hsplit. rewrite lookup_app_r by lia.
      replace (length l1 + S k - length l1) with (S k) by lia. exact Hk.
Qed.

(** Two tabs that name one panel: activating the first tab leaves its
    panel hidden. *)
Lemma tabs_shared_panel_hidden :
  initTabs tabs_shared_panel = Some tabs_shared_group
  /\ panels tabs_shared_group !! 0 = Some (Some 3)
  /\ is_hidden (tab_click tabs_shared_group 0 tabs_shared_panel) 3 = true.
Proof. split; [|split]; vm_compute; reflexivity. Qed.

(** The arrow keys wrap around the tab list. *)
Example tab_keydown_arrows :
  snd (tab_keydown tabs_page_group 0 "ArrowLeft" tabs_page) = Some 2
  /\ snd (tab_keydown tabs_page_group 1 "ArrowRight" tabs_page) = Some 1
  /\ tab_keydown tabs_page_group 0 "a" tabs_page = (tabs_page, None).
Proof. repeat split; vm_compute; reflexivity. Qed.

Lemma tabs_end_and_panels_witness :
  initTabs tabs_page = Some tabs_page_group
  /\ length tabs_page = length tabs_page
  /\ fst (tab_keydown tabs_page_group 0 "End" tabs_page)
     = activateTab tabs_page_group 1 tabs_page
  /\ is_hidden (activateTab tabs_page_group 1 tabs_page) 3 = true
  /\ is_hidden (activateTab tabs_page_group 1 tabs_page) 4 = false.
Proof.
  assert (initTabs tabs_page = Some tabs_page_group) as Hinit
    by (vm_compute; reflexivity).
  destruct (tabs_end_and_panels tabs_page tabs_page tabs_page_group Hinit eq_refl)
    as [Hend Hpanels].
  split; [exact Hinit|]. split; [reflexivity|]. split; [|split].
  - destruct (Hend 0) as [H _]; [cbn; lia|]. rewrite H. reflexivity.
  - apply (Hpanels 1 0 3); [reflexivity|].
    intros [|[|k]] Hk; try (exfalso; apply Hk; reflexivity); cbv; discriminate.
  - apply (Hpanels 1 1 4); [reflexivity|].
    intros [|[|k]] Hk; try (exfalso; apply Hk; reflexivity); cbv; discriminate.
Defined.
End Tabs.

(* ================================================================== *)
(** ** Report filter *)
(* ================================================================== *)

Section Filtros.
Import AudinCore.







Lemma item_matches_ext (d d' : dom) (periodo tipo busca : string) (item : nat) :
  (forall name, getAttribute d' item name = getAttribute d item name) ->
  item_matches d' periodo tipo busca item = item_matches d periodo tipo busca item.
Proof.
  intros H. unfold item_matches, match_select, match_busca. rewrite !H.
  reflexivity.
Qed.

Lemma getAttribute_classList_add (d : dom) (el el' : nat) c name :
  getAttribute (classList_add el c d) el' name = getAttribute d el' name.
Proof. apply getAttribute_alter_same. reflexivity. Qed.

Lemma getAttribute_classList_remove (d : dom) (el el' : nat) c name :
  getAttribute (classList_remove el c d) el' name = getAttribute d el' name.
Proof. apply getAttribute_alter_same. reflexivity. Qed.




(** The loop over the items: it writes no attribute, ... *)
Lemma filtrar_items_getAttribute periodo tipo busca (l : list nat) v (d : dom) el name :
  getAttribute (snd (filtrar_items periodo tipo busca l v d)) el name
  = getAttribute d el name.
Proof.
  revert v d. induction l as [|item l IH]; intros v d; [reflexivity|].
  cbn [filtrar_items]. cbv zeta.
  destruct (_ && _); rewrite IH;
    [apply getAttribute_classList_remove|apply getAttribute_classList_add].
Qed.




(** ... and it counts them. *)
Lemma filtrar_items_count periodo tipo busca (l : list nat) v (d : dom) :
  fst (filtrar_items periodo tipo busca l v d)
  = v + length (List.filter (item_matches d periodo tipo busca) l).
Proof.
  revert v d. induction l as [|x l IH]; intros v d.
  - cbn. lia.
  - cbn [filtrar_items List.filter]. cbv zeta.
    fold (item_matches d periodo tipo busca x).
    destruct (item_matches d periodo tipo busca x) eqn:Hm; rewrite IH.
    + rewrite (List.filter_ext _ (item_matches d periodo tipo busca)).
      * cbn [length]. lia.
      * intros y. apply item_matches_ext. intros.
        apply getAttribute_classList_remove.
    + rewrite (List.filter_ext _ (item_matches d periodo tipo busca)).
      * lia.
      * intros y. apply item_matches_ext. intros.
        apply getAttribute_classList_add.
Qed.




(** A search that no item matches shows the empty-list message. *)
Example filtrar_no_match :
  visible (filtrar filter_page_closure (filter_page "paint")) 1 = false
  /\ visible (filtrar filter_page_closure (filter_page "paint")) 2 = false
  /\ visible (filtrar filter_page_closure (filter_page "paint")) 3 = true.
Proof. repeat split; vm_compute; reflexivity. Qed.

End Filtros.

(* ================================================================== *)
(** ** Page binders: completion, frame and session *)
(* ================================================================== *)

Section BinderLaws.
Import DataLoader PageLogic.
Local Open Scope js_scope.

Lemma preserves_ret {A X} (proj : world -> X) (a : A) : preserves proj (ret a).
Proof. intros w. reflexivity. Qed.

Lemma preserves_lift {A X} (proj : world -> X) (c : completion A) :
  preserves proj (lift c).
Proof. intros w. reflexivity. Qed.

Lemma preserves_bind {A B X} (proj : world -> X) (c : M A) (k : A -> M B) :
  preserves proj c -> (forall a, preserves proj (k a)) -> preserves proj (bind c k).
Proof.
  intros Hc Hk w. unfold bind. specialize (Hc w).
  destruct (c w) as [[a|e] w1]; cbn [snd] in *.
  - rewrite Hk. exact Hc.
  - exact Hc.
Qed.

Lemma preserves_forEach {A X} (proj : world -> X) (f : A -> nat -> M unit)
      (l : list A) (i : nat) :
  (forall x j, preserves proj (f x j)) -> preserves proj (forEach f l i).
Proof.
  intros Hf. revert i. induction l as [|x l IH]; intros i; cbn [forEach].
  - apply preserves_ret.
  - apply preserves_bind; [apply Hf|intros _; apply IH].
Qed.

Lemma returns_ret {A} (a : A) : returns (ret a).
Proof. intros w. eexists. reflexivity. Qed.

Lemma returns_bind {A B} (c : M A) (k : A -> M B) :
  returns c -> (forall a, returns (k a)) -> returns (bind c k).
Proof.
  intros Hc Hk w. unfold bind. destruct (Hc w) as [a Ha].
  destruct (c w) as [[a'|e] w1]; cbn [fst] in Ha; [apply Hk|discriminate Ha].
Qed.

Lemma returns_lift_Normal {A} (a : A) : returns (lift (Normal a)).
Proof. intros w. eexists. reflexivity. Qed.

Lemma returns_updateElement id v : returns (updateElement id v).
Proof. intros w. exists tt. apply updateElement_normal. Qed.

Lemma returns_updateBar id perc v : returns (updateBar id perc v).
Proof.
  intros w. exists tt. unfold updateBar, bind, getElementById. cbn.
  destruct (document w !! id); reflexivity.
Qed.

Lemma returns_forEach {A} (f : A -> nat -> M unit) (l : list A) (i : nat) :
  (forall x j, x ∈ l -> returns (f x j)) -> returns (forEach f l i).
Proof.
  revert i. induction l as [|x l IH]; intros i Hf; cbn [forEach].
  - apply returns_ret.
  - apply returns_bind; [apply Hf; left|intros _; apply IH].
    intros y j Hy. apply Hf. right. exact Hy.
Qed.

Lemma returns_unit (c : M unit) (w : world) :
  returns c -> fst (c w) = Normal tt.
Proof. intros H. destruct (H w) as [[] Ha]. exact Ha. Qed.

Lemma throws_not_normal {A} (c : M A) (w : world) (a : A) :
  throws c -> fst (c w) <> Normal a.
Proof. intros H. destruct (H w) as [e He]. rewrite He. discriminate. Qed.

(** The session is touched by [loadStats] alone. *)
Lemma session_updateElement id v : preserves session (updateElement id v).
Proof.
  intros w. unfold updateElement, bind, getElementById. cbn.
  destruct (document w !! id); reflexivity.
Qed.

Lemma session_updateBar id perc v : preserves session (updateBar id perc v).
Proof.
  intros w. unfold updateBar, bind, getElementById. cbn.
  destruct (document w !! id); reflexivity.
Qed.

Lemma session_store id e : preserves session (store id e).
Proof. intros w. reflexivity. Qed.

Lemma session_getElementById id : preserves session (getElementById id).
Proof. intros w. reflexivity. Qed.






Ltac session_tac :=
  repeat first
    [ apply preserves_ret
    | apply preserves_lift
    | apply session_updateElement
    | apply session_updateBar
    | apply session_store
    | apply session_getElementById
    | apply preserves_forEach; intros
    | match goal with
      | |- preserves _ (match ?x with _ => _ end) => destruct x
      | |- preserves _ (let '(_, _) := ?x in _) => destruct x
      end
    | apply preserves_bind; [|intros] ].


(** X2.  A binder touches the cache, the console and the network through its
    one call of [loadStats] only: it makes no request when the cache is
    filled and exactly one when it is empty. *)
Theorem binders_session (b : binder) (w : world) :
  session (snd (run b w)) = session (snd (loadStats w))
  /\ requests (snd (run b w))
     = match statsData w with
       | Some _ => requests w
       | None => (requests w ++ [stats_url])%list
       end.
Proof.
  assert (session (snd (run b w)) = session (snd (loadStats w))) as H.
  { destruct b; cbn [run];
      unfold updateDashboard, updateMonitoramento, updateBeneficios, updateRaioX,
             updateRelatorios;
      unfold bind at 1;
      destruct (loadStats w) as [[[s|]|e] w1]; cbn [snd]; try reflexivity;
      match goal with |- session (snd (?c w1)) = _ => revert w1; change (preserves session c) end;
      unfold updateStatusBar, updateProgressBar; cbn [forEach]; session_tac. }
  split; [exact H|].
  apply (f_equal snd) in H. cbn [session snd] in H. rewrite H.
  unfold loadStats. destruct (statsData w); [reflexivity|].
  destruct (network w _); reflexivity.
Qed.
End BinderLaws.

Section BinderCompletion.
Import DataLoader PageLogic.
Local Open Scope js_scope.

Lemma returns_formatPercent (q : Q) : returns (lift (formatPercent (Some q))).
Proof. intros w. eexists. reflexivity. Qed.

Lemma returns_getElementById id : returns (getElementById id).
Proof. intros w. eexists. reflexivity. Qed.

Lemma returns_store id e : returns (store id e).
Proof. intros w. eexists. reflexivity. Qed.

Ltac returns_step :=
  first
    [ apply returns_ret
    | apply returns_formatPercent
    | apply returns_updateElement
    | apply returns_updateBar
    | apply returns_getElementById
    | apply returns_store
    | match goal with
      | |- returns (match ?x with _ => _ end) => destruct x
      end
    | apply returns_bind; [|intros] ].

Ltac returns_tac := repeat returns_step.

Ltac throws_tac :=
  repeat first
    [ apply throws_bind_l; apply throws_formatPercent_undefined
    | apply throws_bind_r; intros ].

Lemma returns_updateProgressBar (s : stats) : returns (updateProgressBar s).
Proof. unfold updateProgressBar. cbn [forEach]. returns_tac. Qed.

(** [updateStatusBar] returns exactly when the four percentages are
    there. *)
Lemma updateStatusBar_returns (s : stats) :
  is_Some (perc_atendidas s) -> is_Some (perc_baixadas s) ->
  is_Some (perc_em_implementacao s) -> is_Some (perc_pendentes s) ->
  returns (updateStatusBar s).
Proof.
  intros [a Ha] [b Hb] [c Hc] [d Hd]. unfold updateStatusBar.
  rewrite Ha, Hb, Hc, Hd. returns_tac.
Qed.

Lemma updateStatusBar_throws (s : stats) :
  perc_atendidas s = None \/ perc_baixadas s = None
  \/ perc_em_implementacao s = None \/ perc_pendentes s = None ->
  throws (updateStatusBar s).
Proof.
  intros H. unfold updateStatusBar.
  destruct H as [H|[H|[H|H]]]; rewrite H; throws_tac.
Qed.

(** X3.  The dashboard and the monitoring page format five percentages; the
    binder of either page returns normally exactly when the stats document
    has all five, and throws a [TypeError] when one is missing. *)
Theorem percentages_decide_completion (w : world) (s : stats) :
  fst (loadStats w) = Normal (Some s) ->
  (fst (updateDashboard w) = Normal tt
   <-> is_Some (perc_atendidas s) /\ is_Some (perc_baixadas s)
       /\ is_Some (perc_em_implementacao s) /\ is_Some (perc_pendentes s)
       /\ is_Some (efetividade s))
  /\ (fst (updateMonitoramento w) = Normal tt
      <-> is_Some (perc_atendidas s) /\ is_Some (perc_baixadas s)
          /\ is_Some (perc_em_implementacao s) /\ is_Some (perc_pendentes s)
          /\ is_Some (efetividade s)).
Proof.
  intros Hs. destruct (loadStats_returns w s Hs) as (w1 & Hl & _).
  split; [unfold updateDashboard|unfold updateMonitoramento];
    unfold bind at 1; rewrite Hl; split.
  - destruct (perc_atendidas s) as [a|] eqn:Ha;
      [destruct (perc_baixadas s) as [b|] eqn:Hb;
       [destruct (perc_em_implementacao s) as [c|] eqn:Hc;
        [destruct (perc_pendentes s) as [d|] eqn:Hd;
         [destruct (efetividade s) as [e|] eqn:He|]|]|]|].
    { intros _. repeat split; eauto. }
    all: intros Hn; exfalso; revert Hn; apply throws_not_normal.
    all: repeat first
           [ apply throws_bind_l; apply updateStatusBar_throws;
             rewrite ?Ha, ?Hb, ?Hc, ?Hd; tauto
           | apply throws_bind_l; apply throws_formatPercent_undefined
           | apply throws_bind_r; intros ].
  - intros (Ha & Hb & Hc & Hd & [e He]). apply returns_unit.
    rewrite He.
    repeat first
      [ apply updateStatusBar_returns; assumption
      | returns_step ].
  - destruct (perc_atendidas s) as [a|] eqn:Ha;
      [destruct (perc_baixadas s) as [b|] eqn:Hb;
       [destruct (perc_em_implementacao s) as [c|] eqn:Hc;
        [destruct (perc_pendentes s) as [d|] eqn:Hd;
         [destruct (efetividade s) as [e|] eqn:He|]|]|]|].
    { intros _. repeat split; eauto. }
    all: intros Hn; exfalso; revert Hn; apply throws_not_normal; throws_tac.
  - intros ([a Ha] & [b Hb] & [c Hc] & [d Hd] & [e He]). apply returns_unit.
    rewrite Ha, Hb, Hc, Hd, He.
    repeat first
      [ apply returns_updateProgressBar
      | returns_step ].
Qed.

Lemma throws_forEach {A} (f : A -> nat -> M unit) (P : A -> Prop) (l : list A) (i : nat) :
  (forall x j, P x -> throws (f x j)) ->
  Exists P l -> throws (forEach f l i).
Proof.
  intros Hf Hex. revert i. induction Hex as [x l Hx|x l Hex IH]; intros i;
    cbn [forEach].
  - apply throws_bind_l, Hf, Hx.
  - apply throws_bind_r. intros _. apply IH.
Qed.

(** X4.  The three pages that fill rows from a top-N list.  [updateRelatorios]
    formats nothing and always returns; [updateBeneficios] returns exactly
    when [media_beneficios_unidade] is there; [updateRaioX] returns exactly
    when [media_rec_ano] is there and each of the first three units has its
    [percentual]. *)
Theorem rows_decide_completion (w : world) (s : stats) :
  fst (loadStats w) = Normal (Some s) ->
  fst (updateRelatorios w) = Normal tt
  /\ (fst (updateBeneficios w) = Normal tt
      <-> is_Some (media_beneficios_unidade s))
  /\ (fst (updateRaioX w) = Normal tt
      <-> is_Some (media_rec_ano s)
          /\ Forall (fun item => is_Some (percentual item))
                    (take 3 (default [] (top_unidades_recomendacoes s)))).
Proof.
  intros Hs. destruct (loadStats_returns w s Hs) as (w1 & Hl & _).
  split; [|split].
  - unfold updateRelatorios. unfold bind at 1. rewrite Hl.
    apply returns_unit.
    destruct (top_unidades_recomendacoes s); [|apply returns_ret].
    apply returns_forEach. intros. returns_tac.
  - unfold updateBeneficios. unfold bind at 1. rewrite Hl.
    destruct (media_beneficios_unidade s) as [m|] eqn:Hm; split.
    + eauto.
    + intros _. apply returns_unit.
      repeat first [ apply returns_forEach; intros | returns_step ].
    + intros Hn. exfalso. revert Hn. apply throws_not_normal. throws_tac.
    + intros [m Hm']. discriminate Hm'.
  - unfold updateRaioX. unfold bind at 1. rewrite Hl.
    destruct (media_rec_ano s) as [m|] eqn:Hm.
    2:{ split.
        - intros Hn. exfalso. revert Hn. apply throws_not_normal. throws_tac.
        - intros [[m Hm'] _]. discriminate Hm'. }
    destruct (top_unidades_recomendacoes s) as [top|]; cbn [default].
    2:{ split; [intros _; split; [eauto|constructor]|].
        intros _. apply returns_unit. returns_tac. }
    destruct (decide (Forall (fun item => is_Some (percentual item)) (take 3 top)))
      as [Hall|Hnot]; split.
    + intros _. split; [eauto|exact Hall].
    + intros _. apply returns_unit.
      repeat first
        [ apply returns_forEach; intros x j Hx;
          destruct (proj1 (Forall_forall _ _) Hall x Hx) as [p Hp]; rewrite Hp
        | returns_step ].
    + intros Hn. exfalso. revert Hn. apply throws_not_normal.
      apply not_Forall_Exists in Hnot; [|intros x; apply _].
      repeat (apply throws_bind_r; intros ?).
      eapply throws_forEach; [|exact Hnot].
      intros x j Hx. cbn in Hx.
      assert (percentual x = None) as Hp.
      { destruct (percentual x); [exfalso; apply Hx; eauto|reflexivity]. }
      rewrite Hp. throws_tac.
    + intros [_ Hall]. contradiction.
Qed.

(** Running [c], which keeps the element [id] and returns, before [k]. *)
Lemma bind_over {A B} id (e : element) (c : M A) (k : A -> M B)
      (Q : completion B * world -> Prop) (w : world) :
  keeps id c -> returns c ->
  document w !! id = Some e ->
  (forall a w', document w' !! id = Some e -> Q (k a w')) ->
  Q (bind c k w).
Proof.
  intros Hk Hr He HQ. unfold bind. specialize (Hk w). destruct (Hr w) as [a Ha].
  destruct (c w) as [[a'|x] w1]; cbn [fst snd] in *; [|discriminate Ha].
  apply HQ. rewrite Hk. exact He.
Qed.




Lemma percentages_decide_completion_witness :
  fst (loadStats first_visit) = Normal (Some sample_stats)
  /\ fst (updateDashboard first_visit) = Normal tt.
Proof.
  destruct (percentages_decide_completion first_visit sample_stats) as [[_ H] _];
    [reflexivity|].
  split; [reflexivity|]. apply H. repeat split; eexists; reflexivity.
Defined.

Lemma rows_decide_completion_witness :
  fst (loadStats first_visit) = Normal (Some sample_stats)
  /\ fst (updateBeneficios first_visit) = Normal tt.
Proof.
  destruct (rows_decide_completion first_visit sample_stats) as (_ & [_ H] & _);
    [reflexivity|].
  split; [reflexivity|]. apply H. eexists; reflexivity.
Defined.

End BinderCompletion.

(* ================================================================== *)
(** ** Rows of the top-N lists *)
(* ================================================================== *)

Section Rows.
Import DataLoader PageLogic.
Local Open Scope js_scope.

Lemma string_length_app (a b : string) :
  String.length (a +:+ b) = String.length a + String.length b.
Proof.
  induction a as [|c a IH]; [reflexivity|].
  change (String c a +:+ b) with (String c (a +:+ b)).
  cbn [String.length Nat.add]. rewrite IH. reflexivity.
Qed.

Lemma string_app_inj_l (a x y : string) : a +:+ x = a +:+ y -> x = y.
Proof.
  induction a as [|c a IH]; intros H; [exact H|].
  injection H as H. apply IH, H.
Qed.

Lemma string_app_inj_r (s x y : string) : x +:+ s = y +:+ s -> x = y.
Proof.
  revert y. induction x as [|c x IH]; intros [|c' y] H.
  - reflexivity.
  - apply (f_equal String.length) in H.
    rewrite !string_length_app in H. cbn [String.length] in H. lia.
  - apply (f_equal String.length) in H.
    rewrite !string_length_app in H. cbn [String.length] in H. lia.
  - injection H as -> H. f_equal. apply IH, H.
Qed.

Lemma nome_total_clash (x y : string) : x +:+ "-nome" <> y +:+ "-total".
Proof.
  revert y. induction x as [|c x IH]; intros [|c' y] H.
  - discriminate H.
  - apply (f_equal String.length) in H.
    rewrite !string_length_app in H. cbn [String.length] in H. lia.
  - destruct x as [|c2 x]; [discriminate H|].
    apply (f_equal String.length) in H.
    rewrite !string_length_app in H. cbn [String.length] in H. lia.
  - injection H as -> H. exact (IH y H).
Qed.

(** Two rows have the same identifier only if they are the same row and
    the same column. *)
Lemma row_id_inj (prefix suffix : string) (a b : nat) :
  row_id prefix a suffix = row_id prefix b suffix -> a = b.
Proof.
  unfold row_id. intros H. apply string_app_inj_l, string_app_inj_r in H.
  apply (inj pretty) in H. exact H.
Qed.

Lemma row_id_nome_total (prefix : string) (a b : nat) :
  row_id prefix a "-nome" <> row_id prefix b "-total".
Proof.
  unfold row_id. intros H. apply string_app_inj_l in H.
  exact (nome_total_clash _ _ H).
Qed.

Lemma keeps_forEach_range {A} id (f : A -> nat -> M unit) (l : list A) (i : nat) :
  (forall x j, i <= j < i + length l -> keeps id (f x j)) ->
  keeps id (forEach f l i).
Proof.
  revert i. induction l as [|x l IH]; intros i Hf; cbn [forEach].
  - apply keeps_ret.
  - apply keeps_bind; [apply Hf; cbn; lia|intros _; apply IH].
    intros y j Hj. apply Hf. cbn. lia.
Qed.

(** In a loop whose iterations return, what iteration [k] writes to an
    element that the other iterations keep is there at the end. *)
Lemma forEach_row {A} (f : A -> nat -> M unit) id (t : string)
      (l : list A) (i k : nat) (x : A) (w : world) (e : element) :
  l !! k = Some x ->
  (forall y j, j <> i + k -> keeps id (f y j)) ->
  (forall y j, PageLogic.returns (f y j)) ->
  (forall w', document w' !! id = Some e ->
              textContent <$> document (snd (f x (i + k) w')) !! id = Some t) ->
  document w !! id = Some e ->
  textContent <$> document (snd (forEach f l i w)) !! id = Some t.
Proof.
  intros Hk Hkeep Hret Hwrite.
  revert i k w Hk Hkeep Hwrite.
  induction l as [|y l IH]; intros i k w Hk Hkeep Hwrite He; [discriminate Hk|].
  cbn [forEach]. destruct k as [|k]; cbn in Hk.
  - injection Hk as ->. rewrite Nat.add_0_r in Hwrite.
    specialize (Hwrite w He). unfold bind.
    destruct (Hret x i w) as [[] Hn].
    destruct (f x i w) as [[[]|err] w1]; cbn [fst snd] in *; [|discriminate Hn].
    rewrite keeps_forEach_from; [exact Hwrite|].
    intros z j Hj. apply Hkeep. lia.
  - apply (bind_over id e); [apply Hkeep; lia|apply Hret|exact He|].
    intros _ w' He'. apply (IH (S i) k); [exact Hk| | |exact He'].
    + intros z j Hj. apply Hkeep. lia.
    + intros w2 He2. replace (S i + k) with (i + S k) by lia. apply Hwrite, He2.
Qed.

(** X6.  The report page shows the first five units of
    [top_unidades_recomendacoes], unit [k] in row [k]: its name and its total
    go to the row's two elements, where they exist.  The rows after the
    fifth, and those for which the list has no unit, are left as they
    are. *)
Theorem relatorios_rows (w : world) (s : stats) (top : list top_item) :
  fst (loadStats w) = Normal (Some s) ->
  top_unidades_recomendacoes s = Some top ->
  (forall k item e,
      k < 5 -> top !! k = Some item ->
      document w !! row_id "report-top-" (k + 1) "-nome" = Some e ->
      textContent <$> document (snd (updateRelatorios w))
                        !! row_id "report-top-" (k + 1) "-nome"
      = Some (DOMString_or_null (str (unidade item))))
  /\ (forall k item e,
        k < 5 -> top !! k = Some item ->
        document w !! row_id "report-top-" (k + 1) "-total" = Some e ->
        textContent <$> document (snd (updateRelatorios w))
                          !! row_id "report-top-" (k + 1) "-total"
        = Some (DOMString_or_null (num (total item))))
  /\ (forall k suffix,
        5 <= k \/ length top <= k ->
        suffix = "-nome" \/ suffix = "-total" ->
        document (snd (updateRelatorios w)) !! row_id "report-top-" (k + 1) suffix
        = document w !! row_id "report-top-" (k + 1) suffix).
Proof.
  intros Hs Htop. destruct (loadStats_returns w s Hs) as (w1 & Hl & Hd).
  assert (updateRelatorios w
          = forEach (fun item index =>
                       updateElement ("report-top-" +:+ pretty (index + 1) +:+ "-nome")
                                     (str (unidade item)) ;;
                       updateElement ("report-top-" +:+ pretty (index + 1) +:+ "-total")
                                     (num (total item)))
                    (take 5 top) 0 w1) as ->.
  { unfold updateRelatorios. unfold bind at 1. rewrite Hl, Htop. reflexivity. }
  assert (forall y j,
             PageLogic.returns
               (updateElement ("report-top-" +:+ pretty (j + 1) +:+ "-nome")
                              (str (unidade y)) ;;
                updateElement ("report-top-" +:+ pretty (j + 1) +:+ "-total")
                              (num (total y)))) as Hret.
  { intros. apply returns_bind; [|intros _]; apply returns_updateElement. }
  split; [|split].
  - intros k item e Hk Hitem He. rewrite <- Hd in He.
    apply (forEach_row _ _ _ (take 5 top) 0 k item w1 e).
    + rewrite lookup_take_lt by lia. exact Hitem.
    + intros y j Hj.
      apply keeps_bind; [|intros _]; apply keeps_updateElement.
      * intros H. apply row_id_inj in H. lia.
      * intros H. symmetry in H. exact (row_id_nome_total _ _ _ H).
    + exact Hret.
    + intros w' He'. cbn [Nat.add].
      apply (write_then_keeps _ _ _ w' e He').
      apply keeps_updateElement.
      intros H. symmetry in H. exact (row_id_nome_total _ _ _ H).
    + exact He.
  - intros k item e Hk Hitem He. rewrite <- Hd in He.
    apply (forEach_row _ _ _ (take 5 top) 0 k item w1 e).
    + rewrite lookup_take_lt by lia. exact Hitem.
    + intros y j Hj.
      apply keeps_bind; [|intros _]; apply keeps_updateElement.
      * exact (row_id_nome_total _ _ _).
      * intros H. apply row_id_inj in H. lia.
    + exact Hret.
    + intros w' He'. cbn [Nat.add].
      apply (after_updateElement _ _ _ _ w' e);
        [exact (row_id_nome_total _ _ _)|exact He'|].
      intros w2 He2. apply (updateElement_text _ _ w2 e He2).
    + exact He.
  - intros k suffix Hk Hsuf. rewrite <- Hd.
    apply keeps_forEach_range. intros y j Hj.
    rewrite length_take in Hj.
    apply keeps_bind; [|intros _]; apply keeps_updateElement;
      destruct Hsuf as [-> | ->]; intros H;
      first [ apply row_id_inj in H; lia
            | exact (row_id_nome_total _ _ _ H)
            | symmetry in H; exact (row_id_nome_total _ _ _ H) ].
Qed.

Lemma relatorios_rows_witness :
  fst (loadStats report_rows_page) = Normal (Some sample_stats)
  /\ textContent <$> document (snd (updateRelatorios report_rows_page))
                       !! "report-top-1-nome" = Some "PROADM".
Proof.
  split; [reflexivity|].
  destruct (relatorios_rows report_rows_page sample_stats
              [ {| unidade := Some "PROADM"; total := Some 180%Q;
                   percentual := Some 14.4%Q |};
                {| unidade := Some "PROGESP"; total := Some 150%Q;
                   percentual := Some 12%Q |} ]) as (H & _);
    [reflexivity|reflexivity|].
  apply (H 0 {| unidade := Some "PROADM"; total := Some 180%Q;
                percentual := Some 14.4%Q |} (text ""));
    [lia|reflexivity|vm_compute; reflexivity].
Defined.
End Rows.

(* ================================================================== *)
(** ** The gauge arc: geometry, and the arc on the dashboard *)
(* ================================================================== *)

Section GaugeGeometry.
Import DataLoader PageLogic.
Local Open Scope R_scope.

Lemma gauge_angle_range (p : R) :
  0 <= p <= 100 -> 0 <= PI - p / 100 * PI <= PI.
Proof. intros Hp. pose proof PI_RGT_0. split; nra. Qed.

(** X7.  The arc starts at the leftmost point (20, 100) and ends on the circle
    of radius 80 about (100, 100), whatever the percentage.  For a
    percentage in [[0,100]] the end point is on the upper half of the circle
    (its [y] is at most 100, the SVG [y] axis pointing down), at the apex
    (100, 20) for 50; for a percentage between 100 and 200 it is strictly
    below the base line. *)
Theorem gauge_arc_on_circle (p : R) :
  startX (calculateGaugeArc p) = 20
  /\ startY (calculateGaugeArc p) = 100
  /\ (endX (calculateGaugeArc p) - 100) ^ 2
     + (endY (calculateGaugeArc p) - 100) ^ 2 = 80 ^ 2
  /\ (0 <= p <= 100 ->
      endY (calculateGaugeArc p) <= 100
      /\ 20 <= endX (calculateGaugeArc p) <= 180)
  /\ (p = 50 ->
      endX (calculateGaugeArc p) = 100 /\ endY (calculateGaugeArc p) = 20)
  /\ (100 < p < 200 -> endY (calculateGaugeArc p) > 100).
Proof.
  destruct (gauge_start p) as [Hsx Hsy].
  split; [exact Hsx|]. split; [exact Hsy|].
  unfold calculateGaugeArc. cbn [endX endY].
  set (a := PI - p / 100 * PI).
  pose proof (sin2_cos2 a) as Hsc. unfold Rsqr in Hsc.
  pose proof (COS_bound a) as [Hc1 Hc2].
  pose proof PI_RGT_0 as Hpi.
  split; [nra|]. split; [|split].
  - intros Hp. destruct (gauge_angle_range p Hp) as [Ha1 Ha2]. fold a in Ha1, Ha2.
    pose proof (sin_ge_0 a Ha1 Ha2). split; [nra|split; nra].
  - intros ->. unfold a. replace (PI - 50 / 100 * PI) with (PI / 2) by lra.
    rewrite cos_PI2, sin_PI2. split; lra.
  - intros Hp.
    assert (sin (- a) > 0) as Hs.
    { apply sin_gt_0; unfold a; nra. }
    rewrite sin_neg in Hs. nra.
Qed.

(** X8.  Between 0 and 100 the end point moves strictly to the right as the
    percentage grows. *)
Theorem gauge_end_moves_right (p q : R) :
  0 <= p -> p < q -> q <= 100 ->
  endX (calculateGaugeArc p) < endX (calculateGaugeArc q).
Proof.
  intros Hp Hpq Hq. unfold calculateGaugeArc. cbn [endX].
  pose proof PI_RGT_0 as Hpi.
  destruct (gauge_angle_range p ltac:(lra)) as [Hp1 Hp2].
  destruct (gauge_angle_range q ltac:(lra)) as [Hq1 Hq2].
  assert (cos (PI - p / 100 * PI) < cos (PI - q / 100 * PI)) as H.
  { apply cos_decreasing_1; try assumption. nra. }
  lra.
Qed.

Lemma gauge_arc_on_circle_witness :
  0 <= 25 <= 100
  /\ endY (calculateGaugeArc 25) <= 100
  /\ 20 <= endX (calculateGaugeArc 25) <= 180.
Proof.
  split; [lra|].
  destruct (gauge_arc_on_circle 25) as (_ & _ & _ & H & _).
  apply H. lra.
Defined.

Lemma gauge_end_moves_right_witness :
  0 <= 25 /\ 25 < 75 /\ 75 <= 100
  /\ endX (calculateGaugeArc 25) < endX (calculateGaugeArc 75).
Proof.
  split; [lra|]. split; [lra|]. split; [lra|].
  apply gauge_end_moves_right; lra.
Defined.
End GaugeGeometry.

Section DashboardGauge.
Import DataLoader PageLogic.
Local Open Scope js_scope.

Lemma bind_lift_Normal {A B} (x : A) (k : A -> M B) (w : world) :
  bind (lift (Normal x)) k w = k x w.
Proof. reflexivity. Qed.

(** X9.  On the dashboard the arc and the number come from the same field: when
    the binder returns (the five percentages are there) and the elements
    exist, [gauge-arc] gets the path of [calculateGaugeArc(efetividade)],
    whose large-arc flag is that of the percentage, and
    [efetividade-valor] reads the same percentage, formatted, with [%]. *)
Theorem dashboard_gauge_matches_value (w : world) (s : stats) (ef : Q)
        (g v : element) :
  fst (loadStats w) = Normal (Some s) ->
  is_Some (perc_atendidas s) -> is_Some (perc_baixadas s) ->
  is_Some (perc_em_implementacao s) -> is_Some (perc_pendentes s) ->
  efetividade s = Some ef ->
  document w !! "gauge-arc" = Some g ->
  document w !! "efetividade-valor" = Some v ->
  document (snd (updateDashboard w)) !! "gauge-arc"
  = Some (setAttribute_d (calculateGaugeArc (Q2R ef)) g)
  /\ textContent <$> document (snd (updateDashboard w)) !! "efetividade-valor"
     = Some (JSNumber.toLocaleString_ptBR 1 1 ef +:+ "%").
Proof.
  intros Hs Ha Hb Hc Hd Hef Hg Hv.
  destruct (loadStats_returns w s Hs) as (w1 & Hl & Hdoc).
  rewrite <- Hdoc in Hg, Hv. clear Hdoc Hs.
  split.
  - clear Hv.
    unfold updateDashboard. unfold bind at 1. rewrite Hl, Hef. clear Hl w.
    cbn [formatPercent].
    do 9 (apply (bind_over "gauge-arc" g);
          [ first [ apply keeps_updateElement; discriminate
                  | apply keeps_lift
                  | apply keeps_updateStatusBar;
                    let H := fresh in
                    intros H;
                    repeat (apply elem_of_cons in H as [H|H]; [discriminate H|]);
                    inversion H ]
          | first [ apply returns_updateElement
                  | apply returns_lift_Normal
                  | apply updateStatusBar_returns; assumption ]
          | exact Hg | ];
          clear w1 Hg; intros ? w1 Hg).
    unfold bind at 1. unfold getElementById. cbn [fst snd]. rewrite Hg.
    unfold bind at 1. unfold store at 1. cbn [fst snd].
    match goal with
    | |- document (snd (?c ?w')) !! _ = _ =>
        assert (keeps "gauge-arc" c) as Hk
    end.
    { repeat first
        [ apply keeps_updateElement; discriminate
        | apply keeps_bind; [|intros] ]. }
    rewrite Hk. cbn. apply lookup_insert_eq.
  - clear Hg.
    unfold updateDashboard. unfold bind at 1. rewrite Hl, Hef. clear Hl w.
    cbn [formatPercent].
    do 5 (apply (bind_over "efetividade-valor" v);
          [ first [ apply keeps_updateElement; discriminate
                  | apply keeps_lift
                  | apply keeps_updateStatusBar;
                    let H := fresh in
                    intros H;
                    repeat (apply elem_of_cons in H as [H|H]; [discriminate H|]);
                    inversion H ]
          | first [ apply returns_updateElement
                  | apply returns_lift_Normal
                  | apply updateStatusBar_returns; assumption ]
          | exact Hv | ];
          clear w1 Hv; intros ? w1 Hv).
    rewrite bind_lift_Normal.
    etransitivity;
      [apply (write_then_keeps "efetividade-valor" _ _ w1 v Hv)|reflexivity].
    repeat first
      [ apply keeps_updateElement; discriminate
      | apply keeps_getElementById
      | apply keeps_store; discriminate
      | apply keeps_ret
      | match goal with
        | |- keeps _ (match ?x with _ => _ end) => destruct x
        end
      | apply keeps_bind; [|intros] ].
Qed.

Lemma dashboard_gauge_matches_value_witness :
  fst (loadStats dashboard_page) = Normal (Some sample_stats)
  /\ textContent <$> document (snd (updateDashboard dashboard_page))
                       !! "efetividade-valor" = Some "73,5%".
Proof.
  split; [reflexivity|].
  destruct (dashboard_gauge_matches_value dashboard_page sample_stats 73.5%Q
              (text "") (text "--")) as (_ & H);
    [ reflexivity | eexists; reflexivity | eexists; reflexivity
    | eexists; reflexivity | eexists; reflexivity | reflexivity
    | vm_compute; reflexivity | vm_compute; reflexivity | ].
  rewrite H. vm_compute. reflexivity.
Defined.
End DashboardGauge.

(* ================================================================== *)
(** * Accordion: keyboard navigation *)
(* ================================================================== *)

Section AccordionNavigation.
Import AudinCore AccordionKeys.

Lemma indexOf_from_ge {A} `{EqDecision A} (l : list A) (x : A) (i : Z) :
  (0 <= i)%Z -> indexOf_from l x i = (-1)%Z <-> x ∉ l.
Proof.
  revert i. induction l as [|y l IH]; intros i Hi; cbn.
  - split; [intros _; apply not_elem_of_nil|reflexivity].
  - destruct (decide (y = x)) as [->|Hne].
    + split; [lia|]. intros H. exfalso. apply H. left.
    + rewrite IH by lia. rewrite not_elem_of_cons.
      split; [intros ?; split; [congruence|assumption]|intros [_ ?]; assumption].
Qed.

Lemma filter_none {A} (P : A -> Prop) `{forall x, Decision (P x)} (l : list A) :
  (forall x, x ∈ l -> ~ P x) -> filter P l = [].
Proof.
  induction l as [|y l IH]; intros Hl; [reflexivity|].
  rewrite filter_cons_False by (apply Hl; left).
  apply IH. intros x Hx. apply Hl. by right.
Qed.

Lemma indexOf_from_lookup {A} `{EqDecision A} (l : list A) (x : A) (i : Z) (j : nat) :
  NoDup l -> l !! j = Some x -> indexOf_from l x i = (i + Z.of_nat j)%Z.
Proof.
  revert i j. induction l as [|y l IH]; intros i j Hnd Hj; [discriminate|].
  apply NoDup_cons in Hnd as [Hy Hnd]. cbn.
  destruct j as [|j]; cbn in Hj.
  - injection Hj as ->. rewrite decide_True by reflexivity. lia.
  - destruct (decide (y = x)) as [->|Hne].
    + exfalso. apply Hy. eapply list_elem_of_lookup_2; eauto.
    + rewrite (IH (i + 1)%Z j) by assumption. lia.
Qed.

Lemma indexOf_lookup (l : list nat) (x : nat) (j : nat) :
  NoDup l -> l !! j = Some x -> indexOf l x = Z.of_nat j.
Proof. intros. unfold indexOf. erewrite indexOf_from_lookup; eauto. Qed.

(** The groups built from the triggers [l]: each key once, with the
    triggers of that key in order. *)
Abbreviation well_grouped kf l g :=
  (NoDup (g.*1) /\
   (forall (k : option nat) (m : list nat),
      (k, m) ∈ g -> m = filter (fun x => kf x = k) l) /\
   (forall x : nat, x ∈ l -> kf x ∈ (g.*1))).

Lemma group_push_keys k t (g : groups) :
  (group_push k t g).*1 = (if decide (k ∈ (g.*1)) then (g.*1) else ((g.*1) ++ [k])%list).
Proof.
  induction g as [|[k0 l0] g IH]; cbn.
  - rewrite decide_False; [reflexivity|apply not_elem_of_nil].
  - destruct (decide (k0 = k)) as [->|Hne]; cbn.
    + rewrite decide_True; [reflexivity|left].
    + rewrite IH. destruct (decide (k ∈ (g.*1))).
      * rewrite decide_True; [reflexivity|by right].
      * rewrite decide_False; [reflexivity|].
        rewrite not_elem_of_cons. split; [congruence|assumption].
Qed.

Lemma group_push_elem k t (g : groups) k' m' :
  NoDup (g.*1) -> (k', m') ∈ group_push k t g ->
  (k' <> k /\ (k', m') ∈ g) \/
  (k' = k /\ exists m, (k, m) ∈ g /\ m' = (m ++ [t])%list) \/
  (k' = k /\ (k ∉ (g.*1)) /\ m' = [t]).
Proof.
  induction g as [|[k0 l0] g IH]; cbn; intros Hnd Hin.
  - apply list_elem_of_singleton in Hin. injection Hin as -> ->.
    right; right. split; [reflexivity|]. split; [apply not_elem_of_nil|reflexivity].
  - apply NoDup_cons in Hnd as [Hk0 Hnd].
    destruct (decide (k0 = k)) as [->|Hne].
    + apply elem_of_cons in Hin as [Hin|Hin].
      * injection Hin as -> ->. right; left. split; [reflexivity|].
        exists l0. split; [left|reflexivity].
      * left. split; [|by right]. intros ->. apply Hk0.
        apply (list_elem_of_fmap_2 fst) in Hin. exact Hin.
    + apply elem_of_cons in Hin as [Hin|Hin].
      * injection Hin as -> ->. left. split; [assumption|left].
      * destruct (IH Hnd Hin) as [[? ?]|[[-> (m & ? & ->)]|[-> [? ->]]]].
        -- left. split; [assumption|by right].
        -- right; left. split; [reflexivity|]. exists m. split; [by right|reflexivity].
        -- right; right. split; [reflexivity|]. split; [|reflexivity].
           rewrite not_elem_of_cons. split; [congruence|assumption].
Qed.

Lemma well_grouped_push (kf : nat -> option nat) (l : list nat) (g : groups) t :
  well_grouped kf l g -> well_grouped kf (l ++ [t])%list (group_push (kf t) t g).
Proof.
  intros (Hnd & Hm & Hk). split; [|split].
  - rewrite group_push_keys. destruct (decide (kf t ∈ (g.*1))); [assumption|].
    apply NoDup_app. split; [assumption|]. split.
    + intros x Hx Hx'. apply list_elem_of_singleton in Hx'. congruence.
    + apply NoDup_singleton.
  - intros k m Hin. rewrite filter_app.
    destruct (group_push_elem _ _ _ _ _ Hnd Hin)
      as [[Hne Hin']|[[-> (m0 & Hin' & ->)]|[-> [Hno ->]]]].
    + rewrite (Hm _ _ Hin'). rewrite filter_cons_False by congruence.
      rewrite filter_nil, app_nil_r. reflexivity.
    + rewrite (Hm _ _ Hin') at 1. rewrite filter_cons_True by reflexivity.
      rewrite filter_nil. reflexivity.
    + rewrite filter_cons_True by reflexivity. rewrite filter_nil.
      replace (filter (fun x => kf x = kf t) l) with (@nil nat); [reflexivity|].
      symmetry. apply filter_none.
      intros x Hx Heq. apply Hno. rewrite <- Heq. apply Hk, Hx.
  - intros x Hx. rewrite group_push_keys.
    apply elem_of_app in Hx as [Hx|Hx].
    + destruct (decide (kf t ∈ (g.*1))); [apply Hk, Hx|].
      apply elem_of_app. left. apply Hk, Hx.
    + apply list_elem_of_singleton in Hx as ->.
      destruct (decide (kf t ∈ (g.*1))); [assumption|].
      apply elem_of_app. right. left.
Qed.

Lemma well_grouped_foldl (kf : nat -> option nat) (l : list nat) :
  well_grouped kf l (foldl (fun g t => group_push (kf t) t g) [] l).
Proof.
  induction l as [|t l IH] using rev_ind.
  - split; [apply NoDup_nil_2|]. split.
    + intros k m H. apply elem_of_nil in H as [].
    + intros x H. apply elem_of_nil in H as [].
  - rewrite foldl_app. cbn. apply well_grouped_push, IH.
Qed.

Lemma find_siblings_well_grouped (kf : nat -> option nat) (l : list nat) (g : groups) t :
  (forall k m, (k, m) ∈ g -> m = filter (fun x => kf x = k) l) ->
  kf t ∈ (g.*1) -> t ∈ l ->
  find_siblings g t = Some (filter (fun x => kf x = kf t) l).
Proof.
  intros Hm Hk Ht. induction g as [|[k m] g IH]; [by apply elem_of_nil in Hk|].
  cbn. destruct (indexOf m t =? -1)%Z eqn:E; cbn.
  - apply Z.eqb_eq in E. unfold indexOf in E.
    apply indexOf_from_ge in E; [|lia].
    apply IH.
    + intros k' m' H. apply Hm. by right.
    + cbn in Hk. apply elem_of_cons in Hk as [Hk|Hk]; [|assumption].
      exfalso. apply E. rewrite (Hm k m) by left.
      apply list_elem_of_filter. split; [assumption|exact Ht].
  - apply Z.eqb_neq in E. unfold indexOf in E.
    assert (t ∈ m) as Hin.
    { destruct (decide (t ∈ m)) as [|Hn]; [assumption|].
      exfalso. apply E. apply indexOf_from_ge; [lia|assumption]. }
    rewrite (Hm k m) in Hin |- * by left.
    apply list_elem_of_filter in Hin as [-> _]. reflexivity.
Qed.

Lemma find_siblings_not_trigger (kf : nat -> option nat) (l : list nat) (g : groups) t :
  (forall k m, (k, m) ∈ g -> m = filter (fun x => kf x = k) l) ->
  t ∉ l -> find_siblings g t = None.
Proof.
  intros Hm Ht. induction g as [|[k m] g IH]; [reflexivity|].
  cbn. destruct (indexOf m t =? -1)%Z eqn:E; cbn.
  - apply IH. intros k' m' H. apply Hm. by right.
  - apply Z.eqb_neq in E. unfold indexOf in E. exfalso. apply E.
    apply indexOf_from_ge; [lia|]. rewrite (Hm k m) by left.
    intros H. apply list_elem_of_filter in H as [_ H]. contradiction.
Qed.

(** The group that the keydown handler finds for a trigger is the list of
    the triggers with the same group container. *)
Lemma find_siblings_group_of (d : dom) (t : nat) :
  t ∈ initAccordions d ->
  find_siblings (accordionGroups d) t = Some (group_of d t).
Proof.
  intros Ht. unfold accordionGroups, group_of.
  destruct (well_grouped_foldl (group_key d) (initAccordions d)) as (_ & Hm & Hk).
  apply (find_siblings_well_grouped (group_key d) (initAccordions d));
    [exact Hm|apply Hk, Ht|exact Ht].
Qed.

Lemma find_siblings_outside (d : dom) (t : nat) :
  t ∉ initAccordions d -> find_siblings (accordionGroups d) t = None.
Proof.
  intros Ht. unfold accordionGroups.
  destruct (well_grouped_foldl (group_key d) (initAccordions d)) as (_ & Hm & _).
  apply (find_siblings_not_trigger (group_key d) (initAccordions d)); assumption.
Qed.

Lemma group_of_NoDup (d : dom) (t : nat) : NoDup (group_of d t).
Proof. apply NoDup_filter, all_indices_NoDup. Qed.

Lemma group_of_elem (d : dom) (t t' : nat) :
  t' ∈ group_of d t <-> group_key d t' = group_key d t /\ t' ∈ initAccordions d.
Proof.
  exact (list_elem_of_filter (fun x => group_key d x = group_key d t) _ _).
Qed.

Lemma group_of_same (d : dom) (t t' : nat) :
  t' ∈ group_of d t -> group_of d t' = group_of d t.
Proof.
  intros [H _]%group_of_elem. unfold group_of. rewrite H. reflexivity.
Qed.

(** Where each navigation key moves the focus: [i] is the position of the
    trigger in its group of [n] triggers. *)
Lemma keydown_focus (d0 d : dom) (t : nat) (i : nat) :
  group_of d0 t !! i = Some t -> (1 < length (group_of d0 t))%nat ->
  let n := length (group_of d0 t) in
  focused (accordion_keydown d0 "ArrowDown" t d) = group_of d0 t !! ((i + 1) mod n)%nat /\
  focused (accordion_keydown d0 "ArrowUp" t d) = group_of d0 t !! ((i + n - 1) mod n)%nat /\
  focused (accordion_keydown d0 "Home" t d) = group_of d0 t !! 0%nat /\
  focused (accordion_keydown d0 "End" t d) = group_of d0 t !! (n - 1)%nat.
Proof.
  intros Hi Hlen n.
  assert (t ∈ initAccordions d0) as Ht.
  { apply list_elem_of_lookup_2 in Hi. apply group_of_elem in Hi. tauto. }
  assert (i < n)%nat as Hin by (apply lookup_lt_Some in Hi; exact Hi).
  unfold accordion_keydown, handleAccordionKeydown.
  rewrite (find_siblings_group_of _ _ Ht).
  rewrite (indexOf_lookup _ _ _ (group_of_NoDup d0 t) Hi).
  fold n. destruct (n <=? 1)%nat eqn:E; [apply Nat.leb_le in E; lia|].
  replace (is_navigation_key "ArrowDown") with true by (vm_compute; reflexivity).
  replace (is_navigation_key "ArrowUp") with true by (vm_compute; reflexivity).
  replace (is_navigation_key "Home") with true by (vm_compute; reflexivity).
  replace (is_navigation_key "End") with true by (vm_compute; reflexivity).
  cbn -[Z.rem Z.of_nat Z.to_nat group_of Nat.modulo].
  repeat split; f_equal.
  - rewrite Z.rem_mod_nonneg by lia.
    replace (Z.of_nat i + 1)%Z with (Z.of_nat (i + 1)) by lia.
    rewrite <- Nat2Z.inj_mod. apply Nat2Z.id.
  - rewrite Z.rem_mod_nonneg by lia.
    replace (Z.of_nat i - 1 + Z.of_nat n)%Z with (Z.of_nat (i + n - 1)) by lia.
    rewrite <- Nat2Z.inj_mod. apply Nat2Z.id.
  - lia.
Qed.

Lemma position_in_group (d : dom) (t : nat) :
  t ∈ initAccordions d -> exists i, group_of d t !! i = Some t.
Proof.
  intros Ht. apply list_elem_of_lookup. apply group_of_elem. tauto.
Qed.

Lemma keydown_focus_some (d0 d : dom) (key : string) (t t' : nat) :
  focused (accordion_keydown d0 key t d) = Some t' ->
  t ∈ initAccordions d0 /\ (1 < length (group_of d0 t))%nat.
Proof.
  unfold accordion_keydown, handleAccordionKeydown.
  destruct (_ || _); [discriminate|].
  destruct (negb _); [discriminate|].
  destruct (decide (t ∈ initAccordions d0)) as [Ht|Ht].
  - rewrite (find_siblings_group_of _ _ Ht).
    destruct (_ <=? 1)%nat eqn:E; [discriminate|].
    apply Nat.leb_gt in E. tauto.
  - rewrite (find_siblings_outside _ _ Ht). discriminate.
Qed.

(** X10.  ArrowDown and ArrowUp are inverse to each other. *)
Theorem accordion_arrows_inverse (d0 d d' : dom) (t t' : nat) :
  (focused (accordion_keydown d0 "ArrowDown" t d) = Some t' ->
   focused (accordion_keydown d0 "ArrowUp" t' d') = Some t) /\
  (focused (accordion_keydown d0 "ArrowUp" t d) = Some t' ->
   focused (accordion_keydown d0 "ArrowDown" t' d') = Some t).
Proof.
  split; intros H.
  - destruct (keydown_focus_some _ _ _ _ _ H) as [Ht Hlen].
    destruct (position_in_group _ _ Ht) as [i Hi].
    pose proof (lookup_lt_Some _ _ _ Hi) as Hin.
    destruct (keydown_focus d0 d t i Hi Hlen) as (Hd & _).
    rewrite Hd in H.
    assert (group_of d0 t' = group_of d0 t) as Hg
      by (apply group_of_same; eapply list_elem_of_lookup_2; eauto).
    rewrite <- Hg in H, Hlen.
    destruct (keydown_focus d0 d' t' _ H Hlen) as (_ & Hu & _).
    rewrite Hu, Hg. rewrite <- Hi. f_equal.
    rewrite Hg in Hlen. set (n := length (group_of d0 t)) in *.
    destruct (decide (i + 1 < n)%nat).
    + rewrite (Nat.mod_small (i + 1)) by lia.
      replace (i + 1 + n - 1)%nat with (i + 1 * n)%nat by lia.
      rewrite Nat.Div0.mod_add. apply Nat.mod_small. lia.
    + replace (i + 1)%nat with n by lia. rewrite Nat.Div0.mod_same.
      rewrite Nat.mod_small by lia. lia.
  - destruct (keydown_focus_some _ _ _ _ _ H) as [Ht Hlen].
    destruct (position_in_group _ _ Ht) as [i Hi].
    pose proof (lookup_lt_Some _ _ _ Hi) as Hin.
    destruct (keydown_focus d0 d t i Hi Hlen) as (_ & Hu & _).
    rewrite Hu in H.
    assert (group_of d0 t' = group_of d0 t) as Hg
      by (apply group_of_same; eapply list_elem_of_lookup_2; eauto).
    rewrite <- Hg in H, Hlen.
    destruct (keydown_focus d0 d' t' _ H Hlen) as (Hd & _).
    rewrite Hd, Hg. rewrite <- Hi. f_equal.
    rewrite Hg in Hlen. set (n := length (group_of d0 t)) in *.
    destruct (decide (i = 0)%nat) as [->|].
    + replace (0 + n - 1)%nat with (n - 1)%nat by lia.
      rewrite (Nat.mod_small (n - 1)) by lia.
      replace (n - 1 + 1)%nat with n by lia. apply Nat.Div0.mod_same.
    + replace (i + n - 1)%nat with (i - 1 + 1 * n)%nat by lia.
      rewrite Nat.Div0.mod_add. rewrite (Nat.mod_small (i - 1)) by lia.
      replace (i - 1 + 1)%nat with i by lia. apply Nat.mod_small. lia.
Qed.

Lemma accordion_arrows_inverse_witness :
  focused (accordion_keydown accordion_group_page "ArrowDown" 5
             accordion_group_page) = Some 1%nat /\
  focused (accordion_keydown accordion_group_page "ArrowUp" 1
             accordion_group_page) = Some 5%nat.
Proof.
  split; [vm_compute; reflexivity|].
  apply (proj1 (accordion_arrows_inverse accordion_group_page
                  accordion_group_page accordion_group_page 5 1)).
  vm_compute; reflexivity.
Defined.

Lemma keydown_other_key (d0 d : dom) (key : string) (t : nat) :
  key <> "Enter" -> key <> " " ->
  document (accordion_keydown d0 key t d) = d.
Proof.
  intros H1 H2. unfold accordion_keydown, handleAccordionKeydown.
  apply String.eqb_neq in H1, H2. rewrite H1, H2. cbn.
  destruct (negb _); [reflexivity|].
  destruct (find_siblings _ _); [|reflexivity].
  destruct (_ <=? _)%nat; reflexivity.
Qed.

(** X11.  The navigation keys move the focus inside the group of the trigger
    and write nothing. *)
Theorem accordion_navigation_in_group (d0 d : dom) (key : string) (t : nat) :
  key ∈ ["ArrowDown"; "ArrowUp"; "Home"; "End"] ->
  t ∈ initAccordions d0 ->
  document (accordion_keydown d0 key t d) = d /\
  defaultPrevented (accordion_keydown d0 key t d) = true /\
  match focused (accordion_keydown d0 key t d) with
  | Some t' => t' ∈ initAccordions d0 /\ group_key d0 t' = group_key d0 t
  | None => group_of d0 t = [t]
  end.
Proof.
  intros Hkey Ht.
  assert (key <> "Enter" /\ key <> " ") as [H1 H2].
  { split; intros ->; repeat (apply elem_of_cons in Hkey as [Hkey|Hkey];
      [discriminate|]); by apply elem_of_nil in Hkey. }
  split; [apply keydown_other_key; assumption|].
  destruct (position_in_group _ _ Ht) as [i Hi].
  destruct (decide (1 < length (group_of d0 t))%nat) as [Hlen|Hlen].
  - destruct (keydown_focus d0 d t i Hi Hlen) as (Hd & Hu & Hh & He).
    pose proof (lookup_lt_Some _ _ _ Hi) as Hin.
    assert (forall j, (j < length (group_of d0 t))%nat ->
            match group_of d0 t !! j with
            | Some t' => t' ∈ initAccordions d0 /\ group_key d0 t' = group_key d0 t
            | None => group_of d0 t = [t]
            end) as Hj.
    { intros j Hlt. destruct (lookup_lt_is_Some_2 _ _ Hlt) as [t' Ht'].
      rewrite Ht'. apply list_elem_of_lookup_2, group_of_elem in Ht'. tauto. }
    split.
    + unfold accordion_keydown, handleAccordionKeydown.
      apply String.eqb_neq in H1, H2. rewrite H1, H2. cbn.
      rewrite (find_siblings_group_of _ _ Ht).
      destruct (_ <=? 1)%nat; destruct (negb _) eqn:E; try reflexivity;
        exfalso; revert E; clear -Hkey;
        repeat (apply elem_of_cons in Hkey as [->|Hkey];
                [vm_compute; discriminate|]); by apply elem_of_nil in Hkey.
    + repeat (apply elem_of_cons in Hkey as [->|Hkey];
              [first [rewrite Hd|rewrite Hu|rewrite Hh|rewrite He]; apply Hj;
               first [apply Nat.mod_upper_bound; lia|lia]|]).
      by apply elem_of_nil in Hkey.
  - pose proof (lookup_lt_Some _ _ _ Hi) as Hin.
    assert (length (group_of d0 t) = 1)%nat as Hone by lia.
    assert (group_of d0 t = [t]) as Hg.
    { destruct (group_of d0 t) as [|x [|y l]] eqn:E; try discriminate.
      destruct i; [|discriminate]. cbn in Hi. congruence. }
    unfold accordion_keydown, handleAccordionKeydown.
    apply String.eqb_neq in H1, H2. rewrite H1, H2. cbn.
    rewrite (find_siblings_group_of _ _ Ht), Hg. cbn.
    replace (is_navigation_key key) with true; [cbn; tauto|].
    clear -Hkey. repeat (apply elem_of_cons in Hkey as [->|Hkey];
                [vm_compute; reflexivity|]); by apply elem_of_nil in Hkey.
Qed.

Lemma accordion_navigation_in_group_witness :
  focused (accordion_keydown accordion_group_page "End" 1 accordion_group_page)
  = Some 5%nat /\
  document (accordion_keydown accordion_group_page "End" 1 accordion_group_page)
  = accordion_group_page.
Proof.
  split; [vm_compute; reflexivity|].
  apply (accordion_navigation_in_group accordion_group_page accordion_group_page
           "End" 1); [set_solver|vm_compute; set_solver].
Defined.

(** X12.  Home and End reach the first and the last trigger of the group, and
    the arrows wrap around at its ends. *)
Theorem accordion_home_end_wrap (d0 d : dom) (t : nat) :
  t ∈ initAccordions d0 ->
  (1 < length (group_of d0 t))%nat ->
  focused (accordion_keydown d0 "Home" t d) = head (group_of d0 t) /\
  focused (accordion_keydown d0 "End" t d) = last (group_of d0 t) /\
  (last (group_of d0 t) = Some t ->
   focused (accordion_keydown d0 "ArrowDown" t d) = head (group_of d0 t)) /\
  (head (group_of d0 t) = Some t ->
   focused (accordion_keydown d0 "ArrowUp" t d) = last (group_of d0 t)).
Proof.
  intros Ht Hlen.
  destruct (position_in_group _ _ Ht) as [i Hi].
  destruct (keydown_focus d0 d t i Hi Hlen) as (Hd & Hu & Hh & He).
  pose proof (group_of_NoDup d0 t) as Hnd.
  rewrite Hd, Hu, Hh, He. rewrite !last_lookup, !head_lookup.
  replace (Nat.pred (length (group_of d0 t))) with (length (group_of d0 t) - 1)%nat by lia.
  split; [reflexivity|]. split; [reflexivity|]. split; intros Hl; f_equal.
  - assert (i = length (group_of d0 t) - 1)%nat as -> by (eapply NoDup_lookup; eauto).
    replace (length (group_of d0 t) - 1 + 1)%nat with (length (group_of d0 t)) by lia.
    apply Nat.Div0.mod_same.
  - assert (i = 0)%nat as -> by (eapply NoDup_lookup; eauto).
    replace (0 + length (group_of d0 t) - 1)%nat with (length (group_of d0 t) - 1)%nat by lia.
    apply Nat.mod_small. lia.
Qed.

Lemma accordion_home_end_wrap_witness :
  focused (accordion_keydown accordion_group_page "ArrowDown" 5
             accordion_group_page) = Some 1%nat.
Proof.
  destruct (accordion_home_end_wrap accordion_group_page accordion_group_page 5)
    as (_ & _ & H & _);
    [vm_compute; set_solver|vm_compute; lia|].
  rewrite H; vm_compute; reflexivity.
Defined.
End AccordionNavigation.

(* ================================================================== *)
(** * Tabs: roving tabindex and arrow keys *)
(* ================================================================== *)

Section TabsState.
Import AudinCore.

Lemma classList_contains_alter_ne (f : node -> node) (d : dom) el el' c :
  el <> el' ->
  classList_contains (alter f el d) el' c = classList_contains d el' c.
Proof.
  intros Hne. unfold classList_contains.
  rewrite list_lookup_alter_ne by exact Hne. reflexivity.
Qed.

Lemma classList_contains_alter_same (f : node -> node) (d : dom) el el' c :
  (forall n, classList (f n) = classList n) ->
  classList_contains (alter f el d) el' c = classList_contains d el' c.
Proof.
  intros Hf. unfold classList_contains.
  destruct (decide (el = el')) as [->|Hne].
  - rewrite list_lookup_alter_eq. destruct (d !! el') as [n|]; cbn; [|reflexivity].
    rewrite Hf. reflexivity.
  - rewrite list_lookup_alter_ne by exact Hne. reflexivity.
Qed.

Lemma classList_contains_setAttribute (d : dom) el el' name v c :
  classList_contains (setAttribute el name v d) el' c = classList_contains d el' c.
Proof. apply classList_contains_alter_same. reflexivity. Qed.

Lemma classList_contains_set_hidden (d : dom) el el' b c :
  classList_contains (set_hidden el b d) el' c = classList_contains d el' c.
Proof.
  unfold set_hidden, setAttribute, removeAttribute.
  destruct b; apply classList_contains_alter_same; reflexivity.
Qed.

Lemma classList_contains_toggle_eq (d : dom) el c b :
  is_Some (d !! el) ->
  classList_contains (classList_toggle el c b d) el c = b.
Proof.
  intros [n Hn]. unfold classList_contains, classList_toggle, classList_add,
    classList_remove.
  destruct b; rewrite list_lookup_alter_eq, Hn; cbn.
  - apply bool_decide_eq_true. apply elem_of_union_l, elem_of_singleton. reflexivity.
  - apply bool_decide_eq_false. rewrite elem_of_difference, elem_of_singleton. tauto.
Qed.

Lemma classList_contains_toggle_ne (d : dom) el el' c c' b :
  el <> el' ->
  classList_contains (classList_toggle el c b d) el' c' = classList_contains d el' c'.
Proof.
  intros Hne. unfold classList_toggle, classList_add, classList_remove.
  destruct b; apply classList_contains_alter_ne, Hne.
Qed.

Lemma activate_tabs_class_other (index : nat) (l : list nat) (i : nat) (d : dom) el c :
  el ∉ l ->
  classList_contains (activate_tabs index l i d) el c = classList_contains d el c.
Proof.
  revert i d. induction l as [|t l IH]; intros i d Hel; [reflexivity|].
  cbn [activate_tabs]. cbv zeta.
  apply not_elem_of_cons in Hel as [Hne Hel].
  rewrite IH by exact Hel.
  rewrite classList_contains_setAttribute.
  rewrite classList_contains_toggle_ne by congruence.
  apply classList_contains_setAttribute.
Qed.

Lemma activate_panels_class (index : nat) (l : list (option nat)) (i : nat)
      (d : dom) el c :
  classList_contains (activate_panels index l i d) el c = classList_contains d el c.
Proof.
  revert i d. induction l as [|p l IH]; intros i d; [reflexivity|].
  cbn [activate_panels]. cbv zeta. rewrite IH.
  destruct p as [p|]; [|reflexivity]. apply classList_contains_set_hidden.
Qed.

(** After the loop over the tabs, the tab at position [j] of the list has
    the state of the selected tab exactly when its position is [index]. *)
Lemma activate_tabs_state (index : nat) (l : list nat) (i : nat) (d : dom) j t :
  NoDup l ->
  (forall t', t' ∈ l -> is_Some (d !! t')) ->
  l !! j = Some t ->
  getAttribute (activate_tabs index l i d) t "tabindex"
  = Some (if (i + j =? index)%nat then "0" else "-1")
  /\ classList_contains (activate_tabs index l i d) t "audin-dash__tab--active"
     = (i + j =? index)%nat.
Proof.
  revert i d j. induction l as [|t0 l IH]; intros i d j Hnd Hex Hj;
    [discriminate Hj|].
  apply NoDup_cons in Hnd as [Hnotin Hnd].
  cbn [activate_tabs]. cbv zeta.
  destruct j as [|j]; cbn in Hj.
  - injection Hj as ->. rewrite activate_tabs_other by exact Hnotin.
    rewrite activate_tabs_class_other by exact Hnotin.
    rewrite Nat.add_0_r. split.
    + apply getAttribute_setAttribute_eq.
      unfold classList_toggle, classList_add, classList_remove, setAttribute.
      destruct (i =? index)%nat; rewrite !is_Some_alter; apply Hex; left.
    + rewrite classList_contains_setAttribute.
      apply classList_contains_toggle_eq.
      unfold setAttribute. rewrite is_Some_alter. apply Hex; left.
  - replace (i + S j)%nat with (S i + j)%nat by lia.
    apply IH; [exact Hnd| |exact Hj].
    intros t' Ht'.
    unfold classList_toggle, classList_add, classList_remove, setAttribute.
    destruct (i =? index)%nat; rewrite !is_Some_alter; apply Hex; by right.
Qed.

Lemma lookup_activate_tabs_other (index : nat) (l : list nat) (i : nat) (d : dom) el :
  el ∉ l -> activate_tabs index l i d !! el = d !! el.
Proof.
  revert i d. induction l as [|t l IH]; intros i d Hel; [reflexivity|].
  cbn [activate_tabs]. cbv zeta.
  apply not_elem_of_cons in Hel as [Hne Hel].
  rewrite IH by exact Hel.
  unfold classList_toggle, classList_add, classList_remove, setAttribute.
  destruct (i =? index)%nat; rewrite !list_lookup_alter_ne by congruence; reflexivity.
Qed.

Lemma lookup_activate_panels_other (index : nat) (l : list (option nat)) (i : nat)
      (d : dom) el :
  Some el ∉ l -> activate_panels index l i d !! el = d !! el.
Proof.
  revert i d. induction l as [|p l IH]; intros i d Hel; [reflexivity|].
  cbn [activate_panels]. cbv zeta.
  apply not_elem_of_cons in Hel as [Hne Hel].
  rewrite IH by exact Hel.
  destruct p as [p|]; [|reflexivity].
  unfold set_hidden, setAttribute, removeAttribute.
  destruct (negb _); rewrite list_lookup_alter_ne by congruence; reflexivity.
Qed.

(** X13.  After [activateTab(i)] the tab at position [i], and no other, is
    selected, has the active class and is in the tab order; what is neither
    a tab nor a panel of the group is as before. *)
Theorem tabs_single_selection (d0 d : dom) (g : tab_group) (i : nat) :
  initTabs d0 = Some g ->
  length d = length d0 ->
  (forall j t, tabs g !! j = Some t ->
     getAttribute (activateTab g i d) t "aria-selected"
     = Some (String_of_bool (j =? i)%nat)
     /\ getAttribute (activateTab g i d) t "tabindex"
        = Some (if (j =? i)%nat then "0" else "-1")
     /\ classList_contains (activateTab g i d) t "audin-dash__tab--active"
        = (j =? i)%nat)
  /\ (forall el, el ∉ tabs g -> Some el ∉ panels g ->
        activateTab g i d !! el = d !! el).
Proof.
  intros Hinit Hlen.
  destruct (initTabs_refs d0 g Hinit) as (Hnd & Htabs & Hpanels).
  assert (forall t', t' ∈ tabs g -> is_Some (d !! t')) as Hd.
  { intros el Hel. apply Htabs in Hel. revert Hel.
    rewrite !lookup_lt_is_Some, Hlen. auto. }
  split.
  - intros j t Hj. unfold activateTab.
    rewrite !activate_panels_other_name by discriminate.
    rewrite activate_panels_class.
    rewrite (activate_tabs_selected _ _ 0 d j t Hnd Hd Hj).
    destruct (activate_tabs_state i _ 0 d j t Hnd Hd Hj) as [-> ->].
    repeat split.
  - intros el Ht Hp. unfold activateTab.
    rewrite lookup_activate_panels_other by exact Hp.
    apply lookup_activate_tabs_other, Ht.
Qed.

Lemma tabs_single_selection_witness :
  initTabs tabs_page = Some tabs_page_group
  /\ length tabs_page = length tabs_page
  /\ getAttribute (activateTab tabs_page_group 1 tabs_page) 1 "tabindex" = Some "-1"
  /\ getAttribute (activateTab tabs_page_group 1 tabs_page) 2 "tabindex" = Some "0".
Proof.
  assert (initTabs tabs_page = Some tabs_page_group) as Hinit
    by (vm_compute; reflexivity).
  destruct (tabs_single_selection tabs_page tabs_page tabs_page_group 1 Hinit eq_refl)
    as [Htabs _].
  split; [exact Hinit|]. split; [reflexivity|]. split.
  - destruct (Htabs 0%nat 1%nat) as (_ & H & _); [reflexivity|exact H].
  - destruct (Htabs 1%nat 2%nat) as (_ & H & _); [reflexivity|exact H].
Defined.

(** X14.  ArrowLeft undoes ArrowRight, and ArrowRight undoes ArrowLeft: pressed
    on the tab that the first key has led to, the second activates and
    focuses the tab the first was pressed on. *)
Theorem tab_arrows_inverse (g : tab_group) (index : nat) (d d' : dom) :
  index < length (tabs g) ->
  tab_keydown g index "ArrowRight" d
  = (activateTab g ((index + 1) mod length (tabs g)) d,
     tabs g !! ((index + 1) mod length (tabs g)))
  /\ tab_keydown g ((index + 1) mod length (tabs g)) "ArrowLeft" d'
     = (activateTab g index d', tabs g !! index)
  /\ tab_keydown g index "ArrowLeft" d
     = (activateTab g ((index + length (tabs g) - 1) mod length (tabs g)) d,
        tabs g !! ((index + length (tabs g) - 1) mod length (tabs g)))
  /\ tab_keydown g ((index + length (tabs g) - 1) mod length (tabs g)) "ArrowRight" d'
     = (activateTab g index d', tabs g !! index).
Proof.
  intros Hn. set (n := length (tabs g)) in *.
  assert (forall k d, tab_keydown g k "ArrowRight" d
          = (activateTab g ((k + 1) mod n) d, tabs g !! ((k + 1) mod n))) as HR.
  { intros k d1. unfold tab_keydown. cbn [String.eqb Ascii.eqb Bool.eqb].
    cbv zeta. cbn match. fold n.
    replace (Z.of_nat k + 1)%Z with (Z.of_nat (k + 1)) by lia.
    rewrite <- Nat2Z.inj_mod, Nat2Z.id. reflexivity. }
  assert (forall k d, tab_keydown g k "ArrowLeft" d
          = (activateTab g ((k + n - 1) mod n) d, tabs g !! ((k + n - 1) mod n))) as HL.
  { intros k d1. unfold tab_keydown. cbn [String.eqb Ascii.eqb Bool.eqb].
    cbv zeta. cbn match. fold n.
    replace (Z.of_nat k - 1 + Z.of_nat n)%Z with (Z.of_nat (k + n - 1)) by lia.
    rewrite <- Nat2Z.inj_mod, Nat2Z.id. reflexivity. }
  assert (((index + 1) mod n + n - 1) mod n = index) as E1.
  { destruct (decide (index + 1 < n)).
    - rewrite (Nat.mod_small (index + 1)) by lia.
      replace (index + 1 + n - 1) with (index + 1 * n) by lia.
      rewrite Nat.Div0.mod_add. apply Nat.mod_small. lia.
    - replace (index + 1) with n by lia. rewrite Nat.Div0.mod_same.
      rewrite Nat.mod_small by lia. lia. }
  assert (((index + n - 1) mod n + 1) mod n = index) as E2.
  { destruct (decide (index = 0)) as [->|].
    - replace (0 + n - 1) with (n - 1) by lia.
      rewrite (Nat.mod_small (n - 1)) by lia.
      replace (n - 1 + 1) with n by lia. apply Nat.Div0.mod_same.
    - replace (index + n - 1) with (index - 1 + 1 * n) by lia.
      rewrite Nat.Div0.mod_add. rewrite (Nat.mod_small (index - 1)) by lia.
      replace (index - 1 + 1) with index by lia. apply Nat.mod_small. lia. }
  split; [apply HR|]. split; [rewrite HL, E1; reflexivity|].
  split; [apply HL|]. rewrite HR, E2. reflexivity.
Qed.

Lemma tab_arrows_inverse_witness :
  1 < length (tabs tabs_page_group)
  /\ snd (tab_keydown tabs_page_group 1 "ArrowRight" tabs_page) = Some 1
  /\ snd (tab_keydown tabs_page_group 0 "ArrowLeft" tabs_page) = Some 2.
Proof.
  destruct (tab_arrows_inverse tabs_page_group 1 tabs_page tabs_page)
    as (H1 & H2 & _); [cbn; lia|].
  split; [cbn; lia|]. split; [rewrite H1; reflexivity|exact (f_equal snd H2)].
Defined.
End TabsState.

(* ================================================================== *)
(** * Report filter: what a run writes *)
(* ================================================================== *)

Section FiltrarWrites.
Import AudinCore.

(** A run of [filtrar] is a sequence of [classList] writes of the class
    [audin-hidden]; [hide] lists them in order, with [true] for [add]. *)
Abbreviation hide_all hide d :=
  (foldl (fun (acc : dom) (op : nat * bool) =>
            classList_toggle op.1 "audin-hidden" op.2 acc) d hide).

Lemma toggle_absorbs (b b' : bool) (n : node) :
  (if b then add_class "audin-hidden" else remove_class "audin-hidden")
    ((if b' then add_class "audin-hidden" else remove_class "audin-hidden") n)
  = (if b then add_class "audin-hidden" else remove_class "audin-hidden") n.
Proof.
  destruct n as [p a c v].
  destruct b, b'; unfold add_class, remove_class; cbn; f_equal;
    apply set_eq; intros x;
    rewrite ?elem_of_union, ?elem_of_difference, ?elem_of_union,
      ?elem_of_difference, ?elem_of_singleton;
    destruct (decide (x = "audin-hidden")); tauto.
Qed.

Lemma classList_toggle_alter el c b (d : dom) :
  classList_toggle el c b d
  = alter (if b then add_class c else remove_class c) el d.
Proof. destruct b; reflexivity. Qed.

(** What the writes of [hide] do to the element [j]: nothing, or what the
    last of them does. *)
Lemma hide_all_lookup (hide : list (nat * bool)) (j : nat) :
  (forall d : dom, hide_all hide d !! j = d !! j)
  \/ exists b : bool, forall d : dom,
       hide_all hide d !! j
       = (if b then add_class "audin-hidden" else remove_class "audin-hidden")
           <$> d !! j.
Proof.
  induction hide as [|[el b] hide IH] using rev_ind; [left; reflexivity|].
  destruct (decide (el = j)) as [->|Hne].
  - right. exists b. intros d. rewrite foldl_app. cbn [foldl fst snd].
    rewrite classList_toggle_alter, list_lookup_alter_eq.
    destruct IH as [IH|[b' IH]]; rewrite IH; [reflexivity|].
    destruct (d !! j) as [n|]; [|reflexivity]. cbn. f_equal.
    apply toggle_absorbs.
  - assert (forall d : dom, hide_all (hide ++ [(el, b)]) d !! j = hide_all hide d !! j)
      as Hsame.
    { intros d. rewrite foldl_app. cbn [foldl fst snd].
      rewrite classList_toggle_alter. apply list_lookup_alter_ne, Hne. }
    destruct IH as [IH|[b' IH]]; [left|right; exists b'];
      intros d; rewrite Hsame; apply IH.
Qed.

Lemma hide_all_idempotent (hide : list (nat * bool)) (d : dom) :
  hide_all hide (hide_all hide d) = hide_all hide d.
Proof.
  apply list_eq. intros j.
  destruct (hide_all_lookup hide j) as [H|[b H]]; rewrite !H; [reflexivity|].
  destruct (d !! j) as [n|]; [|reflexivity]. cbn. f_equal. apply toggle_absorbs.
Qed.

Lemma hide_all_getAttribute (hide : list (nat * bool)) (d : dom) el name :
  getAttribute (hide_all hide d) el name = getAttribute d el name.
Proof.
  revert d. induction hide as [|[x b] hide IH]; intros d; [reflexivity|].
  cbn [foldl fst snd]. rewrite IH. apply getAttribute_class.
Qed.

Lemma value_of_toggle (d : dom) el c b control :
  value_of (classList_toggle el c b d) control = value_of d control.
Proof.
  unfold value_of. destruct control as [x|]; [|reflexivity]. cbn.
  rewrite classList_toggle_alter.
  destruct (decide (el = x)) as [->|Hne].
  - rewrite list_lookup_alter_eq. destruct (d !! x) as [n|]; [|reflexivity].
    destruct b; reflexivity.
  - rewrite list_lookup_alter_ne by exact Hne. reflexivity.
Qed.

Lemma hide_all_value_of (hide : list (nat * bool)) (d : dom) control :
  value_of (hide_all hide d) control = value_of d control.
Proof.
  revert d. induction hide as [|[x b] hide IH]; intros d; [reflexivity|].
  cbn [foldl fst snd]. rewrite IH. apply value_of_toggle.
Qed.

Lemma filtrar_items_hide periodo tipo busca (l : list nat) v (d : dom) :
  snd (filtrar_items periodo tipo busca l v d)
  = hide_all (map (fun item => (item, negb (item_matches d periodo tipo busca item))) l) d.
Proof.
  revert v d. induction l as [|x l IH]; intros v d; [reflexivity|].
  cbn [filtrar_items map foldl fst snd]. cbv zeta.
  fold (item_matches d periodo tipo busca x).
  destruct (item_matches d periodo tipo busca x) eqn:Hm; rewrite IH; cbn [negb];
    unfold classList_toggle; f_equal; apply map_ext; intros y; do 2 f_equal;
    apply item_matches_ext; intros;
    [apply getAttribute_classList_remove|apply getAttribute_classList_add].
Qed.

(** The writes of a run depend on the attributes and on the values of the
    controls only, and go to the items and to the message. *)
Lemma filtrar_hide (f : filtros) (d : dom) :
  exists hide : list (nat * bool),
    (forall op, op ∈ hide -> op.1 ∈ items f \/ vazioMsg f = Some op.1) /\
    forall d' : dom,
      (forall el name, getAttribute d' el name = getAttribute d el name) ->
      (forall control, value_of d' control = value_of d control) ->
      filtrar f d' = hide_all hide d'.
Proof.
  set (periodo := value_of d (periodoSelect f)).
  set (tipo := value_of d (tipoSelect f)).
  set (busca := JSString.trim (JSString.toLowerCase (value_of d (buscaInput f)))).
  set (shown := fun item => item_matches d periodo tipo busca item).
  exists (map (fun item => (item, negb (shown item))) (items f)
          ++ match vazioMsg f with
             | Some msg => [(msg, negb (length (List.filter shown (items f)) =? 0)%nat)]
             | None => []
             end)%list.
  split.
  - intros op Hop. apply elem_of_app in Hop as [Hop|Hop].
    + apply list_elem_of_fmap in Hop as (item & -> & Hitem). left. exact Hitem.
    + destruct (vazioMsg f) as [msg|]; [|by apply elem_of_nil in Hop].
      apply list_elem_of_singleton in Hop as ->. right. reflexivity.
  - intros d' Hattr Hval. unfold filtrar. rewrite !Hval.
    fold periodo tipo busca.
    destruct (filtrar_items periodo tipo busca (items f) 0 d') as [visiveis d1] eqn:E.
    assert (d1 = snd (filtrar_items periodo tipo busca (items f) 0 d')) as ->
      by (rewrite E; reflexivity).
    assert (visiveis = fst (filtrar_items periodo tipo busca (items f) 0 d')) as ->
      by (rewrite E; reflexivity).
    rewrite filtrar_items_hide, filtrar_items_count, foldl_app.
    assert (forall item, item_matches d' periodo tipo busca item = shown item) as Hm
      by (intros item; apply item_matches_ext; intros; apply Hattr).
    rewrite (map_ext _ (fun item => (item, negb (shown item))))
      by (intros; rewrite Hm; reflexivity).
    rewrite (List.filter_ext _ shown) by exact Hm.
    destruct (vazioMsg f) as [msg|]; [|reflexivity].
    cbn [foldl fst snd Nat.add].
    destruct (_ =? 0)%nat; reflexivity.
Qed.

(** X15.  A second run of [filtrar], the controls being as they were, changes
    nothing. *)
Theorem filtrar_idempotent (f : filtros) (d : dom) :
  filtrar f (filtrar f d) = filtrar f d.
Proof.
  destruct (filtrar_hide f d) as (hide & _ & H).
  rewrite (H d) by reflexivity.
  rewrite H.
  - apply hide_all_idempotent.
  - intros. apply hide_all_getAttribute.
  - intros. apply hide_all_value_of.
Qed.

Lemma hide_all_other (hide : list (nat * bool)) (d : dom) el :
  (forall op, op ∈ hide -> op.1 <> el) -> hide_all hide d !! el = d !! el.
Proof.
  revert d. induction hide as [|[x b] hide IH]; intros d Hel; [reflexivity|].
  cbn [foldl fst snd]. rewrite IH by (intros op Hop; apply Hel; by right).
  rewrite classList_toggle_alter. apply list_lookup_alter_ne.
  apply (Hel (x, b)). left.
Qed.

(** X16.  A run of [filtrar] writes the class [audin-hidden] of the items and
    of the message, and nothing else. *)
Theorem filtrar_writes_only_hidden (f : filtros) (d : dom) (el : nat) :
  length (filtrar f d) = length d
  /\ parent <$> filtrar f d !! el = parent <$> d !! el
  /\ attributes <$> filtrar f d !! el = attributes <$> d !! el
  /\ value <$> filtrar f d !! el = value <$> d !! el
  /\ (fun n => classList n ∖ {["audin-hidden"]}) <$> filtrar f d !! el
     = (fun n => classList n ∖ {["audin-hidden"]}) <$> d !! el
  /\ (el ∉ items f -> vazioMsg f <> Some el -> filtrar f d !! el = d !! el).
Proof.
  destruct (filtrar_hide f d) as (hide & Hops & H).
  rewrite (H d) by reflexivity.
  split.
  { clear. revert d. induction hide as [|[x b] hide IH]; intros d; [reflexivity|].
    cbn [foldl fst snd]. rewrite IH, classList_toggle_alter. apply length_alter. }
  assert (el ∉ items f -> vazioMsg f <> Some el -> hide_all hide d !! el = d !! el)
    as Hlast.
  { intros Hitem Hmsg. apply hide_all_other.
    intros op Hop <-. destruct (Hops op Hop); [contradiction|congruence]. }
  repeat (split; [|try exact Hlast]);
    destruct (hide_all_lookup hide el) as [Hl|[b Hl]]; rewrite !Hl;
    try reflexivity;
    (destruct (d !! el) as [n|] eqn:Hn; [|reflexivity]); cbn;
    try (destruct b; reflexivity).
  f_equal. destruct b; cbn; apply set_eq; intros x;
    rewrite ?elem_of_difference, ?elem_of_union, ?elem_of_difference,
      ?elem_of_singleton; tauto.
Qed.
End FiltrarWrites.

(* ================================================================== *)
(** * Scroll spy *)
(* ================================================================== *)

Section ScrollSpyFacts.
Import AudinCore ScrollSpy.

Lemma current_section_cases (offsetTop : nat -> Z) (scrollPos : Q)
      (l : list section) (c0 : section) :
  (current_section offsetTop scrollPos l c0 = c0
   /\ forall s, s ∈ l -> (scrollPos < inject_Z (offsetTop (el s)))%Q)
  \/ exists k,
       l !! k = Some (current_section offsetTop scrollPos l c0)
       /\ (inject_Z (offsetTop (el (current_section offsetTop scrollPos l c0)))
           <= scrollPos)%Q
       /\ forall j s, l !! j = Some s -> k < j ->
                      (scrollPos < inject_Z (offsetTop (el s)))%Q.
Proof.
  revert c0. induction l as [|s l IH]; intros c0.
  - left. split; [reflexivity|]. intros s Hs. by apply elem_of_nil in Hs.
  - cbn [current_section].
    destruct (Qle_bool (inject_Z (offsetTop (el s))) scrollPos) eqn:E.
    + destruct (IH s) as [[Hc Hall]|(k & Hk & Hle & Hlater)].
      * right. exists 0. rewrite Hc. split; [reflexivity|].
        split; [apply Qle_bool_iff, E|].
        intros [|j] s' Hs' Hj; [lia|]. apply Hall.
        eapply list_elem_of_lookup_2. exact Hs'.
      * right. exists (S k). split; [exact Hk|]. split; [exact Hle|].
        intros [|j] s' Hs' Hj; [lia|]. apply (Hlater j); [exact Hs'|lia].
    + assert (scrollPos < inject_Z (offsetTop (el s)))%Q as Hs.
      { apply Qnot_le_lt. intros H. apply Qle_bool_iff in H. congruence. }
      destruct (IH c0) as [[Hc Hall]|(k & Hk & Hle & Hlater)].
      * left. split; [exact Hc|]. intros s' Hs'.
        apply elem_of_cons in Hs' as [->|Hs']; [exact Hs|apply Hall, Hs'].
      * right. exists (S k). split; [exact Hk|]. split; [exact Hle|].
        intros [|j] s' Hs' Hj; [lia|]. apply (Hlater j); [exact Hs'|lia].
Qed.

Lemma current_section_elem (offsetTop : nat -> Z) (scrollPos : Q)
      (first : section) (rest : list section) :
  current_section offsetTop scrollPos (first :: rest) first ∈ first :: rest.
Proof.
  destruct (current_section_cases offsetTop scrollPos (first :: rest) first)
    as [[Hc _]|(k & Hk & _)].
  - rewrite Hc. left.
  - eapply list_elem_of_lookup_2. exact Hk.
Qed.

(** X17.  The section that [onScroll] takes as current is the last one, in
    the order of the links, whose top is not below the scroll line, and the
    first one when every section is below it. *)
Theorem scrollspy_current_section (offsetTop : nat -> Z) (scrollPos : Q)
        (first : section) (rest : list section) :
  exists k,
    (first :: rest) !! k
    = Some (current_section offsetTop scrollPos (first :: rest) first)
    /\ (forall j s, (first :: rest) !! j = Some s -> k < j ->
                    (scrollPos < inject_Z (offsetTop (el s)))%Q)
    /\ ((inject_Z (offsetTop
                     (el (current_section offsetTop scrollPos (first :: rest) first)))
         <= scrollPos)%Q
        \/ (k = 0 /\ forall s, s ∈ first :: rest ->
                               (scrollPos < inject_Z (offsetTop (el s)))%Q)).
Proof.
  destruct (current_section_cases offsetTop scrollPos (first :: rest) first)
    as [[Hc Hall]|(k & Hk & Hle & Hlater)].
  - exists 0. rewrite Hc. split; [reflexivity|]. split.
    + intros j s Hs _. apply Hall. eapply list_elem_of_lookup_2. exact Hs.
    + right. split; [reflexivity|exact Hall].
  - exists k. split; [exact Hk|]. split; [exact Hlater|]. left. exact Hle.
Qed.

Lemma collect_sections_elem (d : dom) (navLinks : list nat) (s : section) :
  s ∈ collect_sections d navLinks ->
  link s ∈ navLinks /\ is_Some (d !! link s).
Proof.
  unfold collect_sections. rewrite list_elem_of_omap.
  intros (l & Hl & Hs). unfold section_of in Hs.
  destruct (getAttribute d l "href") as [href|] eqn:Hh; [|discriminate].
  destruct (_ || _); [discriminate|].
  destruct (getElementById d _); [|discriminate].
  injection Hs as <-. cbn. split; [exact Hl|].
  eapply getAttribute_is_Some. exact Hh.
Qed.

Lemma remove_all_contains (c : string) (links : list nat) (d : dom) (l : nat) :
  classList_contains
    (foldl (fun d link => classList_remove link c d) d links) l c
  = if decide (l ∈ links) then false else classList_contains d l c.
Proof.
  revert d. induction links as [|x links IH]; intros d.
  - cbn. rewrite decide_False; [reflexivity|apply not_elem_of_nil].
  - cbn [foldl]. rewrite IH.
    destruct (decide (l ∈ links)) as [Hin|Hnot].
    + rewrite decide_True; [reflexivity|by right].
    + destruct (decide (l = x)) as [->|Hne].
      * rewrite decide_True by left.
        unfold classList_contains, classList_remove.
        rewrite list_lookup_alter_eq. destruct (d !! x) as [n|]; [|reflexivity].
        cbn. apply bool_decide_eq_false.
        rewrite elem_of_difference, elem_of_singleton. tauto.
      * rewrite decide_False
          by (rewrite not_elem_of_cons; split; assumption).
        apply classList_contains_alter_ne. congruence.
Qed.

Lemma remove_all_lookup (c : string) (links : list nat) (d : dom) (el : nat) :
  el ∉ links ->
  foldl (fun d link => classList_remove link c d) d links !! el = d !! el.
Proof.
  revert d. induction links as [|x links IH]; intros d Hel; [reflexivity|].
  apply not_elem_of_cons in Hel as [Hne Hel].
  cbn [foldl]. rewrite IH by exact Hel.
  apply list_lookup_alter_ne. congruence.
Qed.

Lemma remove_all_is_Some (c : string) (links : list nat) (d : dom) (el : nat) :
  is_Some (foldl (fun d link => classList_remove link c d) d links !! el)
  <-> is_Some (d !! el).
Proof.
  revert d. induction links as [|x links IH]; intros d; [reflexivity|].
  cbn [foldl]. rewrite IH. apply is_Some_alter.
Qed.

(** X18.  After [onScroll], among the links of the index the link of the
    current section, and no other, has the active class; the other
    elements of the page are as before. *)
Theorem scrollspy_one_active_link (d0 d : dom) (navLinks : list nat)
        (offsetTop : nat -> Z) (scrollY : Q)
        (first : section) (rest : list section) :
  collect_sections d0 navLinks = first :: rest ->
  length d = length d0 ->
  initScrollSpy navLinks offsetTop scrollY d0
  = (Some (first :: rest),
     onScroll navLinks (first :: rest) offsetTop scrollY d0)
  /\ (forall l, l ∈ navLinks ->
     classList_contains
       (onScroll navLinks (first :: rest) offsetTop scrollY d) l activeClass
     = bool_decide
         (l = link (current_section offsetTop (scrollY + 100)
                                    (first :: rest) first)))
  /\ link (current_section offsetTop (scrollY + 100) (first :: rest) first)
       ∈ navLinks
  /\ (forall el, el ∉ navLinks ->
        onScroll navLinks (first :: rest) offsetTop scrollY d !! el = d !! el).
Proof.
  intros Hsec Hlen.
  set (c := current_section offsetTop (scrollY + 100) (first :: rest) first).
  assert (link c ∈ navLinks /\ is_Some (d !! link c)) as [Hc Hex].
  { pose proof (current_section_elem offsetTop (scrollY + 100) first rest) as H.
    fold c in H. rewrite <- Hsec in H.
    apply collect_sections_elem in H as [H1 H2]. split; [exact H1|].
    revert H2. rewrite !lookup_lt_is_Some, Hlen. auto. }
  split; [unfold initScrollSpy; rewrite Hsec; reflexivity|].
  unfold onScroll. cbv zeta. fold c.
  split; [|split; [exact Hc|]].
  - intros l Hl. destruct (decide (l = link c)) as [->|Hne].
    + rewrite bool_decide_true by reflexivity.
      unfold classList_contains, classList_add.
      rewrite list_lookup_alter_eq.
      apply (remove_all_is_Some activeClass navLinks) in Hex as [n Hn].
      rewrite Hn. cbn. apply bool_decide_eq_true.
      apply elem_of_union_l, elem_of_singleton. reflexivity.
    + rewrite bool_decide_false by exact Hne.
      unfold classList_add. rewrite classList_contains_alter_ne by congruence.
      rewrite remove_all_contains. rewrite decide_True by exact Hl. reflexivity.
  - intros el Hel. unfold classList_add.
    rewrite list_lookup_alter_ne by (intros <-; contradiction).
    apply remove_all_lookup, Hel.
Qed.

Lemma scrollspy_one_active_link_witness :
  classList_contains
    (onScroll [1; 2; 3] (collect_sections report_page [1; 2; 3])
              report_layout 850 report_page) 2 activeClass = true
  /\ classList_contains
       (onScroll [1; 2; 3] (collect_sections report_page [1; 2; 3])
                 report_layout 850 report_page) 1 activeClass = false.
Proof.
  destruct (scrollspy_one_active_link report_page report_page [1; 2; 3]
              report_layout 850
              {| el := 4; link := 1 |} [{| el := 5; link := 2 |}])
    as (_ & H & _); [vm_compute; reflexivity|reflexivity|].
  split.
  - change (collect_sections report_page [1; 2; 3])
      with [{| el := 4; link := 1 |}; {| el := 5; link := 2 |}].
    rewrite H by set_solver. vm_compute. reflexivity.
  - change (collect_sections report_page [1; 2; 3])
      with [{| el := 4; link := 1 |}; {| el := 5; link := 2 |}].
    rewrite H by set_solver. vm_compute. reflexivity.
Defined.
End ScrollSpyFacts.

(* ================================================================== *)
(** * Site menu *)
(* ================================================================== *)

Section MenuFacts.
Import JSString JSReplace Menu.

Lemma append_cons (c : ascii) (a b : string) :
  String c a +:+ b = String c (a +:+ b).
Proof. reflexivity. Qed.

Lemma absent_cons (c : ascii) (s t : string) :
  includes (String c s) t = false ->
  String.prefix t (String c s) = false /\ includes s t = false.
Proof.
  intros H. split.
  - destruct (String.prefix t (String c s)) eqn:E; [|reflexivity].
    apply includes_here in E. congruence.
  - destruct (includes s t) eqn:E; [|reflexivity].
    apply (includes_later c) in E. congruence.
Qed.

Lemma absent_cons_intro (c : ascii) (s t : string) :
  String.prefix t (String c s) = false -> includes s t = false ->
  includes (String c s) t = false.
Proof.
  unfold includes, indexOf. cbn [indexOf_from]. intros -> H.
  rewrite negb_false_iff, Z.eqb_eq in H |- *. rewrite Z.add_0_l.
  destruct (indexOf_from_shift s t 1 ltac:(lia)) as [[Ha Hb]|[Ha Hb]]; lia.
Qed.

Lemma absent_prefix (s t : string) :
  includes s t = false -> String.prefix t s = false.
Proof.
  intros H. destruct (String.prefix t s) eqn:E; [|reflexivity].
  apply includes_here in E. congruence.
Qed.

(** What does not contain [t] does not contain a string that ends
    with [t]. *)
Lemma absent_longer (c : ascii) (s t : string) :
  includes s t = false -> includes s (String c t) = false.
Proof.
  induction s as [|x s IH]; intros H; [reflexivity|].
  apply absent_cons in H as [Hp Hs].
  apply absent_cons_intro; [|apply IH, Hs].
  cbn [String.prefix]. destruct (ascii_dec c x); [|reflexivity].
  apply absent_prefix, Hs.
Qed.

(** A pattern that does not occur is not replaced. *)
Lemma replace_absent (s pat rep : string) :
  includes s pat = false -> replace s pat rep = s.
Proof.
  induction s as [|c s IH]; intros H.
  - cbn [replace]. destruct (String.prefix pat "") eqn:E; [|reflexivity].
    apply includes_here in E. congruence.
  - apply absent_cons in H as [Hp Hs]. cbn [replace]. rewrite Hp.
    rewrite IH by exact Hs. reflexivity.
Qed.

(** A prefix of [d +:+ s] is a prefix of [d], or [d] and then a non-empty
    prefix of [s]. *)
Lemma prefix_append (p d s : string) :
  String.prefix p (d +:+ s) = true ->
  String.prefix p d = true
  \/ exists c p', p = d +:+ String c p' /\ String.prefix (String c p') s = true.
Proof.
  revert p. induction d as [|x d IH]; intros p H.
  - destruct p as [|c p']; [left; reflexivity|]. right. exists c, p'.
    split; [reflexivity|exact H].
  - destruct p as [|c p']; [left; reflexivity|].
    rewrite append_cons in H. cbn [String.prefix] in H |- *.
    destruct (ascii_dec c x) as [->|]; [|discriminate].
    destruct (IH p' H) as [Hp|(c' & p'' & -> & Hp)]; [left; exact Hp|].
    right. exists c', p''. split; [reflexivity|exact Hp].
Qed.

Lemma prefix_head (c c' : ascii) (p s : string) :
  String.prefix (String c p) (String c' s) = true -> c = c'.
Proof. cbn. destruct (ascii_dec c c'); [auto|discriminate]. Qed.

(** No occurrence of ["/index.html"] starts inside [dir] in
    [dir +:+ "/index.html"]. *)
Lemma no_straddle (c : ascii) (dir : string) :
  includes (String c dir) "index.html" = false ->
  String.prefix "/index.html" (String c dir +:+ "/index.html") = false.
Proof.
  intros H.
  destruct (String.prefix "/index.html" (String c dir +:+ "/index.html")) eqn:E;
    [exfalso|reflexivity].
  apply absent_cons in H as [_ H].
  rewrite append_cons in E. cbn [String.prefix] in E.
  destruct (ascii_dec "/" c) as [<-|]; [|discriminate].
  apply prefix_append in E as [E|(x & p' & Hp & E)].
  - apply includes_here in E. congruence.
  - apply prefix_head in E as ->. clear H.
    repeat (destruct dir as [|? dir]; [discriminate Hp|injection Hp as _ Hp]).
    destruct dir; discriminate Hp.
Qed.

Lemma replace_index_at_end (dir : string) :
  includes dir "index.html" = false ->
  replace (dir +:+ "/index.html") "/index.html" "" = dir.
Proof.
  induction dir as [|c dir IH]; intros H; [reflexivity|].
  pose proof (no_straddle c dir H) as Hp.
  rewrite append_cons in Hp |- *. cbn [replace]. rewrite Hp.
  apply absent_cons in H as [_ H]. rewrite IH by exact H. reflexivity.
Qed.

Lemma string_app_length (a b : string) :
  String.length (a +:+ b) = String.length a + String.length b.
Proof. induction a as [|c a IH]; [reflexivity|]. rewrite append_cons. cbn. lia. Qed.

(** X19.  The item of a section, linked as [dir/index.html] or as [dir], is
    active on every path that starts with [dir]. *)
Theorem section_item_active_on_prefix (dir currentPath : string) :
  dir <> "" -> dir <> "/" ->
  String.prefix "http" dir = false ->
  includes dir "index.html" = false ->
  isActive (Some (dir +:+ "/index.html")) currentPath = String.prefix dir currentPath
  /\ isActive (Some dir) currentPath = String.prefix dir currentPath.
Proof.
  intros Hne Hroot Hhttp Habs. split.
  - unfold isActive.
    assert (String.length (dir +:+ "/index.html") = String.length dir + 11) as Hlen
      by (rewrite string_app_length; reflexivity).
    assert (0 < String.length dir) as Hpos by (destruct dir; [congruence|cbn; lia]).
    destruct (String.eqb_spec (dir +:+ "/index.html") "/") as [E|_];
      [rewrite E in Hlen; cbn in Hlen; lia|].
    destruct (String.eqb_spec (dir +:+ "/index.html") "/index.html") as [E|_];
      [rewrite E in Hlen; cbn in Hlen; lia|].
    cbn [orb].
    assert (is_empty (dir +:+ "/index.html") = false) as ->
      by (destruct dir; [congruence|reflexivity]).
    assert (String.prefix "http" (dir +:+ "/index.html") = false) as ->.
    { destruct (String.prefix "http" (dir +:+ "/index.html")) eqn:E; [|reflexivity].
      apply prefix_append in E as [E|(x & p' & Hp & E)]; [congruence|].
      apply prefix_head in E as ->.
      repeat (destruct dir as [|? dir]; [discriminate Hp|injection Hp as _ Hp]).
      destruct dir; discriminate Hp. }
    cbn [negb andb]. rewrite replace_index_at_end by exact Habs.
    rewrite replace_absent by exact Habs. reflexivity.
  - unfold isActive.
    destruct (String.eqb_spec dir "/") as [E|_]; [contradiction|].
    destruct (String.eqb_spec dir "/index.html") as [E|_].
    { rewrite E in Habs. vm_compute in Habs. discriminate. }
    cbn [orb]. rewrite Hhttp.
    assert (is_empty dir = false) as -> by (destruct dir; [congruence|reflexivity]).
    cbn [negb andb].
    assert (includes dir "/index.html" = false) as Habs'
      by (apply absent_longer, Habs).
    rewrite (replace_absent dir "/index.html") by exact Habs'.
    rewrite replace_absent by exact Habs. reflexivity.
Qed.

Lemma section_item_active_on_prefix_witness :
  isActive (Some "/monitoramento/index.html") "/monitoramento/2024.html" = true
  /\ isActive (Some "/raio-x/index.html") "/raio-xyz/index.html" = true.
Proof.
  split.
  - destruct (section_item_active_on_prefix "/monitoramento"
                "/monitoramento/2024.html") as [H _];
      [discriminate|discriminate|reflexivity|vm_compute; reflexivity|].
    exact H.
  - destruct (section_item_active_on_prefix "/raio-x" "/raio-xyz/index.html")
      as [H _];
      [discriminate|discriminate|reflexivity|vm_compute; reflexivity|].
    exact H.
Defined.

Lemma shell_eta (s : shell) :
  {| navigation := navigation s; main := main s; menuClosed := menuClosed s |} = s.
Proof. destruct s; reflexivity. Qed.

Lemma toggle_class_absent (c : string) (l : gset string) :
  c ∉ l -> toggle_class c l = {[c]} ∪ l.
Proof. intros H. unfold toggle_class. rewrite bool_decide_false by exact H. reflexivity. Qed.

Lemma toggle_class_added (c : string) (l : gset string) :
  c ∉ l -> toggle_class c ({[c]} ∪ l) = l.
Proof.
  intros H. unfold toggle_class.
  rewrite bool_decide_true by (apply elem_of_union_l, elem_of_singleton; reflexivity).
  apply set_eq. intros x.
  rewrite elem_of_difference, elem_of_union, elem_of_singleton.
  split; [tauto|]. intros Hx. split; [tauto|]. intros ->. contradiction.
Qed.

(** X20.  On a desktop, with a markup that has the menu open, the state of
    the menu after any number of clicks is the state that the next page
    load restores. *)
Theorem menu_state_survives_reload (innerWidth : Z) (nav0 main0 : gset string)
        (stored : option string) (clicks : nat) :
  (480 < innerWidth)%Z ->
  "active" ∉ nav0 -> "active" ∉ main0 ->
  restore innerWidth
    {| navigation := nav0; main := main0;
       menuClosed :=
         menuClosed (Nat.iter clicks (onclick innerWidth)
                       (restore innerWidth
                          {| navigation := nav0; main := main0;
                             menuClosed := stored |})) |}
  = Nat.iter clicks (onclick innerWidth)
      (restore innerWidth
         {| navigation := nav0; main := main0; menuClosed := stored |}).
Proof.
  intros Hw Hnav Hmain.
  assert (isMobile innerWidth = false) as Hm by (apply Z.leb_gt; exact Hw).
  set (s := Nat.iter clicks _ _).
  assert ((navigation s = nav0 /\ main s = main0 /\ menuClosed s <> Some "true")
          \/ (navigation s = {["active"]} ∪ nav0 /\ main s = {["active"]} ∪ main0
              /\ menuClosed s = Some "true")) as Hs.
  { subst s. induction clicks as [|n IH].
    - unfold Nat.iter. cbn [nat_rect]. unfold restore. rewrite Hm. cbn [menuClosed].
      destruct (bool_decide (stored = Some "true")) eqn:E.
      + right. apply bool_decide_eq_true in E. cbn. tauto.
      + left. apply bool_decide_eq_false in E. cbn. tauto.
    - rewrite Nat.iter_succ. set (sn := Nat.iter n _ _) in *.
      unfold onclick. rewrite Hm. cbn [negb navigation main menuClosed].
      destruct IH as [(-> & -> & _)|(-> & -> & _)].
      + right. rewrite !toggle_class_absent by assumption.
        rewrite bool_decide_true
          by (apply elem_of_union_l, elem_of_singleton; reflexivity).
        repeat split.
      + left. rewrite !toggle_class_added by assumption.
        rewrite bool_decide_false by assumption.
        repeat split. discriminate. }
  unfold restore at 1. rewrite Hm. cbn [menuClosed navigation main].
  destruct Hs as [(Hn & Hmn & Hc)|(Hn & Hmn & Hc)].
  - rewrite bool_decide_false by exact Hc.
    rewrite <- Hn at 1. rewrite <- Hmn at 1. apply shell_eta.
  - rewrite bool_decide_true by exact Hc.
    rewrite <- Hn, <- Hmn. apply shell_eta.
Qed.

Lemma menu_state_survives_reload_witness :
  "active" ∈ navigation
    (restore 1280 {| navigation := {["navigation"]}; main := {["main"]};
                     menuClosed :=
                       menuClosed (Nat.iter 3 (onclick 1280)
                         (restore 1280
                            {| navigation := {["navigation"]}; main := {["main"]};
                               menuClosed := None |})) |}).
Proof.
  rewrite (menu_state_survives_reload 1280 {["navigation"]} {["main"]} None 3);
    [|lia|set_solver|set_solver].
  apply (bool_decide_unpack _). vm_compute. reflexivity.
Defined.

(** X21.  On a phone a click stores nothing, and the page always loads with
    the menu closed. *)
Theorem menu_mobile_not_persisted (innerWidth : Z) (s : shell) (clicks : nat) :
  (innerWidth <= 480)%Z ->
  menuClosed (Nat.iter clicks (onclick innerWidth) (restore innerWidth s))
  = menuClosed s
  /\ ("active" ∉ navigation (restore innerWidth s))
  /\ ("active" ∉ main (restore innerWidth s)).
Proof.
  intros Hw.
  assert (isMobile innerWidth = true) as Hm by (apply Z.leb_le; exact Hw).
  split.
  - induction clicks as [|n IH].
    + unfold Nat.iter. cbn [nat_rect]. unfold restore. rewrite Hm. reflexivity.
    + rewrite Nat.iter_succ. set (sn := Nat.iter n _ _) in *.
      unfold onclick. rewrite Hm. cbn [negb menuClosed]. exact IH.
  - unfold restore. rewrite Hm. cbn [navigation main].
    split; rewrite elem_of_difference, elem_of_singleton; tauto.
Qed.

Lemma menu_mobile_not_persisted_witness :
  menuClosed (Nat.iter 2 (onclick 390)
                (restore 390 {| navigation := {["active"]}; main := ∅;
                                menuClosed := Some "true" |}))
  = Some "true".
Proof.
  apply (menu_mobile_not_persisted 390
           {| navigation := {["active"]}; main := ∅; menuClosed := Some "true" |} 2).
  lia.
Defined.
End MenuFacts.

(* ================================================================== *)
(** * Sunburst chart: totals and the unit filter *)
(* ================================================================== *)

Section SunburstFacts.
Import Sunburst.

(** The sum that a [reduce] with [+] computes. *)
Abbreviation total_of f l := (fold_left (fun (total : Q) x => total + f x)%Q l 0%Q).










Lemma set_add_spec (x : string) (s : list string) :
  NoDup s -> NoDup (set_add x s) /\ forall y, y ∈ set_add x s <-> y ∈ s \/ y = x.
Proof.
  intros Hnd. unfold set_add. destruct (bool_decide (x ∈ s)) eqn:E.
  - apply bool_decide_eq_true in E. split; [exact Hnd|].
    intros y. split; [tauto|]. intros [?| ->]; assumption.
  - apply bool_decide_eq_false in E. split.
    + apply NoDup_app. split; [exact Hnd|]. split; [|apply NoDup_singleton].
      intros y Hy Hy'. apply list_elem_of_singleton in Hy' as ->. contradiction.
    + intros y. rewrite elem_of_app, list_elem_of_singleton. reflexivity.
Qed.

Lemma add_names_spec (cs : list item) (s : list string) :
  NoDup s ->
  NoDup (foldl (fun s unit => set_add (name unit) s) s cs)
  /\ forall y, y ∈ foldl (fun s unit => set_add (name unit) s) s cs
               <-> y ∈ s \/ exists c, c ∈ cs /\ name c = y.
Proof.
  revert s. induction cs as [|c cs IH]; intros s Hnd.
  - split; [exact Hnd|]. intros y. split; [tauto|].
    intros [?|(c & Hc & _)]; [assumption|by apply elem_of_nil in Hc].
  - cbn [foldl]. destruct (set_add_spec (name c) s Hnd) as [Hnd' Hin'].
    destruct (IH _ Hnd') as [Hnd'' Hin'']. split; [exact Hnd''|].
    intros y. rewrite Hin'', Hin'. split.
    + intros [[?| ->]|(c' & Hc' & <-)]; [tauto| |].
      * right. exists c. split; [left|reflexivity].
      * right. exists c'. split; [by right|reflexivity].
    + intros [?|(c' & Hc' & <-)]; [tauto|].
      apply elem_of_cons in Hc' as [->|Hc']; [tauto|].
      right. exists c'. tauto.
Qed.

Lemma units_from (data : list item) (acc us : list string) :
  foldl (fun acc year =>
           s ← acc; cs ← children year;
           Some (foldl (fun s unit => set_add (name unit) s) s cs))
        (Some acc) data = Some us ->
  NoDup acc ->
  NoDup us
  /\ (forall y, y ∈ data -> is_Some (children y))
  /\ forall u, u ∈ us <-> u ∈ acc \/ exists y cs c,
                 y ∈ data /\ children y = Some cs /\ c ∈ cs /\ name c = u.
Proof.
  revert acc. induction data as [|y data IH]; intros acc H Hnd.
  - cbn in H. injection H as <-. split; [exact Hnd|]. split.
    + intros y Hy. by apply elem_of_nil in Hy.
    + intros u. split; [tauto|].
      intros [?|(y & ? & ? & Hy & _)]; [assumption|by apply elem_of_nil in Hy].
  - cbn [foldl] in H. cbn [mbind option_bind] in H.
    destruct (children y) as [cs|] eqn:Hcs.
    + cbn in H. destruct (add_names_spec cs acc Hnd) as [Hnd' Hin'].
      destruct (IH _ H Hnd') as (Hnd'' & Hsome & Hin''). split; [exact Hnd''|]. split.
      * intros y' Hy'. apply elem_of_cons in Hy' as [->|Hy'];
          [rewrite Hcs; eauto|apply Hsome, Hy'].
      * intros u. rewrite Hin'', Hin'. split.
        -- intros [[?|(c & Hc & <-)]|(y' & cs' & c & Hy' & Hcs' & Hc & <-)]; [tauto| |].
           ++ right. exists y, cs, c. split; [left|tauto].
           ++ right. exists y', cs', c. split; [by right|tauto].
        -- intros [?|(y' & cs' & c & Hy' & Hcs' & Hc & <-)]; [tauto|].
           apply elem_of_cons in Hy' as [->|Hy'].
           ++ left. right. exists c. rewrite Hcs in Hcs'. injection Hcs' as <-. tauto.
           ++ right. exists y', cs', c. tauto.
    + exfalso. cbn in H. clear -H. induction data as [|y' data IH]; [discriminate|].
      apply IH. exact H.
Qed.

(** What the filter makes of a year that has a [children] array. *)
Abbreviation filtered_year unit :=
  (fun year : item =>
     Item (name year) (value year)
          (Some (filter (fun unitNode => name unitNode = unit)
                        (default [] (children year))))).

Lemma filterDataByUnit_Some (data : list item) (unit : string) :
  unit <> "all" ->
  (forall y, y ∈ data -> is_Some (children y)) ->
  filterDataByUnit data unit
  = Some (List.filter has_children (map (filtered_year unit) data)).
Proof.
  intros Hu Hsome. unfold filterDataByUnit.
  apply String.eqb_neq in Hu. rewrite Hu.
  assert (mapM (filter_year unit) data = Some (map (filtered_year unit) data)) as ->.
  { apply mapM_Some. induction data as [|y data IH]; [constructor|].
    cbn [map]. constructor.
    - destruct (Hsome y) as [cs Hcs]; [left|].
      unfold filter_year. rewrite Hcs. reflexivity.
    - apply IH. intros y' Hy'. apply Hsome. by right. }
  reflexivity.
Qed.





(** X23.  The chart filtered by a unit has only years with that unit, and of
    each year only the nodes of that unit; it is empty exactly when the
    unit is not among the units of the filter. *)
Theorem filter_keeps_unit_only (data : list item) (us : list string) (unit : string) :
  units data = Some us ->
  unit <> "all" ->
  exists r,
    filterDataByUnit data unit = Some r
    /\ (r = [] <-> unit ∉ us)
    /\ Forall (fun year => exists cs, children year = Some cs /\ cs <> []
                                      /\ Forall (fun c => name c = unit) cs) r.
Proof.
  intros Hunits Hu.
  destruct (units_from data [] us Hunits NoDup_nil_2) as (Hnd & Hsome & Hin).
  eexists. split; [apply filterDataByUnit_Some; assumption|]. split.
  - rewrite Hin. split.
    + intros Hr [Hnil|(y & cs & c & Hy & Hcs & Hc & Hname)];
        [by apply elem_of_nil in Hnil|].
      assert (filtered_year unit y ∈ List.filter has_children
                                        (map (filtered_year unit) data)) as H.
      { apply list_elem_of_In, List.filter_In. split.
        - apply list_elem_of_In, list_elem_of_fmap. eauto.
        - unfold has_children. cbn [children]. rewrite Hcs. cbn [from_option]; unfold Datatypes.id.
          apply Nat.ltb_lt.
          assert (c ∈ filter (fun c => name c = unit) cs) as Hf
            by (apply list_elem_of_filter; tauto).
          destruct (filter _ cs); [by apply elem_of_nil in Hf|cbn; lia]. }
      rewrite Hr in H. by apply elem_of_nil in H.
    + intros Hno. destruct (List.filter _ _) as [|y' r] eqn:E; [reflexivity|].
      exfalso. assert (y' ∈ List.filter has_children (map (filtered_year unit) data))
        as H by (rewrite E; left).
      apply list_elem_of_In, List.filter_In in H as [H1 H2].
      apply list_elem_of_In, list_elem_of_fmap in H1 as (y & -> & Hy).
      destruct (Hsome y Hy) as [cs Hcs].
      unfold has_children in H2. cbn [children] in H2.
      rewrite Hcs in H2. cbn [from_option] in H2; unfold Datatypes.id in H2. apply Nat.ltb_lt in H2.
      destruct (filter (fun c => name c = unit) cs) as [|c l] eqn:Ef;
        [cbn in H2; lia|].
      assert (c ∈ filter (fun c => name c = unit) cs) as Hc by (rewrite Ef; left).
      apply list_elem_of_filter in Hc as [Hname Hc].
      apply Hno. right. exists y, cs, c. tauto.
  - apply Forall_forall. intros y' H.
    apply list_elem_of_In, List.filter_In in H as [H1 H2].
    apply list_elem_of_In, list_elem_of_fmap in H1 as (y & -> & Hy).
    eexists. split; [reflexivity|]. split.
    + unfold has_children in H2. cbn [children] in H2.
      apply Nat.ltb_lt in H2. intros E. rewrite E in H2. cbn in H2. lia.
    + apply Forall_forall. intros c Hc.
      apply list_elem_of_filter in Hc as [Hname _]. exact Hname.
Qed.

Lemma filter_keeps_unit_only_witness :
  exists r, filterDataByUnit status_sample "PROGESP" = Some r /\ length r = 1.
Proof.
  destruct (filter_keeps_unit_only status_sample ["PROPESP"; "PROGESP"] "PROGESP")
    as (r & Hr & _); [vm_compute; reflexivity|discriminate|].
  exists r. split; [exact Hr|].
  vm_compute in Hr. injection Hr as <-. reflexivity.
Defined.
End SunburstFacts.

(* ================================================================== *)
(** * Debounce *)
(* ================================================================== *)

Section DebounceFacts.
Import Debounce.

Lemma elapse_not_due {A} (now : Z) (st : debounced A) :
  (forall due args, timer st = Some (due, args) -> (now < due)%Z) ->
  elapse now st = ([], st).
Proof.
  intros H. unfold elapse. destruct (timer st) as [[due args]|]; [|reflexivity].
  specialize (H due args eq_refl).
  destruct (due <=? now)%Z eqn:E; [apply Z.leb_le in E; lia|reflexivity].
Qed.

(** A burst of calls, from a state whose pending timeout, if any, is not
    due before the first call. *)
Lemma session_burst {A} (calls : list (Z * A)) (t : Z) (a : A) (horizon : Z)
      (st : debounced A) :
  (forall due args, timer st = Some (due, args) ->
     forall t0 a0, (calls ++ [(t, a)])%list !! 0 = Some (t0, a0) -> (t0 < due)%Z) ->
  (forall i t1 a1 t2 a2,
      (calls ++ [(t, a)])%list !! i = Some (t1, a1) ->
      (calls ++ [(t, a)])%list !! S i = Some (t2, a2) ->
      (t2 < t1 + Z.max 0 (wait st))%Z) ->
  session (calls ++ [(t, a)]) horizon st
  = if (t + Z.max 0 (wait st) <=? horizon)%Z then [a] else [].
Proof.
  revert st. induction calls as [|[t1 a1] calls IH]; intros st Hdue Hgap.
  - cbn [app session].
    rewrite elapse_not_due by (intros due args H; apply (Hdue due args H t a); reflexivity).
    cbn [fst snd app]. unfold elapse, call. cbn [timer wait].
    destruct (_ <=? _)%Z; reflexivity.
  - cbn [app session].
    rewrite elapse_not_due
      by (intros due args H; apply (Hdue due args H t1 a1); reflexivity).
    cbn [fst snd app].
    rewrite IH; [reflexivity| |].
    + intros due args H t0 a0 H0. cbn [call timer] in H. injection H as <- <-.
      apply (Hgap 0%nat t1 a1 t0 a0); [reflexivity|exact H0].
    + intros i t2 a2 t3 a3 H2 H3. cbn [call wait].
      apply (Hgap (S i) t2 a2 t3 a3); assumption.
Qed.

(** X24.  A burst of calls of a debounced function, each less than [wait]
    milliseconds after the one before, runs [fn] once, with the arguments of
    the last call, once [wait] milliseconds have passed since that call, and
    not at all before. *)
Theorem debounce_burst_runs_last {A} (delay : option Z) (calls : list (Z * A))
        (t : Z) (a : A) (horizon : Z) :
  (forall i t1 a1 t2 a2,
      (calls ++ [(t, a)])%list !! i = Some (t1, a1) ->
      (calls ++ [(t, a)])%list !! S i = Some (t2, a2) ->
      (t2 < t1 + Z.max 0 (wait (debounce (A:=A) delay)))%Z) ->
  session (calls ++ [(t, a)]) horizon (debounce delay)
  = if (t + Z.max 0 (wait (debounce (A:=A) delay)) <=? horizon)%Z then [a] else [].
Proof.
  intros Hgap. apply session_burst; [|exact Hgap].
  intros due args H. discriminate H.
Qed.

Lemma debounce_burst_runs_last_witness :
  session [(0%Z, "r"); (120%Z, "re"); (310%Z, "rel")] 700 (debounce None) = ["rel"]
  /\ session [(0%Z, "r"); (120%Z, "re"); (310%Z, "rel")] 600 (debounce None) = [].
Proof.
  split.
  - apply (debounce_burst_runs_last None [(0%Z, "r"); (120%Z, "re")] 310 "rel" 700).
    intros [|[|[|i]]] t1 a1 t2 a2 H1 H2; cbn in H1, H2; try discriminate;
      injection H1 as <- <-; injection H2 as <- <-; cbn; lia.
  - apply (debounce_burst_runs_last None [(0%Z, "r"); (120%Z, "re")] 310 "rel" 600).
    intros [|[|[|i]]] t1 a1 t2 a2 H1 H2; cbn in H1, H2; try discriminate;
      injection H1 as <- <-; injection H2 as <- <-; cbn; lia.
Defined.

(** X25.  [fn] never runs more often than the debounced function is called,
    and always with the arguments of one of the calls. *)
Theorem debounce_runs_only_calls {A} (calls : list (Z * A)) (horizon : Z)
        (delay : option Z) :
  length (session calls horizon (debounce delay)) <= length calls
  /\ forall a, a ∈ session calls horizon (debounce delay) -> a ∈ calls.*2.
Proof.
  assert (forall (st : debounced A),
            length (session calls horizon st)
            <= length calls + match timer st with Some _ => 1 | None => 0 end
            /\ forall a, a ∈ session calls horizon st ->
                         a ∈ calls.*2 \/ exists due, timer st = Some (due, a)) as H.
  { induction calls as [|[t1 a1] calls IH]; intros st.
    - cbn [session]. unfold elapse.
      destruct (timer st) as [[due args]|]; [|cbn; split; [lia|]].
      + destruct (due <=? horizon)%Z; cbn; (split; [lia|]).
        * intros a Ha. apply list_elem_of_singleton in Ha as ->. right. eauto.
        * intros a Ha. by apply elem_of_nil in Ha.
      + intros a Ha. by apply elem_of_nil in Ha.
    - cbn [session]. rewrite length_app.
      destruct (IH (call t1 a1 (snd (elapse t1 st)))) as [Hlen Hin].
      cbn [call timer] in Hlen, Hin. split.
      + cbn [length]. set (n := length (session _ _ _)) in *. unfold elapse.
        destruct (timer st) as [[due args]|]; [|cbn; lia].
        destruct (due <=? t1)%Z; cbn; lia.
      + intros a Ha. apply elem_of_app in Ha as [Ha|Ha].
        * unfold elapse in Ha. destruct (timer st) as [[due args]|];
            [|by apply elem_of_nil in Ha].
          destruct (due <=? t1)%Z; [|by apply elem_of_nil in Ha].
          apply list_elem_of_singleton in Ha as ->. right. eauto.
        * destruct (Hin a Ha) as [H|[due H]].
          -- left. cbn. by right.
          -- injection H as _ <-. left. cbn. left. }
  destruct (H (debounce delay)) as [Hlen Hin]. cbn [debounce timer] in Hlen, Hin.
  split; [lia|]. intros a Ha. destruct (Hin a Ha) as [?|[due ?]]; [assumption|discriminate].
Qed.
End DebounceFacts.

(* ================================================================== *)
(** * Animated counters *)
(* ================================================================== *)

Section CounterFacts.
Import Counters.
Local Open Scope Q_scope.

Lemma div_duration (x : Q) : x / duration == x * (1 # 1500).
Proof. reflexivity. Qed.

Lemma raw_progress_le (s t : Q) :
  (t - s) / duration <= 1 <-> t <= s + 1500.
Proof. rewrite div_duration. split; intros H; Lqa.lra. Qed.

Lemma raw_progress_ge (s t : Q) :
  1 <= (t - s) / duration <-> s + 1500 <= t.
Proof. rewrite div_duration. split; intros H; Lqa.lra. Qed.

Lemma raw_progress_mono (s t1 t2 : Q) :
  t1 <= t2 -> (t1 - s) / duration <= (t2 - s) / duration.
Proof. intros H. rewrite !div_duration. Lqa.lra. Qed.

Lemma raw_progress_nonneg (s t : Q) :
  s <= t -> 0 <= (t - s) / duration.
Proof. intros H. rewrite div_duration. Lqa.lra. Qed.

(** The animation is over exactly when 1500 ms have passed. *)
Lemma progress_done (s t : Q) :
  Qle_bool 1 (progress s t) = true <-> s + 1500 <= t.
Proof.
  unfold progress. cbv zeta.
  destruct (Qle_bool ((t - s) / duration) 1) eqn:E.
  - rewrite Qle_bool_iff. apply raw_progress_ge.
  - split; [|intros _; reflexivity]. intros _.
    assert (~ (t - s) / duration <= 1) as H
      by (intros H; apply Qle_bool_iff in H; congruence).
    rewrite raw_progress_le in H. Lqa.lra.
Qed.

Lemma progress_range (s t : Q) : s <= t -> 0 <= progress s t <= 1.
Proof.
  intros H. unfold progress. cbv zeta.
  pose proof (raw_progress_nonneg s t H).
  destruct (Qle_bool ((t - s) / duration) 1) eqn:E.
  - apply Qle_bool_iff in E. split; assumption.
  - split; Lqa.lra.
Qed.

Lemma progress_mono (s t1 t2 : Q) :
  t1 <= t2 -> progress s t1 <= progress s t2.
Proof.
  intros H. unfold progress. cbv zeta.
  pose proof (raw_progress_mono s t1 t2 H) as Hm.
  destruct (Qle_bool ((t1 - s) / duration) 1) eqn:E1;
    destruct (Qle_bool ((t2 - s) / duration) 1) eqn:E2.
  - exact Hm.
  - apply Qle_bool_iff in E1. exact E1.
  - exfalso. apply Qle_bool_iff in E2.
    assert (~ (t1 - s) / duration <= 1) as H1
      by (intros H1; apply Qle_bool_iff in H1; congruence).
    apply H1. Lqa.lra.
  - Lqa.lra.
Qed.

Lemma eased_range (p : Q) : 0 <= p <= 1 -> 0 <= eased p <= 1.
Proof.
  intros H. unfold eased.
  assert (0 <= (1 - p) * (1 - p)) as H1 by (apply Qmult_le_0_compat; Lqa.lra).
  assert ((1 - p) * (1 - p) <= 1) as H2 by Lqa.nra.
  assert (0 <= (1 - p) * (1 - p) * (1 - p)) as H3
    by (apply Qmult_le_0_compat; [exact H1|Lqa.lra]).
  assert ((1 - p) * (1 - p) * (1 - p) <= 1) as H4 by Lqa.nra.
  split; Lqa.lra.
Qed.

Lemma eased_mono (p q : Q) : 0 <= p -> p <= q -> q <= 1 -> eased p <= eased q.
Proof.
  intros Hp Hpq Hq. unfold eased.
  assert (0 <= (q - p) * ((1 - p) * (1 - p) + (1 - p) * (1 - q) + (1 - q) * (1 - q)))
    by (apply Qmult_le_0_compat; Lqa.nra).
  Lqa.nra.
Qed.

(** X26.  While a counter with a target [T >= 0] is animated, the number it
    shows never goes down and stays between 0 and [T]. *)
Theorem counter_value_in_range (T : Z) (start t1 t2 : Q) :
  (0 <= T)%Z -> start <= t1 -> t1 <= t2 ->
  (0 <= current T start t1)%Z
  /\ (current T start t1 <= current T start t2)%Z
  /\ (current T start t2 <= T)%Z.
Proof.
  intros HT H1 H2. unfold current.
  assert (start <= t2) as H3 by Lqa.lra.
  pose proof (progress_range start t1 H1) as [Hp1 Hp1'].
  pose proof (progress_range start t2 H3) as [Hp2 Hp2'].
  pose proof (progress_mono start t1 t2 H2) as Hm.
  pose proof (eased_range _ (conj Hp1 Hp1')) as [He1 He1'].
  pose proof (eased_range _ (conj Hp2 Hp2')) as [He2 He2'].
  pose proof (eased_mono _ _ Hp1 Hm Hp2') as Hem.
  assert (0 <= inject_Z T) as HT'
    by (change 0 with (inject_Z 0); rewrite <- Zle_Qle; exact HT).
  split; [|split].
  - change 0%Z with (Qfloor 0). apply Qfloor_resp_le.
    apply Qmult_le_0_compat; assumption.
  - apply Qfloor_resp_le. apply Qmult_le_compat_r; assumption.
  - rewrite <- (Qfloor_Z T) at 2. apply Qfloor_resp_le.
    apply Qle_trans with (1 * inject_Z T); [|Lqa.lra].
    apply Qmult_le_compat_r; assumption.
Qed.

Lemma counter_value_in_range_witness :
  (0 <= current 214 1000 1600 <= 214)%Z.
Proof.
  destruct (counter_value_in_range 214 1000 1600 1600) as (H1 & _ & H2);
    [lia|Lqa.lra|Lqa.lra|].
  split; assumption.
Defined.

Lemma run_frames_stopped (target : option Z) (suffix : string)
      (timestamps : list Q) (st : counter) :
  frame_requested st = false -> run_frames target suffix timestamps st = st.
Proof. intros H. destruct timestamps; cbn; [reflexivity|]. rewrite H. reflexivity. Qed.

Lemma run_frames_started (target : option Z) (suffix : string)
      (rest : list Q) (t0 t : Q) (st : counter) :
  startTime st = Some t0 -> ~ t0 == 0 -> frame_requested st = true ->
  t ∈ rest -> t0 + 1500 <= t ->
  textContent (run_frames target suffix rest st) = number_text target +:+ suffix
  /\ frame_requested (run_frames target suffix rest st) = false.
Proof.
  intros Hs H0 Hreq Hin Ht. revert st Hs Hreq.
  induction rest as [|t' rest IH]; intros st Hs Hreq; [by apply elem_of_nil in Hin|].
  cbn [run_frames]. rewrite Hreq. unfold step. rewrite Hs. cbn [started].
  assert (Qeq_bool t0 0 = false) as ->.
  { destruct (Qeq_bool t0 0) eqn:E; [|reflexivity].
    apply Qeq_bool_iff in E. contradiction. }
  cbv zeta. destruct (Qle_bool 1 (progress t0 t')) eqn:E; cbn [negb].
  - rewrite run_frames_stopped by reflexivity. split; reflexivity.
  - apply elem_of_cons in Hin as [->|Hin].
    + exfalso. apply progress_done in Ht. congruence.
    + apply IH; [exact Hin|reflexivity|reflexivity].
Qed.

(** X27.  A counter whose first frame has a timestamp other than 0 ends on
    its target: once a frame comes 1500 ms or more after the first one, the
    element reads the target followed by the suffix, and no further frame is
    requested. *)
Theorem counter_ends_on_target (countTo countSuffix : option string) (text : string)
        (t0 t : Q) (rest : list Q) :
  ~ t0 == 0 -> t ∈ rest -> t0 + 1500 <= t ->
  textContent (animateCounter countTo countSuffix text (t0 :: rest))
  = number_text (parseInt (default "undefined" countTo)) +:+ default "" countSuffix
  /\ frame_requested (animateCounter countTo countSuffix text (t0 :: rest)) = false.
Proof.
  intros H0 Hin Ht. unfold animateCounter. cbv zeta.
  cbn [run_frames frame_requested].
  set (first := step _ _ t0 _).
  assert (startTime first = Some t0 /\ frame_requested first = true) as [Hs Hreq].
  { subst first. unfold step. cbn [startTime started]. cbv zeta.
    assert (Qle_bool 1 (progress t0 t0) = false) as ->.
    { destruct (Qle_bool 1 (progress t0 t0)) eqn:E; [|reflexivity].
      apply progress_done in E. Lqa.lra. }
    split; reflexivity. }
  apply (run_frames_started _ _ rest t0 t); assumption.
Qed.

Lemma counter_ends_on_target_witness :
  textContent (animateCounter (Some "73") (Some "%") "0" [16; 800; 1520; 1536])
  = "73%".
Proof.
  destruct (counter_ends_on_target (Some "73") (Some "%") "0" 16 1520
              [800; 1520; 1536]) as [H _].
  - intros H. discriminate H.
  - right. left.
  - apply Qle_bool_iff. reflexivity.
  - rewrite H. vm_compute. reflexivity.
Defined.
End CounterFacts.
